(** * Town generator: a shallow embedding of the generation engine

    The TypeScript sources are embedded function by function.  JavaScript
    numbers are modelled by exact arithmetic: the integer state of the
    random generator is a [Z], coordinates and areas are rationals [Q]
    (compared with [==]).  The platform functions that leave the rationals
    ([Math.sqrt], [Math.pow], [Math.cos], [Math.sin], [Math.PI]) are
    parameters of the sections that need them.  Objects whose identity the
    code observes (points shared between polygons, graph nodes) are
    modelled by references into an explicit store. *)

From Stdlib Require Import ZArith QArith Qround Qabs Qminmax List Bool String Lia Lqa Psatz.
From stdpp Require Import base gmap.
Import ListNotations.

Local Open Scope Z_scope.

(** ** Random (src/src/main.ts, class Random) *)

Module Random.

(** [private static readonly g = 48271.0] and [n = 2147483647]. *)
Definition g : Z := 48271.
Definition n : Z := 2147483647.

(** The generator's only state is the static field [Random.seed]; every
    operation below takes the current value and returns the new one. *)
Definition state := Z.

(** [reset(seed = -1)]: the sentinel [-1] (also the default argument) takes
    the seed from the clock, [Math.floor(Date.now() % n)]; [now] is the
    clock reading.  JavaScript's [%] truncates, hence [Z.rem]. *)
Definition reset (seed now : Z) : state :=
  if seed =? -1 then Z.rem now n else seed.

Definition getSeed (st : state) : Z := st.

(** [next()]: [Random.seed = Math.floor((Random.seed * g) % n)]. *)
Definition next (st : state) : Z * state :=
  let s := Z.rem (st * g) n in (s, s).

(** [float()]: [next() / n]. *)
Definition float (st : state) : Q * state :=
  let '(v, st') := next st in (inject_Z v / inject_Z n, st')%Q.

(** [normal()]: the mean of three draws. *)
Definition normal (st : state) : Q * state :=
  let '(a, st1) := float st in
  let '(b, st2) := float st1 in
  let '(c, st3) := float st2 in
  ((a + b + c) / 3, st3)%Q.

(** [int(min, max)]: [Math.floor(min + next() / n * (max - min))]. *)
Definition int (min max : Z) (st : state) : Z * state :=
  let '(v, st') := next st in
  (Qfloor (inject_Z min + inject_Z v / inject_Z n * inject_Z (max - min))%Q, st').

(** [bool(chance = 0.5)]: [float() < chance]. *)
Definition bool (chance : Q) (st : state) : Datatypes.bool * state :=
  let '(f, st') := float st in (negb (Qle_bool chance f), st').

(** [fuzzy(f = 1.0)]. *)
Definition fuzzy (f : Q) (st : state) : Q * state :=
  if Qeq_bool f 0 then (1 # 2, st)%Q
  else let '(x, st') := normal st in ((1 - f) / 2 + f * x, st')%Q.

(** The first [k] values of successive [float()] calls. *)
Fixpoint floats (k : nat) (st : state) : list Q :=
  match k with
  | O => []
  | S k' => let '(f, st') := float st in f :: floats k' st'
  end.

(** The states the generator moves through once seeded with a non-negative
    integer. *)
Definition valid (st : state) : Prop := 0 <= st.

End Random.

(** ** Numbers

    Coordinates, lengths and areas are rationals.  The strict comparison
    [a < b] of the source as a boolean: *)

Local Open Scope Q_scope.

Definition Qltb (a b : Q) : bool := negb (Qle_bool b a).

(** ** Point (src/unnamed/part_012, class Point) *)

Module Point.

Record t : Type := mk { x : Q; y : Q }.

Definition origin : t := mk 0 0.

(** [clone()] on values; the allocation of a new object is modelled in
    [Store] below. *)
Definition clone (p : t) : t := mk (x p) (y p).

Definition add (p q : t) : t := mk (x p + x q) (y p + y q).

Definition subtract (p q : t) : t := mk (x p - x q) (y p - y q).

Definition scale (p : t) (factor : Q) : t := mk (x p * factor) (y p * factor).

Definition dot (p q : t) : Q := x p * x q + y p * y q.

Definition rotate90 (p : t) : t := mk (- y p) (x p).

(** The same point with its coordinates in lowest terms, to display the
    result of a computation. *)
Definition reduce (p : t) : t := mk (Qred (x p)) (Qred (y p)).

(** Two points with the same coordinates (as rationals). *)
Definition same (p q : t) : Prop := x p == x q /\ y p == y q.

(** [equals(p, epsilon = 0.0001)]: both coordinates closer than
    [epsilon]; [None] is [null]. *)
Definition EPSILON : Q := 1 # 10000.

Definition equals (p : t) (q : option t) (epsilon : Q) : bool :=
  match q with
  | None => false
  | Some q =>
      Qltb (Qabs (x p - x q)) epsilon && Qltb (Qabs (y p - y q)) epsilon
  end.

Section Metric.

(** [Math.sqrt]. *)
Variable Math_sqrt : Q -> Q.

(** [length()]: [Math.sqrt(x * x + y * y)]. *)
Definition length (p : t) : Q := Math_sqrt (x p * x p + y p * y p).

(** [Point.distance(p1, p2)]. *)
Definition distance (p1 p2 : t) : Q :=
  let dx := x p2 - x p1 in
  let dy := y p2 - y p1 in
  Math_sqrt (dx * dx + dy * dy).

(** [norm(length = 1)]: [normalize] applied to a copy, which rescales
    only a vector of positive length. *)
Definition norm (p : t) (len : Q) : t :=
  let l := length p in
  if Qltb 0 l then mk (x p / l * len) (y p / l * len) else clone p.

End Metric.

End Point.

(** ** GeomUtils (src/src/geom/GeomUtils.ts) *)

Module GeomUtils.

(** [intersectLines]: the parameters [(t1, t2)] of the intersection of the
    lines [(x1, y1) + t1 (dx1, dy1)] and [(x2, y2) + t2 (dx2, dy2)], or
    [null] when [|d| < 0.0001]. *)
Definition intersectLines (x1 y1 dx1 dy1 x2 y2 dx2 dy2 : Q) : option Point.t :=
  let d := dx1 * dy2 - dy1 * dx2 in
  if Qltb (Qabs d) (1 # 10000) then None
  else
    let t2 := (dy1 * (x2 - x1) - dx1 * (y2 - y1)) / d in
    let t1 := if negb (Qeq_bool dx1 0)
              then (x2 - x1 + dx2 * t2) / dx1
              else (y2 - y1 + dy2 * t2) / dy1 in
    Some (Point.mk t1 t2).

Definition interpolate (p1 p2 : Point.t) (ratio : Q) : Point.t :=
  Point.mk (Point.x p1 + (Point.x p2 - Point.x p1) * ratio)
           (Point.y p1 + (Point.y p2 - Point.y p1) * ratio).

Definition scalar (x1 y1 x2 y2 : Q) : Q := x1 * x2 + y1 * y2.

Definition cross (x1 y1 x2 y2 : Q) : Q := x1 * y2 - y1 * x2.

End GeomUtils.

(** ** Polygon (src/unnamed/part_011, class Polygon extends Array<Point>) *)

Module Polygon.

(** A polygon by value: the coordinates of its vertices in boundary order. *)
Definition t : Type := list Point.t.

(** [this[i]] for an index in range. *)
Definition get (p : t) (i : nat) : Point.t := nth i p Point.origin.

(** The loop [for (i = 0; i < len; i++) f(this[i], this[(i + 1) % len])]
    that [forEdge], [square] and [cut] share, as the list of index pairs
    it visits. *)
Definition edge (p : t) (i : nat) : Point.t * Point.t :=
  (get p i, get p ((i + 1) mod length p)).

(** [get square()]: the shoelace sum halved; [0] below three vertices. *)
Definition square (p : t) : Q :=
  if (length p <? 3)%nat then 0
  else
    fold_left
      (fun s i =>
         let '(v1, v2) := edge p i in
         s + (Point.x v1 * Point.y v2 - Point.x v2 * Point.y v1))
      (seq 0 (length p)) 0 * (1 # 2).

(** [get centroid()], the area-weighted centre.  The source declares its
    two accumulators with [const] and then adds to them; the definition
    follows the sums the loop writes down. *)
Definition centroid (p : t) : Point.t :=
  let '(a, cx, cy) :=
    fold_left
      (fun acc i =>
         let '(a, cx, cy) := acc in
         let '(v0, v1) := edge p i in
         let f := GeomUtils.cross (Point.x v0) (Point.y v0) (Point.x v1) (Point.y v1) in
         (a + f, cx + (Point.x v0 + Point.x v1) * f, cy + (Point.y v0 + Point.y v1) * f))
      (seq 0 (length p)) (0, 0, 0) in
  let s6 := 1 / (3 * a) in
  Point.mk (s6 * cx) (s6 * cy).

(** [isConvexVertex] at index [i] and [isConvex]: a strict left turn at
    every vertex. *)
Definition isConvexVertex (p : t) (i : nat) : bool :=
  let len := length p in
  let v0 := get p ((i + len - 1) mod len) in
  let v1 := get p i in
  let v2 := get p ((i + 1) mod len) in
  Qltb 0 (GeomUtils.cross (Point.x v1 - Point.x v0) (Point.y v1 - Point.y v0)
                          (Point.x v2 - Point.x v1) (Point.y v2 - Point.y v1)).

Definition isConvex (p : t) : bool :=
  forallb (isConvexVertex p) (seq 0 (length p)).

(** [slice(a, b)] of the underlying array, for [a <= b <= length]. *)
Definition slice (p : t) (a b : nat) : t := firstn (b - a) (skipn a p).

(** The scan of [cut]: the edges the cutting line meets, the first two
    recorded with the line parameter of the meeting point. *)
Record hits : Type := mkHits {
  edge1 : nat; ratio1 : Q;
  edge2 : nat; ratio2 : Q;
  count : nat
}.

Definition scan_step (p : t) (p1 p2 : Point.t) (h : hits) (i : nat) : hits :=
  let x1 := Point.x p1 in
  let y1 := Point.y p1 in
  let dx1 := Point.x p2 - x1 in
  let dy1 := Point.y p2 - y1 in
  let '(v0, v1) := edge p i in
  let x2 := Point.x v0 in
  let y2 := Point.y v0 in
  let dx2 := Point.x v1 - x2 in
  let dy2 := Point.y v1 - y2 in
  match GeomUtils.intersectLines x1 y1 dx1 dy1 x2 y2 dx2 dy2 with
  | Some tp =>
      if Qle_bool 0 (Point.y tp) && Qle_bool (Point.y tp) 1 then
        match count h with
        | O => mkHits i (Point.x tp) (edge2 h) (ratio2 h) 1
        | S O => mkHits (edge1 h) (ratio1 h) i (Point.x tp) 2
        | S (S c) => mkHits (edge1 h) (ratio1 h) (edge2 h) (ratio2 h) (S (S (S c)))
        end
      else h
  | None => h
  end.

Definition scan (p : t) (p1 p2 : Point.t) : hits :=
  fold_left (scan_step p p1 p2) (seq 0 (length p)) (mkHits 0 0 0 0 0).

(** [cut(p1, p2, gap = 0)].  The branch [if (gap > 0) { }] of the source
    holds only a TODO comment, so [gap] reaches nothing. *)
Definition cut (p : t) (p1 p2 : Point.t) (gap : Q) : list t :=
  let h := scan p p1 p2 in
  let len := length p in
  if (count h =? 2)%nat then
    let point1 := Point.mk (Point.x p1 + (Point.x p2 - Point.x p1) * ratio1 h)
                           (Point.y p1 + (Point.y p2 - Point.y p1) * ratio1 h) in
    let point2 := Point.mk (Point.x p1 + (Point.x p2 - Point.x p1) * ratio2 h)
                           (Point.y p1 + (Point.y p2 - Point.y p1) * ratio2 h) in
    let half1 := point1 :: slice p (edge1 h + 1) (edge2 h + 1) ++ [point2] in
    let half2 := point2 :: (skipn (edge2 h + 1) p ++ slice p 0 (edge1 h + 1)) ++ [point1] in
    let v := Point.subtract (get p ((edge1 h + 1) mod len)) (get p (edge1 h)) in
    if Qltb 0 (GeomUtils.cross (Point.x p2 - Point.x p1) (Point.y p2 - Point.y p1)
                               (Point.x v) (Point.y v))
    then [half1; half2] else [half2; half1]
  else [p].

(** [get center()]: the mean of the vertices.  [None]: the polygon has
    no vertex, [1 / this.length] is [Infinity] and the coordinates of the
    result are [NaN]. *)
Definition center (p : t) : option Point.t :=
  match p with
  | [] => None
  | _ :: _ =>
      let c := fold_left Point.add p Point.origin in
      Some (Point.scale c (1 / inject_Z (Z.of_nat (length p))))
  end.

(** [offset(p)]: [v.addEq(p)] on every vertex. *)
Definition offset (p : t) (d : Point.t) : t :=
  map (fun v => Point.add v d) p.

(** [smoothVertexEq(factor = 1.0)]; a copy of the polygon below three
    vertices.  The quotient by [2 + factor] is that of the rationals:
    the definition stands for the source where [2 + factor] is not 0. *)
Definition smoothVertexEq (p : t) (factor : Q) : t :=
  let len := length p in
  if (len <? 3)%nat then p
  else
    map (fun i =>
           let v1 := get p i in
           let v0 := get p ((i + len - 1) mod len) in
           let v2 := get p ((i + 1) mod len) in
           Point.mk ((Point.x v0 + Point.x v1 * factor + Point.x v2) / (2 + factor))
                    ((Point.y v0 + Point.y v1 * factor + Point.y v2) / (2 + factor)))
        (seq 0 len).

Section Metric.

(** [Math.sqrt] and [Math.PI]. *)
Variable Math_sqrt : Q -> Q.
Variable Math_PI : Q.

(** [shrink(distances)]: for every edge of [this] whose distance is
    positive, cut the result along the edge moved inwards and keep the
    first piece.  [distances[i]] past the end of the array is
    [undefined], and [undefined > 0] is false. *)
Definition shrink (p : t) (distances : list Q) : t :=
  fold_left
    (fun result i =>
       match nth_error distances i with
       | Some distance =>
           if Qltb 0 distance then
             let '(v1, v2) := edge p i in
             let v := Point.subtract v2 v1 in
             let n := Point.norm Math_sqrt (Point.rotate90 v) distance in
             hd result (cut result (Point.add v1 n) (Point.add v2 n) 0)
           else result
       | None => result
       end)
    (seq 0 (length p)) p.

(** [shrinkEq(distance)]. *)
Definition shrinkEq (p : t) (distance : Q) : t :=
  shrink p (repeat distance (length p)).

(** [get perimeter()]. *)
Definition perimeter (p : t) : Q :=
  fold_left
    (fun len i => let '(v0, v1) := edge p i in len + Point.distance Math_sqrt v0 v1)
    (seq 0 (length p)) 0.

(** [get compactness()]: [4 * PI * |square| / perimeter^2]. *)
Definition compactness (p : t) : Q :=
  let pr := perimeter p in
  (4 * Math_PI * Qabs (square p)) / (pr * pr).

End Metric.

(** [min(valueFn)] as the index of the vertex it returns: the first one
    with the least value; [None] is the [Error("Empty polygon")].  The
    vertices of a polygon are distinct objects, so [indexOf] applied to
    the vertex returned gives this index back. *)
Definition minIndex (p : t) (valueFn : nat -> Q) : option nat :=
  match p with
  | [] => None
  | _ :: _ =>
      Some (fst (fold_left
                   (fun acc i =>
                      let '(minVertex, minValue) := acc in
                      let value := valueFn i in
                      if Qltb value minValue then (i, value) else (minVertex, minValue))
                   (seq 1 (length p - 1)) (0%nat, valueFn 0%nat)))
  end.

(** [vector(v)]: [this.next(v).subtract(v)], for the vertex at index [i]. *)
Definition vector (p : t) (i : nat) : Point.t :=
  Point.subtract (get p ((i + 1) mod length p)) (get p i).

(** [static rect(w, h)]. *)
Definition rect (w h : Q) : t :=
  [ Point.mk (- w / 2) (- h / 2); Point.mk (w / 2) (- h / 2);
    Point.mk (w / 2) (h / 2); Point.mk (- w / 2) (h / 2) ].

End Polygon.

(** ** Objects and identity

    [===], [indexOf], [includes] and the keys of a [Map] compare objects
    by identity.  Where the code depends on that, a Point object is a
    reference into a store of coordinates, and [new Point] allocates. *)

Module Store.

Definition ref : Type := nat.

Definition t : Type := gmap ref Point.t.

(** The coordinates a reference holds (references are never dangling). *)
Definition read (h : t) (r : ref) : Point.t :=
  match h !! r with Some p => p | None => Point.origin end.

(** [new Point(x, y)]. *)
Definition alloc (p : Point.t) (h : t) : ref * t :=
  let r := fresh (dom h) in (r, <[r := p]> h).

(** [v.clone()]: [new Point(this.x, this.y)]. *)
Definition clone (v : ref) (h : t) : ref * t :=
  alloc (Point.clone (read h v)) h.

(** [new Polygon(vertices)]: "Make a deep copy of the vertices",
    [for (const v of vertices) this.push(v.clone())]. *)
Fixpoint Polygon_new (vertices : list ref) (h : t) : list ref * t :=
  match vertices with
  | [] => ([], h)
  | v :: vs =>
      let '(r, h1) := clone v h in
      let '(rs, h2) := Polygon_new vs h1 in
      (r :: rs, h2)
  end.

(** [contains(p)]: [this.indexOf(p) !== -1], by identity. *)
Definition contains (poly : list ref) (p : ref) : bool :=
  existsb (Nat.eqb p) poly.

(** [indexOf(p)], by identity; [None] is [-1]. *)
Fixpoint indexOf (poly : list ref) (p : ref) : option nat :=
  match poly with
  | [] => None
  | v :: vs => if (v =? p)%nat then Some 0%nat else option_map S (indexOf vs p)
  end.

(** [next(p)] and [prev(p)] of a polygon; [None] is the
    [Error("Point not in polygon")]. *)
Definition next (poly : list ref) (p : ref) : option ref :=
  match indexOf poly p with
  | None => None
  | Some index => nth_error poly ((index + 1) mod length poly)
  end.

Definition prev (poly : list ref) (p : ref) : option ref :=
  match indexOf poly p with
  | None => None
  | Some index => nth_error poly ((index + length poly - 1) mod length poly)
  end.

End Store.

(** ** Voronoi (src/src/geom/Voronoi.ts): the constructor of Triangle *)

Module Voronoi.

(** A triangle by value: its corners as stored, its circumcenter [c]
    and its circumradius [r]. *)
Record Triangle : Type := mkTriangle {
  p1 : Point.t; p2 : Point.t; p3 : Point.t;
  c : Point.t;
  r : Q
}.

(** The sum whose sign decides the order in which the corners are kept. *)
Definition turn (p1 p2 p3 : Point.t) : Q :=
  (Point.x p2 - Point.x p1) * (Point.y p2 + Point.y p1)
  + (Point.x p3 - Point.x p2) * (Point.y p3 + Point.y p2)
  + (Point.x p1 - Point.x p3) * (Point.y p1 + Point.y p3).

Section Metric.

Variable Math_sqrt : Q -> Q.

(** [new Triangle(p1, p2, p3)].  The quotients are those of the
    rationals: the definition stands for the source where no divisor
    is 0. *)
Definition newTriangle (p1 p2 p3 : Point.t) : Triangle :=
  let s := turn p1 p2 p3 in
  let x1 := (Point.x p1 + Point.x p2) / 2 in
  let y1 := (Point.y p1 + Point.y p2) / 2 in
  let x2 := (Point.x p2 + Point.x p3) / 2 in
  let y2 := (Point.y p2 + Point.y p3) / 2 in
  let dx1 := Point.y p1 - Point.y p2 in
  let dy1 := Point.x p2 - Point.x p1 in
  let dx2 := Point.y p2 - Point.y p3 in
  let dy2 := Point.x p3 - Point.x p2 in
  let t2 :=
    if Qltb (Qabs dx1) (1 # 1000000) then (x1 - x2) / dx2
    else
      let tg1 := dy1 / dx1 in
      ((y1 - y2) - (x1 - x2) * tg1) / (dy2 - dx2 * tg1) in
  let c := Point.mk (x2 + dx2 * t2) (y2 + dy2 * t2) in
  mkTriangle p1 (if Qltb 0 s then p2 else p3) (if Qltb 0 s then p3 else p2)
             c (Point.distance Math_sqrt c p1).

End Metric.

(** The square of the distance between two points. *)
Definition distance2 (a b : Point.t) : Q :=
  Point.dot (Point.subtract b a) (Point.subtract b a).

End Voronoi.

(** ** Patch (src/src/generator/Patch.ts) and the Voronoi records it reads *)

Inductive WardKind : Type :=
| Castle | Cathedral | Market | CraftsmenWard | MerchantWard | PatriciateWard
| AdministrationWard | GateWard | Slum | MilitaryWard | Park | Farm | Ward.

Module Patch.

(** [V] is the representation of a vertex: a reference where identity
    matters, coordinates where only the position is read. *)
Record t (V : Type) : Type := mk {
  shape : list V;
  ward : option WardKind;
  withinWalls : bool;
  withinCity : bool
}.

Arguments mk {V} _ _ _ _.
Arguments shape {V} _.
Arguments ward {V} _.
Arguments withinWalls {V} _.
Arguments withinCity {V} _.

(** A Delaunay triangle: its corners and its circumcenter [c], a Point
    object created by the triangle's constructor. *)
Record Triangle : Type := mkTriangle {
  p1 : Store.ref; p2 : Store.ref; p3 : Store.ref;
  c : Store.ref
}.

(** A Voronoi region: a seed and the triangles around it. *)
Record Region : Type := mkRegion {
  seed : Store.ref;
  vertices : list Triangle
}.

(** [constructor(vertices)]: [this.shape = new Polygon(vertices)]. *)
Definition new (vs : list Store.ref) (h : Store.t) : t Store.ref * Store.t :=
  let '(s, h') := Store.Polygon_new vs h in
  (mk s None false false, h').

(** [static fromRegion(r)]: [new Patch(r.vertices.map(tr => tr.c))]. *)
Definition fromRegion (r : Region) (h : Store.t) : t Store.ref * Store.t :=
  new (map c (vertices r)) h.

(** The patches [Model.buildPatches] creates, one per region in order:
    [for (const r of regions) this.patches.push(Patch.fromRegion(r))]. *)
Fixpoint fromRegions (rs : list Region) (h : Store.t) : list (t Store.ref) * Store.t :=
  match rs with
  | [] => ([], h)
  | r :: rs' =>
      let '(p, h1) := fromRegion r h in
      let '(ps, h2) := fromRegions rs' h1 in
      (p :: ps, h2)
  end.

(** [Model.patchByVertex(v)]: the patches whose shape contains the object. *)
Definition patchByVertex (patches : list (t Store.ref)) (v : Store.ref)
  : list (t Store.ref) :=
  filter (fun p => Store.contains (shape p) v) patches.

End Patch.

(** ** Graph (src/unnamed/part_012, classes Node and Graph) *)

Module Graph.

(** The identity of a Node object. *)
Definition Node : Type := nat.

(** [Map<Node, number>]: entries in insertion order. *)
Definition Links : Type := list (Node * Q).

(** The [links] field of every Node object. *)
Definition t : Type := gmap Node Links.

Definition links (g : t) (a : Node) : Links :=
  match g !! a with Some l => l | None => [] end.

(** [Map.set]: an existing key keeps its place. *)
Fixpoint set (l : Links) (k : Node) (v : Q) : Links :=
  match l with
  | [] => [(k, v)]
  | (k', v') :: l' => if (k =? k')%nat then (k, v) :: l' else (k', v') :: set l' k v
  end.

Definition get (l : Links) (k : Node) : option Q :=
  match find (fun e => (fst e =? k)%nat) l with
  | Some e => Some (snd e)
  | None => None
  end.

(** [Node.link(node, price = 1, symmetrical = true)]. *)
Definition link (a b : Node) (price : Q) (symmetrical : bool) (g : t) : t :=
  let g1 := <[a := set (links g a) b price]> g in
  if symmetrical then <[b := set (links g1 b) a price]> g1 else g1.

(** [Map.delete]. *)
Definition delete (l : Links) (k : Node) : Links :=
  List.filter (fun e => negb (fst e =? k)%nat) l.

(** [Node.unlink(node, symmetrical = true)]. *)
Definition unlink (a b : Node) (symmetrical : bool) (g : t) : t :=
  let g1 := <[a := delete (links g a) b]> g in
  if symmetrical then <[b := delete (links g1 b) a]> g1 else g1.

(** A score: a finite number or [Infinity]. *)
Inductive score : Type := Fin (q : Q) | Infinity.

(** [m.get(k) || Infinity]: [undefined] and [0] are both falsy. *)
Definition orInfinity (o : option score) : score :=
  match o with
  | Some (Fin q) => if Qeq_bool q 0 then Infinity else Fin q
  | Some Infinity => Infinity
  | None => Infinity
  end.

Definition lt (a b : score) : bool :=
  match a, b with
  | Fin x, Fin y => Qltb x y
  | Fin _, Infinity => true
  | Infinity, _ => false
  end.

Definition ge (a b : score) : bool := negb (lt a b).

Definition plus (a : score) (d : Q) : score :=
  match a with Fin x => Fin (x + d) | Infinity => Infinity end.

Definition includes (l : list Node) (a : Node) : bool := existsb (Nat.eqb a) l.

(** [l.splice(l.indexOf(a), 1)] for [a] in [l]. *)
Fixpoint remove1 (l : list Node) (a : Node) : list Node :=
  match l with
  | [] => []
  | b :: l' => if (a =? b)%nat then l' else b :: remove1 l' a
  end.

(** The variables of [aStar]. *)
Record search : Type := mkSearch {
  closedSet : list Node;
  openSet : list Node;
  cameFrom : gmap Node Node;
  gScore : gmap Node score;
  fScore : gmap Node score
}.

(** "Find node with lowest fScore": start from [openSet[0]] and replace
    on a strictly lower score. *)
Definition lowest (fS : gmap Node score) (first : Node) (rest : list Node) : Node :=
  fst (fold_left
         (fun acc node =>
            let '(current, lowestScore) := acc in
            let sc := orInfinity (fS !! node) in
            if lt sc lowestScore then (node, sc) else (current, lowestScore))
         rest (first, orInfinity (fS !! first))).

(** The body of [for (const [neighbor, distance] of current.links.entries())]. *)
Definition relax (current : Node) (curScore : score) (s : search)
           (e : Node * Q) : search :=
  let '(neighbor, distance) := e in
  if includes (closedSet s) neighbor then s
  else
    let sc := plus curScore distance in
    let record os :=
      mkSearch (closedSet s) os
               (<[neighbor := current]> (cameFrom s))
               (<[neighbor := sc]> (gScore s))
               (<[neighbor := sc]> (fScore s)) in
    if negb (includes (openSet s) neighbor) then record (openSet s ++ [neighbor])
    else if ge sc (orInfinity (gScore s !! neighbor)) then s
    else record (openSet s).

(** [buildPath(cameFrom, current)]; [None] when the fuel runs out. *)
Fixpoint buildPath (fuel : nat) (cf : gmap Node Node) (current : Node)
         (path : list Node) : option (list Node) :=
  match cf !! current with
  | None => Some path
  | Some prev =>
      match fuel with
      | O => None
      | S fuel' => buildPath fuel' cf prev (prev :: path)
      end
  end.

(** The [while (openSet.length > 0)] loop.  [Some (Some path)] is a path,
    [Some None] is [null], [None] is fuel exhausted. *)
Fixpoint loop (fuel : nat) (g : t) (goal : Node) (s : search)
  : option (option (list Node)) :=
  match openSet s with
  | [] => Some None
  | first :: rest =>
      match fuel with
      | O => None
      | S fuel' =>
          let current := lowest (fScore s) first rest in
          if (current =? goal)%nat then
            match buildPath (size (cameFrom s)) (cameFrom s) current [current] with
            | Some path => Some (Some path)
            | None => None
            end
          else
            let s1 := mkSearch (closedSet s ++ [current])
                               (remove1 (openSet s) current)
                               (cameFrom s) (gScore s) (fScore s) in
            let curScore := orInfinity (gScore s1 !! current) in
            loop fuel' g goal (fold_left (relax current curScore) (links g current) s1)
      end
  end.

(** [aStar(start, goal, exclude = [])]. *)
Definition aStar (fuel : nat) (g : t) (start goal : Node) (exclude : list Node)
  : option (option (list Node)) :=
  loop fuel g goal
       (mkSearch exclude [start] ∅ {[start := Fin 0]} {[start := Fin 0]}).

(** [calculatePrice(path)]; [None] is [NaN]. *)
Fixpoint priceLoop (g : t) (price : Q) (current : Node) (rest : list Node)
  : option Q :=
  match rest with
  | [] => Some price
  | next :: rest' =>
      match get (links g current) next with
      | Some w => priceLoop g (price + w) next rest'
      | None => None
      end
  end.

Definition calculatePrice (g : t) (path : list Node) : option Q :=
  match path with
  | [] => Some 0
  | a :: rest => priceLoop g 0 a rest
  end.

(** Every score the search can read is [Infinity]. *)
Definition blind (s : search) : Prop :=
  forall k : Node,
    orInfinity (gScore s !! k) = Infinity
    /\ orInfinity (fScore s !! k) = Infinity.

(** Every step of the path [a :: rest] follows a link of the graph. *)
Fixpoint linked (g : t) (a : Node) (rest : list Node) : Prop :=
  match rest with
  | [] => True
  | b :: rest' => is_Some (get (links g a) b) /\ linked g b rest'
  end.

(** The nodes a search from [start] can meet: [start] and the targets of
    the links. *)
Definition within (g : t) (start : Node) : gset Node :=
  {[start]} ∪ ⋃ (map (fun kv => list_to_set (map fst (snd kv))) (map_to_list g)).

(** What holds of the variables of [aStar] each time the loop tests
    [openSet.length > 0], from the second test on: the recorded
    predecessors follow links back to [start], and the open nodes are new. *)
Record invariant (g : t) (start : Node) (exclude : list Node) (s : search) : Prop := {
  inv_link : forall n c, cameFrom s !! n = Some c -> is_Some (get (links g c) n);
  inv_root : forall n c,
      cameFrom s !! n = Some c -> c = start \/ is_Some (cameFrom s !! c);
  inv_open : forall n, In n (openSet s) -> is_Some (cameFrom s !! n);
  inv_start : cameFrom s !! start = None;
  inv_avoid : forall n, is_Some (cameFrom s !! n) -> ~ In n exclude;
  inv_rank : exists r : Node -> nat,
      r start = 0%nat
      /\ forall n c, cameFrom s !! n = Some c ->
                     (r c < r n)%nat /\ (r n <= size (cameFrom s))%nat;
  inv_closed : In start (closedSet s);
  inv_seen : forall n,
      is_Some (cameFrom s !! n) -> In n (openSet s) \/ In n (closedSet s);
  inv_disjoint : forall n, In n (openSet s) -> ~ In n (closedSet s);
  inv_nodup : NoDup (openSet s);
  inv_within : forall n, In n (openSet s) -> n ∈ within g start;
  inv_blind : blind s;
  inv_exclude : incl exclude (closedSet s)
}.

(** A path from [start] to [goal] along links, whose nodes past [start]
    are not excluded, and whose price [calculatePrice] can compute. *)
Definition validPath (g : t) (start goal : Node) (exclude path : list Node) : Prop :=
  hd_error path = Some start
  /\ List.last path start = goal
  /\ (exists price, calculatePrice g path = Some price)
  /\ (forall n, In n path -> n = start \/ ~ In n exclude).

End Graph.

(** ** CurtainWall (src/src/generator/CurtainWall.ts), gate placement *)

Module CurtainWall.

Section Gates.

(** The candidate vertices; the loop only moves them around. *)
Context {V : Type}.

(** [l.splice(start, deleteCount)] for [start] in range. *)
Definition splice (l : list V) (start deleteCount : nat) : list V :=
  firstn start l ++ skipn (start + deleteCount) l.

(** "Pick a random entrance point":
    [const index = Random.int(0, entrances.length - 1)]. *)
Definition pickIndex (entrances : list V) (st : Random.state) : Z * Random.state :=
  Random.int 0 (Z.of_nat (length entrances) - 1) st.

(** "Remove nearby entrances to ensure gates are well-spaced". *)
Definition removeNearby (entrances : list V) (index : nat) : list V :=
  let len := length entrances in
  if (index =? 0)%nat then
    let e := splice entrances 0 (Nat.min 2 len) in
    match e with [] => e | _ => removelast e end
  else if (index =? len - 1)%nat then
    let e := splice entrances (index - 1) (Nat.min 2 len) in
    match e with [] => e | _ => tl e end
  else
    splice entrances (index - 1) (Nat.min 3 len).

(** The loop [while (entrances.length > 0)] of [buildGates], without the
    road stub carved for a real wall (it rewrites [model.patches] and
    touches neither the candidates nor the generator).  [None]: the index
    is outside the list ([entrances[index]] is [undefined]), or the fuel
    ran out. *)
Fixpoint placeGates (fuel : nat) (entrances gates : list V) (st : Random.state)
  : option (list V * Random.state) :=
  match entrances with
  | [] => Some (gates, st)
  | _ :: _ =>
      match fuel with
      | O => None
      | S fuel' =>
          let '(index, st') := pickIndex entrances st in
          if (index <? 0)%Z then None
          else
            match nth_error entrances (Z.to_nat index) with
            | None => None
            | Some gate =>
                placeGates fuel' (removeNearby entrances (Z.to_nat index))
                           (gates ++ [gate]) st'
            end
      end
  end.

End Gates.

(** "Find potential entrance points" at the head of [buildGates]: a
    vertex is reserved, and a patch contains it, by identity.  An empty
    result is the [Error("Bad walled area shape - no possible gates!")]. *)
Definition entrances (patches : list (Patch.t Store.ref))
           (shape reserved : list Store.ref) : list Store.ref :=
  if (1 <? length patches)%nat then
    List.filter
      (fun v =>
         if Store.contains reserved v then false
         else
           let count :=
             length (List.filter (fun p => Store.contains (Patch.shape p) v) patches) in
           (1 <? count)%nat)
      shape
  else List.filter (fun v => negb (Store.contains reserved v)) shape.

(** [buildTowers()]: [segments[j]] of an index outside the array is
    [undefined], which is falsy. *)
Definition buildTowers (real : bool) (shape : list Store.ref)
           (segments : list bool) (gates : list Store.ref) : list Store.ref :=
  if real then
    let len := length shape in
    fold_left
      (fun towers i =>
         let t := nth i shape 0%nat in
         if negb (Store.contains gates t)
            && (nth ((i + len - 1) mod len) segments false || nth i segments false)
         then towers ++ [t] else towers)
      (seq 0 len) []
  else [].

End CurtainWall.

(** ** Model (src/src/generator/Model.ts) *)

Module Model.

(** *** The constructor's retry loop, [initSync] *)

Section InitSync.

(** Everything [build()] fills in on [this]: patches, walls, gates,
    streets, wards and their geometry. *)
Variable Town : Type.

Record t : Type := mk {
  nPatches : Z;
  plazaNeeded : bool;
  citadelNeeded : bool;
  wallsNeeded : bool;
  town : Town
}.

(** How a call of [this.build()] ends: it returns, or a phase throws;
    either way [this] and the generator have been written to. *)
Inductive completion : Type :=
| Returns (this : t) (st : Random.state)
| Throws (e : string) (this : t) (st : Random.state).

(** [private build()]: the six phases in sequence, a function of the
    object it runs on and of the generator's state. *)
Variable build : t -> Random.state -> completion.

(** What the constructor reads and writes outside [this]. *)
Record world : Type := mkWorld {
  rng : Random.state;          (* Random.seed *)
  clock : nat -> Z;            (* the successive values of Date.now() *)
  ticks : nat;                 (* how many have been read *)
  instance : option t;         (* Model.instance *)
  StateManager_seed : Z;
  StateManager_size : Z;
  console : list string        (* console.error *)
}.

(** [Random.reset(); StateManager.seed = Random.getSeed()]. *)
Definition reseed (w : world) : world :=
  let s := Random.reset (-1) (clock w (ticks w)) in
  mkWorld s (clock w) (S (ticks w)) (instance w)
          (Random.getSeed s) (StateManager_size w) (console w).

Definition MAX_ATTEMPTS : nat := 5.

(** [while (!success && attempts < MAX_ATTEMPTS)], on the attempts that
    remain.  [None]: the loop ended without success and the constructor
    throws [Error("Failed to generate town after multiple attempts")]. *)
Fixpoint attempt (remaining : nat) (this : t) (w : world) : option t * world :=
  match remaining with
  | O => (None, w)
  | S remaining' =>
      match build this (rng w) with
      | Returns this' st =>
          (Some this',
           mkWorld st (clock w) (ticks w) (Some this')
                   (StateManager_seed w) (StateManager_size w) (console w))
      | Throws e this' st =>
          attempt remaining' this'
                  (reseed (mkWorld st (clock w) (ticks w) (instance w)
                                   (StateManager_seed w) (StateManager_size w)
                                   (console w ++ [e])))
      end
  end.

(** The generator and [this] as they stand when the loop starts. *)
Definition configure (this : t) (nPatches seed : Z) (w : world) : t * world :=
  let w1 :=
    if (0 <? seed)%Z
    then mkWorld (Random.reset seed 0) (clock w) (ticks w) (instance w)
                 (StateManager_seed w) (StateManager_size w) (console w)
    else reseed w in
  let n := if (nPatches =? -1)%Z then 15%Z else nPatches in
  let '(plaza, st1) := Random.bool (1 # 2) (rng w1) in
  let '(citadel, st2) := Random.bool (1 # 2) st1 in
  let '(walls, st3) := Random.bool (1 # 2) st2 in
  (mk n plaza citadel walls (town this),
   mkWorld st3 (clock w1) (ticks w1) (instance w1)
           (StateManager_seed w1) n (console w1)).

(** [initSync(nPatches, seed)]. *)
Definition initSync (this : t) (nPatches seed : Z) (w : world) : option t * world :=
  let '(this1, w1) := configure this nPatches seed w in
  attempt MAX_ATTEMPTS this1 w1.

End InitSync.

Arguments Returns {Town} _ _.
Arguments Throws {Town} _ _ _.

End Model.

(** ** The tail of [Model.createWards]: city radius and countryside *)

Module CreateWards.

(** [Model.WARDS], the order in which ward types are handed out. *)
Definition WARDS : list WardKind :=
  [ CraftsmenWard; CraftsmenWard; MerchantWard; CraftsmenWard; CraftsmenWard; Cathedral;
    CraftsmenWard; CraftsmenWard; CraftsmenWard; CraftsmenWard; CraftsmenWard;
    CraftsmenWard; CraftsmenWard; CraftsmenWard; AdministrationWard; CraftsmenWard;
    Slum; CraftsmenWard; Slum; PatriciateWard; Market;
    Slum; CraftsmenWard; CraftsmenWard; CraftsmenWard; Slum;
    CraftsmenWard; CraftsmenWard; CraftsmenWard; MilitaryWard; Slum;
    CraftsmenWard; Park; PatriciateWard; Market; MerchantWard ].

(** "Make a copy of ward types and shuffle slightly": [rounds] times,
    draw [index = Random.int(0, wards.length - 2)] and exchange
    [wards[index]] and [wards[index + 1]].  [None]: an index outside the
    array, where the assignments would leave holes in it. *)
Fixpoint shuffle (rounds : nat) (wards : list WardKind) (st : Random.state)
  : option (list WardKind * Random.state) :=
  match rounds with
  | O => Some (wards, st)
  | S rounds' =>
      let '(index, st') := Random.int 0 (Z.of_nat (length wards) - 2) st in
      if (index <? 0)%Z then None
      else
        let i := Z.to_nat index in
        match nth_error wards i, nth_error wards (i + 1) with
        | Some tmp, Some nxt =>
            shuffle rounds' (<[(i + 1)%nat := tmp]> (<[i := nxt]> wards)) st'
        | _, _ => None
        end
  end.

(** The palette [createWards] works through: [Math.floor(wards.length /
    10)] exchanges on a copy of [Model.WARDS]. *)
Definition palette (st : Random.state) : option (list WardKind * Random.state) :=
  shuffle (length WARDS / 10) WARDS st.

Section Radius.

Variable Math_sqrt : Q -> Q.
Variable Math_PI : Q.

(** [for (const v of patch.shape)
       this.cityRadius = Math.max(this.cityRadius, v.length())]. *)
Definition widen (cityRadius : Q) (shape : Polygon.t) : Q :=
  fold_left (fun r v => Qmax r (Point.length Math_sqrt v)) shape cityRadius.

(** The loop "Calculate city radius and process countryside", started
    with [this.cityRadius = 0].  A patch outside the city that has no ward
    yet gets a Farm or a plain Ward. *)
Fixpoint cityRadiusLoop (patches : list (Patch.t Point.t)) (cityRadius : Q)
         (st : Random.state) : list (Patch.t Point.t) * Q * Random.state :=
  match patches with
  | [] => ([], cityRadius, st)
  | patch :: rest =>
      if Patch.withinCity patch then
        let '(ps, r, st') := cityRadiusLoop rest (widen cityRadius (Patch.shape patch)) st in
        (patch :: ps, r, st')
      else
        match Patch.ward patch with
        | None =>
            let '(b, st1) := Random.bool (1 # 5) st in
            let w := if b && Qle_bool (7 # 10)
                               (Polygon.compactness Math_sqrt Math_PI (Patch.shape patch))
                     then Farm else Ward in
            let '(ps, r, st') := cityRadiusLoop rest cityRadius st1 in
            (Patch.mk (Patch.shape patch) (Some w) (Patch.withinWalls patch)
                      (Patch.withinCity patch) :: ps, r, st')
        | Some _ =>
            let '(ps, r, st') := cityRadiusLoop rest cityRadius st in
            (patch :: ps, r, st')
        end
  end.

Definition cityRadius (patches : list (Patch.t Point.t)) (st : Random.state) : Q :=
  snd (fst (cityRadiusLoop patches 0 st)).

Definition patchesAfter (patches : list (Patch.t Point.t)) (st : Random.state)
  : list (Patch.t Point.t) :=
  fst (fst (cityRadiusLoop patches 0 st)).

End Radius.

End CreateWards.

(** ** Cutter.bisect (src/unnamed/part_003) *)

Module Cutter.

Section Bisect.

(** [Math.cos] and [Math.sin]. *)
Variable Math_cos : Q -> Q.
Variable Math_sin : Q -> Q.

(** [bisect(poly, vertex, ratio = 0.5, angle = 0, gap = 0)], the vertex
    given by its index in [poly]. *)
Definition bisect (poly : Polygon.t) (vertex : nat) (ratio angle gap : Q)
  : list Polygon.t :=
  let v := Polygon.get poly vertex in
  let next := Polygon.get poly ((vertex + 1) mod length poly) in
  let p1 := GeomUtils.interpolate v next ratio in
  let d := Point.subtract next v in
  let cosB := Math_cos angle in
  let sinB := Math_sin angle in
  let vx := Point.x d * cosB - Point.y d * sinB in
  let vy := Point.y d * cosB + Point.x d * sinB in
  let p2 := Point.mk (Point.x p1 - vy) (Point.y p1 + vx) in
  Polygon.cut poly p1 p2 gap.

End Bisect.

Section Radial.

Variable Math_sqrt : Q -> Q.

(** [radial(poly, center, gap = 0)] with a centre given: one triangular
    sector [center, v0, v1] per edge, shrunk on its two inner sides when
    a gap is asked for. *)
Definition radial (poly : Polygon.t) (center : Point.t) (gap : Q) : list Polygon.t :=
  map (fun i =>
         let '(v0, v1) := Polygon.edge poly i in
         let sector := [center; v0; v1] in
         if Qltb 0 gap
         then Polygon.shrink Math_sqrt sector [gap / 2; 0; gap / 2]
         else sector)
      (seq 0 (length poly)).

End Radial.

End Cutter.

(** ** Ward (src/unnamed/part_008): recursive subdivision *)

Module Ward.

Definition MAIN_STREET : Q := 2.
Definition REGULAR_STREET : Q := 1.
Definition ALLEY : Q := 6 # 10.

(** How a recursive routine ends: with a value and the generator's new
    state, with an exception, or not within the given recursion depth. *)
Inductive outcome (A : Type) : Type :=
| Ret (a : A) (st : Random.state)
| Raise (e : string)
| OutOfFuel.

Arguments Ret {A} _ _.
Arguments Raise {A} _.
Arguments OutOfFuel {A}.

(** [a > num / den] as JavaScript evaluates it when [den] may be [0]:
    the quotient is then [Infinity], [NaN] or [-Infinity] by the sign of
    [num]. *)
Definition gtQuotient (a num den : Q) : bool :=
  if Qeq_bool den 0 then Qltb num 0 else Qltb (num / den) a.

Section Subdivision.

Variable Math_sqrt : Q -> Q.
Variable Math_pow : Q -> Q -> Q.
Variable Math_cos : Q -> Q.
Variable Math_sin : Q -> Q.
Variable Math_PI : Q.

(** The first loop of [createAlleys]: the start of the longest edge,
    [null] when no edge is longer than [-1]. *)
Definition longestEdge (p : Polygon.t) : option nat :=
  fst (fold_left
         (fun acc i =>
            let '(vertex, length) := acc in
            let '(p0, p1) := Polygon.edge p i in
            let len := Point.distance Math_sqrt p0 p1 in
            if Qltb length len then (Some i, len) else (vertex, length))
         (seq 0 (length p)) (None, - (1))).

(** The loop [for (const half of halves)] of [createAlleys]; [recurse]
    is the recursive call [this.createAlleys(half, ..., halfSplit)]. *)
Fixpoint alleyHalves
         (recurse : Polygon.t -> bool -> Random.state -> outcome (list Polygon.t))
         (minSq sizeChaos emptyProb : Q)
         (halves buildings : list Polygon.t) (st : Random.state)
  : outcome (list Polygon.t) :=
  match halves with
  | [] => Ret buildings st
  | half :: halves' =>
      let '(f3, st3) := Random.float st in
      let sizeVariation := Math_pow 2 (4 * sizeChaos * (f3 - (1 # 2))) in
      if Qltb (Polygon.square half) (minSq * sizeVariation) then
        let '(empty, st4) := Random.bool emptyProb st3 in
        alleyHalves recurse minSq sizeChaos emptyProb halves'
                    (if empty then buildings else buildings ++ [half]) st4
      else
        let '(f4, st4) := Random.float st3 in
        let '(f5, st5) := Random.float st4 in
        let halfSplit := gtQuotient (Polygon.square half) minSq (f4 * f5) in
        match recurse half halfSplit st5 with
        | Ret subBuildings st6 =>
            alleyHalves recurse minSq sizeChaos emptyProb halves'
                        (buildings ++ subBuildings) st6
        | Raise e => Raise e
        | OutOfFuel => OutOfFuel
        end
  end.

(** [createAlleys(p, minSq, gridChaos, sizeChaos, emptyProb = 0.04,
    split = true)]; [fuel] bounds the depth of the recursion. *)
Fixpoint createAlleys (fuel : nat) (p : Polygon.t)
         (minSq gridChaos sizeChaos emptyProb : Q) (split : bool)
         (st : Random.state) : outcome (list Polygon.t) :=
  match fuel with
  | O => OutOfFuel
  | S fuel' =>
      match longestEdge p with
      | None => Ret [p] st
      | Some vertex =>
          let spread := (8 # 10) * gridChaos in
          let '(f1, st1) := Random.float st in
          let ratio := (1 - spread) / 2 + f1 * spread in
          let angleSpread :=
            Math_PI / 6 * gridChaos
            * (if Qltb (Polygon.square p) (minSq * 4) then 0 else 1) in
          let '(f2, st2) := Random.float st1 in
          let angle := (f2 - (1 # 2)) * angleSpread in
          let halves :=
            Cutter.bisect Math_cos Math_sin p vertex ratio angle
                          (if split then ALLEY else 0) in
          alleyHalves
            (fun half halfSplit st' =>
               createAlleys fuel' half minSq gridChaos sizeChaos emptyProb halfSplit st')
            minSq sizeChaos emptyProb halves [] st2
      end
  end.

(** [findLongestEdge(poly)]: [poly.min(v => -poly.vector(v).length())]. *)
Definition findLongestEdge (poly : Polygon.t) : option nat :=
  Polygon.minIndex poly
    (fun i => - Point.length Math_sqrt (Polygon.vector poly i)).

(** The loop [for (const half of halves)] of [slice]; [recurse] is the
    recursive call [slice(half, c1, c2)]. *)
Fixpoint sliceHalves
         (recurse : Polygon.t -> Random.state -> outcome (list Polygon.t))
         (minBlockSq fill : Q)
         (halves buildings : list Polygon.t) (st : Random.state)
  : outcome (list Polygon.t) :=
  match halves with
  | [] => Ret buildings st
  | half :: halves' =>
      let '(nrm, st2) := Random.normal st in
      let sizeVariation := Math_pow 2 (nrm * 2 - 1) in
      if Qltb (Polygon.square half) (minBlockSq * sizeVariation) then
        let '(keep, st3) := Random.bool fill st2 in
        sliceHalves recurse minBlockSq fill halves'
                    (if keep then buildings ++ [half] else buildings) st3
      else
        match recurse half st2 with
        | Ret sub st3 => sliceHalves recurse minBlockSq fill halves' (buildings ++ sub) st3
        | Raise e => Raise e
        | OutOfFuel => OutOfFuel
        end
  end.

(** The local function [slice] of [createOrthoBuilding]. *)
Fixpoint slice (fuel : nat) (minBlockSq fill : Q) (poly : Polygon.t)
         (c1 c2 : Point.t) (st : Random.state) : outcome (list Polygon.t) :=
  match fuel with
  | O => OutOfFuel
  | S fuel' =>
      match findLongestEdge poly with
      | None => Raise "Empty polygon"
      | Some i0 =>
          let v0 := Polygon.get poly i0 in
          let v1 := Polygon.get poly ((i0 + 1) mod length poly) in
          let v := Point.subtract v1 v0 in
          let '(f, st1) := Random.float st in
          let ratio := (4 # 10) + f * (2 # 10) in
          let p1 := GeomUtils.interpolate v0 v1 ratio in
          let c :=
            if Qltb (Qabs (GeomUtils.scalar (Point.x v) (Point.y v) (Point.x c1) (Point.y c1)))
                    (Qabs (GeomUtils.scalar (Point.x v) (Point.y v) (Point.x c2) (Point.y c2)))
            then c1 else c2 in
          let halves := Polygon.cut poly p1 (Point.add p1 c) 0 in
          sliceHalves (fun half st' => slice fuel' minBlockSq fill half c1 c2 st')
                      minBlockSq fill halves [] st1
      end
  end.

(** The loop [for (attempt = 0; attempt < maxAttempts; attempt++)]. *)
Fixpoint attempts (remaining fuel : nat) (minBlockSq fill : Q) (poly : Polygon.t)
         (c1 c2 : Point.t) (st : Random.state) : outcome (list Polygon.t) :=
  match remaining with
  | O => Ret [poly] st
  | S remaining' =>
      match slice fuel minBlockSq fill poly c1 c2 st with
      | Ret blocks st' =>
          match blocks with
          | [] => attempts remaining' fuel minBlockSq fill poly c1 c2 st'
          | _ :: _ => Ret blocks st'
          end
      | Raise e => Raise e
      | OutOfFuel => OutOfFuel
      end
  end.

(** [createOrthoBuilding(poly, minBlockSq, fill)]. *)
Definition createOrthoBuilding (fuel : nat) (poly : Polygon.t)
           (minBlockSq fill : Q) (st : Random.state) : outcome (list Polygon.t) :=
  if Qltb (Polygon.square poly) minBlockSq then Ret [poly] st
  else
    match findLongestEdge poly with
    | None => Raise "Empty polygon"
    | Some i0 =>
        let c1 := Polygon.vector poly i0 in
        let c2 := Point.rotate90 c1 in
        attempts 10 fuel minBlockSq fill poly c1 c2 st
    end.

End Subdivision.

End Ward.

(** ** Notions used to state and prove the properties of [Polygon.cut] *)

Module Shoelace.

(** One term of the shoelace sum. *)
Definition cr (a b : Point.t) : Q :=
  Point.x a * Point.y b - Point.x b * Point.y a.

(** The sum of the terms along the open path [a :: l]. *)
Fixpoint path (a : Point.t) (l : list Point.t) : Q :=
  match l with
  | [] => 0
  | b :: l' => cr a b + path b l'
  end.

(** The sum around the closed polygon [p]: twice its signed area. *)
Definition closed (p : Polygon.t) : Q :=
  match p with
  | [] => 0
  | a :: l => path a (l ++ [a])
  end.

(** Which side of the directed line [u -> v] the point [q] lies on:
    positive on the left. *)
Definition orient (u v q : Point.t) : Q :=
  GeomUtils.cross (Point.x v - Point.x u) (Point.y v - Point.y u)
                  (Point.x q - Point.x u) (Point.y q - Point.y u).

(** The terms [s * orient a b q] along the open path [a :: l]: the
    shoelace sum seen from [q]. *)
Fixpoint fan (s : Q) (q a : Point.t) (l : list Point.t) : Q :=
  match l with
  | [] => 0
  | b :: l' => s * orient a b q + fan s q b l'
  end.

(** [u -> v] is an edge of [p]. *)
Definition isEdge (p : Polygon.t) (u v : Point.t) : Prop :=
  exists i : nat, (i < length p)%nat /\ Polygon.edge p i = (u, v).

(** Every step of the path [a :: l] satisfies [E]. *)
Fixpoint chainIn (E : Point.t -> Point.t -> Prop) (a : Point.t) (l : list Point.t) : Prop :=
  match l with
  | [] => True
  | b :: l' => E a b /\ chainIn E b l'
  end.

(** The two halves [cut] builds from the split polygon and the two
    points on the cutting line. *)
Definition half1 (b0 : Point.t) (B' : list Point.t) (P1 P2 : Point.t) : Polygon.t :=
  P1 :: (b0 :: B') ++ [P2].

Definition half2 (a0 : Point.t) (A' C : list Point.t) (P1 P2 : Point.t) : Polygon.t :=
  P2 :: (C ++ a0 :: A') ++ [P1].

(** [q] lies on the line through [u] and [v], at parameter [r] from [u]. *)
Definition onLine (u v q : Point.t) (r : Q) : Prop :=
  Point.x q == Point.x u + (Point.x v - Point.x u) * r
  /\ Point.y q == Point.y u + (Point.y v - Point.y u) * r.

(** The cutting line through [p1] and [p2] meets edge [e] of [p], as the
    scan of [cut] tests it, at line parameter [r]. *)
Definition meets (p : Polygon.t) (p1 p2 : Point.t) (e : nat) (r : Q) : Prop :=
  exists tp : Point.t,
    GeomUtils.intersectLines
      (Point.x p1) (Point.y p1)
      (Point.x p2 - Point.x p1) (Point.y p2 - Point.y p1)
      (Point.x (fst (Polygon.edge p e))) (Point.y (fst (Polygon.edge p e)))
      (Point.x (snd (Polygon.edge p e)) - Point.x (fst (Polygon.edge p e)))
      (Point.y (snd (Polygon.edge p e)) - Point.y (fst (Polygon.edge p e)))
    = Some tp
    /\ 0 <= Point.y tp /\ Point.y tp <= 1 /\ r = Point.x tp.

(** Convexity as the claim about [cut] means it: with [s = 1], every
    vertex lies on the left of, or on, the line through every edge
    (counter-clockwise); with [s = -1], on the right (clockwise). *)
Definition convexSide (s : Q) (p : Polygon.t) : bool :=
  forallb
    (fun i =>
       forallb
         (fun w => Qle_bool 0 (s * orient (fst (Polygon.edge p i)) (snd (Polygon.edge p i)) w))
         p)
    (seq 0 (length p)).

Definition convex (p : Polygon.t) : bool :=
  convexSide 1 p || convexSide (- (1)) p.

End Shoelace.

(** ** Inputs used in the examples below *)

Module Inputs.

(** A world whose clock always shows [now]. *)
Definition worldAt (Town : Type) (now : Z) : Model.world Town :=
  Model.mkWorld Town 1%Z (fun _ => now) 0%nat None 0%Z 0%Z [].

(** The generator's state when the first attempt of a model seeded with
    [seed > 0] starts: three [Random.bool()] draws after the reset. *)
Definition stateAfterFlags (seed : Z) : Random.state :=
  snd (Random.bool (1 # 2) (snd (Random.bool (1 # 2) (snd (Random.bool (1 # 2) seed))))).

(** A [build()] that throws in the attempt seeded with 1 and otherwise
    returns a town that records the generator state it started from. *)
Definition flakyBuild (this : Model.t Z) (st : Random.state) : Model.completion Z :=
  if (st =? stateAfterFlags 1)%Z
  then Model.Throws "Bad citadel shape!" this st
  else Model.Returns
         (Model.mk Z (Model.nPatches Z this) (Model.plazaNeeded Z this)
                   (Model.citadelNeeded Z this) (Model.wallsNeeded Z this) st) st.

(** A [build()] that always returns. *)
Definition steadyBuild (this : Model.t Z) (st : Random.state) : Model.completion Z :=
  Model.Returns this st.

Definition blank : Model.t Z := Model.mk Z 0%Z false false false 0%Z.

(** A stand-in for [Math.sqrt] on the rationals, exact on the squares of
    integers. *)
Definition sqrtFloor (q : Q) : Q := inject_Z (Z.sqrt (Qfloor q)).

(** A city patch with corners at distance 5 and 13, and a field outside. *)
Definition twoPatches : list (Patch.t Point.t) :=
  [ Patch.mk [Point.mk 3 4; Point.mk 5 12; Point.mk 0 0] (Some Market) false true;
    Patch.mk [Point.mk 30 40; Point.mk 30 0; Point.mk 60 0] None false false ].

(** Two Voronoi regions around neighbouring seeds: both hold the triangles
    [tA] and [tB], whose circumcenters are the objects 4 and 5. *)
Definition sharedStore : Store.t :=
  {[ 0%nat := Point.mk 0 0; 1%nat := Point.mk 1 0; 2%nat := Point.mk 0 1;
     3%nat := Point.mk 1 1; 4%nat := Point.mk 5 5; 5%nat := Point.mk 7 7 ]}.
Definition tA : Patch.Triangle := Patch.mkTriangle 0%nat 1%nat 2%nat 4%nat.
Definition tB : Patch.Triangle := Patch.mkTriangle 1%nat 2%nat 3%nat 5%nat.
Definition regionA : Patch.Region := Patch.mkRegion 1%nat [tA; tB].
Definition regionB : Patch.Region := Patch.mkRegion 2%nat [tB; tA].

(** Three nodes: a direct link 0 - 2 of weight 10 and a detour 0 - 1 - 2
    of weight 1 + 1. *)
Definition triangle : Graph.t :=
  Graph.link 1%nat 2%nat 1 true
    (Graph.link 0%nat 1%nat 1 true
       (Graph.link 0%nat 2%nat 10 true ∅)).

(** The same three nodes and links, every link of weight 7. *)
Definition flatTriangle : Graph.t :=
  Graph.link 1%nat 2%nat 7 true
    (Graph.link 0%nat 1%nat 7 true
       (Graph.link 0%nat 2%nat 7 true ∅)).

(** The square with corners (0,0) and (2,2), counter-clockwise; its
    centroid is (1,1). *)
Definition square2 : Polygon.t :=
  [Point.mk 0 0; Point.mk 2 0; Point.mk 2 2; Point.mk 0 2].

(** Stand-ins for [Math.pow], [Math.cos] and [Math.sin]: the values at
    exponent 0 and at angle 0. *)
Definition powZero (b e : Q) : Q := 1.
Definition cosZero (a : Q) : Q := 1.
Definition sinZero (a : Q) : Q := 0.

End Inputs.

(** * Properties *)

(** ** Random *)

Lemma Random_next_valid st : Random.valid st -> Random.valid (snd (Random.next st)).
Proof.
  unfold Random.valid, Random.next; simpl; intros H.
  apply Z.rem_nonneg; unfold Random.g, Random.n; lia.
Qed.

Lemma Random_next_range st :
  Random.valid st -> (0 <= fst (Random.next st) < Random.n)%Z.
Proof.
  unfold Random.valid, Random.next; simpl; intros H.
  apply Z.rem_bound_pos; unfold Random.g, Random.n; lia.
Qed.

Lemma Random_float_range st :
  Random.valid st -> 0 <= fst (Random.float st) /\ fst (Random.float st) < 1.
Proof.
  intros H. unfold Random.float.
  pose proof (Random_next_range st H) as R.
  destruct (Random.next st) as [v st'] eqn:E. simpl in *.
  unfold Qdiv, Qmult, Qinv, Qle, Qlt, inject_Z, Random.n in *; simpl.
  lia.
Qed.

Lemma Random_float_valid st : Random.valid st -> Random.valid (snd (Random.float st)).
Proof.
  intros H. unfold Random.float. pose proof (Random_next_valid st H) as V.
  destruct (Random.next st); exact V.
Qed.

Lemma Random_floats_range k : forall st,
  Random.valid st -> Forall (fun q => 0 <= q /\ q < 1) (Random.floats k st).
Proof.
  induction k as [|k IH]; intros st H.
  - constructor.
  - pose proof (Random_float_range st H) as R.
    pose proof (Random_float_valid st H) as V.
    change (Random.floats (S k) st)
      with (let '(f, st') := Random.float st in f :: Random.floats k st').
    destruct (Random.float st) as [f st']. constructor; [exact R | apply IH; exact V].
Qed.

Lemma Random_reset_explicit seed now : seed <> (-1)%Z -> Random.reset seed now = seed.
Proof.
  intros H. unfold Random.reset.
  destruct (Z.eqb_spec seed (-1)); [contradiction | reflexivity].
Qed.




(** ** CurtainWall: the gate is not drawn uniformly *)

Lemma Random_int_below (max : Z) st :
  Random.valid st -> (1 <= max)%Z ->
  (0 <= fst (Random.int 0 max st) < max)%Z.
Proof.
  intros Hv Hm. unfold Random.int.
  pose proof (Random_next_range st Hv) as R.
  destruct (Random.next st) as [v st'] eqn:E. cbn [fst] in *.
  set (q := inject_Z 0 + inject_Z v / inject_Z Random.n * inject_Z (max - 0)).
  assert (Hq : 0 <= q /\ q < inject_Z max).
  { unfold q. rewrite Z.sub_0_r.
    assert (Hn : 0 < inject_Z Random.n) by (unfold Random.n; reflexivity).
    assert (Hv0 : 0 <= inject_Z v) by (rewrite <- (Zle_Qle 0); lia).
    assert (Hvn : inject_Z v < inject_Z Random.n) by (rewrite <- Zlt_Qlt; lia).
    assert (Hmx : 0 < inject_Z max) by (rewrite <- (Zlt_Qlt 0); lia).
    assert (Hf0 : 0 <= inject_Z v / inject_Z Random.n).
    { apply Qle_shift_div_l; [exact Hn | lra]. }
    assert (Hf1 : inject_Z v / inject_Z Random.n < 1).
    { apply Qlt_shift_div_r; [exact Hn | lra]. }
    change (inject_Z 0) with 0.
    split; nra. }
  destruct Hq as [Hq0 Hq1]. split.
  - change (Qfloor 0 <= Qfloor q)%Z. apply Qfloor_resp_le. exact Hq0.
  - rewrite Zlt_Qlt. apply Qle_lt_trans with q; [apply Qfloor_le | exact Hq1].
Qed.

(** C10 (the code at its failing inputs): with two or more candidates the
    index [buildGates] draws is never that of the last one, whatever the
    generator's state, so the candidates are not equally likely. *)
Theorem CurtainWall_pickIndex_never_last :
  forall (V : Type) (entrances : list V) (st : Random.state),
    Random.valid st ->
    (2 <= length entrances)%nat ->
    (0 <= fst (CurtainWall.pickIndex entrances st) < Z.of_nat (length entrances) - 1)%Z.
Proof.
  intros V entrances st Hv Hlen. unfold CurtainWall.pickIndex.
  apply Random_int_below; [exact Hv | lia].
Qed.

Lemma CurtainWall_pickIndex_never_last_witness :
  Random.valid 42%Z /\ (2 <= length [10; 20; 30]%Z)%nat /\
  (0 <= fst (CurtainWall.pickIndex [10; 20; 30]%Z 42%Z)
   < Z.of_nat (length [10; 20; 30]%Z) - 1)%Z.
Proof.
  assert (Hv : Random.valid 42%Z) by (unfold Random.valid; lia).
  assert (Hl : (2 <= length [10; 20; 30]%Z)%nat) by (simpl; lia).
  split; [exact Hv | split; [exact Hl |]].
  exact (CurtainWall_pickIndex_never_last Z [10; 20; 30]%Z 42%Z Hv Hl).
Defined.

(** With exactly two candidates the first one is the only gate, for every
    state of the generator. *)
Lemma CurtainWall_two_candidates (V : Type) (a b : V) (st : Random.state) :
  Random.valid st ->
  exists st', CurtainWall.placeGates 2 [a; b] [] st = Some ([a], st').
Proof.
  intros Hv.
  pose proof (Random_int_below 1 st Hv ltac:(lia)) as Hidx.
  cbn [CurtainWall.placeGates]. unfold CurtainWall.pickIndex.
  change (Z.of_nat (length [a; b]) - 1)%Z with 1%Z.
  destruct (Random.int 0 1 st) as [index st'] eqn:E. cbn [fst] in Hidx.
  assert (index = 0%Z) by lia. subst index.
  exists st'. reflexivity.
Qed.

(** ** Model.initSync: the bounded retry loop *)

Section InitSyncFacts.

Variable Town : Type.
Variable build : Model.t Town -> Random.state -> Model.completion Town.

Local Abbreviation attempt := (Model.attempt Town build).
Local Abbreviation initSync := (Model.initSync Town build).
Local Abbreviation configure := (Model.configure Town).

(** What one run of the loop leaves behind, by induction on the attempts
    that remain: the errors logged, one clock reading per error, and the
    object published only by the attempt that returned. *)
Lemma Model_attempt_spec : forall remaining this w,
  exists errs : list string,
    Model.console Town (snd (attempt remaining this w))
      = (Model.console Town w ++ errs)%list
    /\ Model.ticks Town (snd (attempt remaining this w))
      = (Model.ticks Town w + length errs)%nat
    /\ Model.clock Town (snd (attempt remaining this w)) = Model.clock Town w
    /\ match fst (attempt remaining this w) with
       | Some m =>
           (length errs < remaining)%nat
           /\ Model.instance Town (snd (attempt remaining this w)) = Some m
           /\ exists this_k st,
                build this_k st = Model.Returns m (Model.rng Town (snd (attempt remaining this w)))
                /\ (errs = [] -> this_k = this /\ st = Model.rng Town w)
                /\ (errs <> [] ->
                    st = Random.reset (-1)
                           (Model.clock Town w (Model.ticks Town w + length errs - 1)%nat))
       | None =>
           length errs = remaining
           /\ Model.instance Town (snd (attempt remaining this w)) = Model.instance Town w
       end.
Proof.
  induction remaining as [|k IH]; intros this w.
  - exists []. cbn. rewrite app_nil_r, Nat.add_0_r. auto.
  - cbn [Model.attempt].
    destruct (build this (Model.rng Town w)) as [this' st | e this' st] eqn:B.
    + exists []. cbn. rewrite app_nil_r, Nat.add_0_r.
      split; [reflexivity | split; [reflexivity | split; [reflexivity |]]].
      split; [lia | split; [reflexivity |]].
      exists this, (Model.rng Town w).
      split; [exact B | split; [auto | congruence]].
    + set (w1 := Model.reseed Town _).
      destruct (IH this' w1) as (errs & Hc & Ht & Hk & Hr).
      exists (e :: errs).
      assert (Hc1 : Model.console Town w1 = (Model.console Town w ++ [e])%list) by reflexivity.
      assert (Ht1 : Model.ticks Town w1 = S (Model.ticks Town w)) by reflexivity.
      assert (Hk1 : Model.clock Town w1 = Model.clock Town w) by reflexivity.
      assert (Hi1 : Model.instance Town w1 = Model.instance Town w) by reflexivity.
      assert (Hr1 : Model.rng Town w1
                    = Random.reset (-1) (Model.clock Town w (Model.ticks Town w)))
        by reflexivity.
      rewrite Hc, Ht, Hk, Hc1, Ht1, Hk1. cbn [length].
      rewrite <- app_assoc. cbn [app].
      split; [reflexivity | split; [lia | split; [reflexivity |]]].
      destruct (fst (attempt k this' w1)) as [m|].
      * destruct Hr as (Hlen & Hinst & this_k & st0 & Hb & Hnil & Hcons).
        split; [lia | split; [exact Hinst |]].
        exists this_k, st0. split; [exact Hb | split; [discriminate |]].
        intros _. destruct errs as [|e' errs'].
        -- destruct (Hnil eq_refl) as [_ ->]. rewrite Hr1. f_equal. f_equal. cbn. lia.
        -- rewrite Hcons by discriminate. rewrite Hk1, Ht1. f_equal. f_equal. cbn. lia.
      * destruct Hr as (Hlen & Hinst). split; [lia | congruence].
Qed.


End InitSyncFacts.

(** ** Model.initSync: determinism *)

Section InitSyncDeterminism.

Variable Town : Type.
Variable build : Model.t Town -> Random.state -> Model.completion Town.

Local Abbreviation initSync := (Model.initSync Town build).
Local Abbreviation configure := (Model.configure Town).

Lemma Model_configure_seeded (this : Model.t Town) (nPatches seed : Z)
      (w1 w2 : Model.world Town) :
  (0 < seed)%Z ->
  fst (configure this nPatches seed w1) = fst (configure this nPatches seed w2)
  /\ Model.rng Town (snd (configure this nPatches seed w1))
     = Model.rng Town (snd (configure this nPatches seed w2)).
Proof.
  intros Hs. unfold Model.configure.
  destruct (Z.ltb_spec 0 seed) as [_|]; [| lia].
  cbn [Model.rng].
  destruct (Random.bool (1 # 2) (Random.reset seed 0)) as [b1 s1].
  destruct (Random.bool (1 # 2) s1) as [b2 s2].
  destruct (Random.bool (1 # 2) s2) as [b3 s3].
  split; reflexivity.
Qed.


End InitSyncDeterminism.



(** ** Model.createWards: the city radius *)

Section RadiusFacts.

Variable Math_sqrt : Q -> Q.
Variable Math_PI : Q.

Local Abbreviation len := (Point.length Math_sqrt).
Local Abbreviation widen := (CreateWards.widen Math_sqrt).
Local Abbreviation cityRadiusLoop := (CreateWards.cityRadiusLoop Math_sqrt Math_PI).

Lemma CreateWards_widen_spec : forall shape r,
  r <= widen r shape
  /\ (forall v, In v shape -> len v <= widen r shape)
  /\ (widen r shape == r \/ exists v, In v shape /\ widen r shape == len v).
Proof.
  induction shape as [|a shape IH]; intros r; cbn [CreateWards.widen fold_left].
  - split; [lra | split; [intros v [] | left; reflexivity]].
  - destruct (IH (Qmax r (len a))) as (H1 & H2 & H3).
    fold (widen (Qmax r (len a)) shape) in *.
    pose proof (Q.le_max_l r (len a)) as Ml.
    pose proof (Q.le_max_r r (len a)) as Mr.
    split; [lra | split].
    + intros v [<- | Hin]; [lra | apply H2; exact Hin].
    + destruct H3 as [H3 | (v & Hin & Hv)].
      * destruct (Q.max_spec r (len a)) as [[_ E] | [_ E]].
        -- right. exists a. split; [left; reflexivity | rewrite H3, E; reflexivity].
        -- left. rewrite H3, E. reflexivity.
      * right. exists v. split; [right; exact Hin | exact Hv].
Qed.

(** The loop keeps every shape and flag and only fills in wards; its
    radius is an upper bound that is attained unless it is the start
    value. *)
Lemma CreateWards_loop_spec : forall patches r0 st,
  let ps := fst (fst (cityRadiusLoop patches r0 st)) in
  let r := snd (fst (cityRadiusLoop patches r0 st)) in
  map Patch.shape ps = map Patch.shape patches
  /\ map Patch.withinCity ps = map Patch.withinCity patches
  /\ r0 <= r
  /\ (forall patch v, In patch ps -> Patch.withinCity patch = true ->
                      In v (Patch.shape patch) -> len v <= r)
  /\ (r == r0
      \/ exists patch v, In patch ps /\ Patch.withinCity patch = true
                         /\ In v (Patch.shape patch) /\ r == len v).
Proof.
  induction patches as [|patch rest IH]; intros r0 st.
  - cbn. split; [reflexivity | split; [reflexivity | split; [lra | split]]].
    + intros ? ? [].
    + left; reflexivity.
  - cbn [CreateWards.cityRadiusLoop].
    destruct (Patch.withinCity patch) eqn:Ecity.
    + specialize (IH (widen r0 (Patch.shape patch)) st).
      destruct (cityRadiusLoop rest (widen r0 (Patch.shape patch)) st) as [[ps r] st'].
      cbn [fst snd] in *. destruct IH as (Hs & Hc & H0 & Hub & Hat).
      destruct (CreateWards_widen_spec (Patch.shape patch) r0) as (W0 & Wub & Wat).
      split; [cbn; f_equal; exact Hs | split; [cbn; f_equal; exact Hc |]].
      split; [lra | split].
      * intros p v [<- | Hin] Hw Hv.
        -- specialize (Wub v Hv). lra.
        -- apply (Hub p v Hin Hw Hv).
      * destruct Hat as [Hat | (p & v & Hin & Hw & Hv & E)].
        -- destruct Wat as [Wat | (v & Hv & E)].
           ++ left. rewrite Hat, Wat. reflexivity.
           ++ right. exists patch, v.
              split; [left; reflexivity | split; [exact Ecity | split; [exact Hv |]]].
              rewrite Hat, E. reflexivity.
        -- right. exists p, v. split; [right; exact Hin | auto].
    + assert (Hskip : forall patch' st1,
                Patch.shape patch' = Patch.shape patch ->
                Patch.withinCity patch' = false ->
                let ps := fst (fst (cityRadiusLoop rest r0 st1)) in
                let r := snd (fst (cityRadiusLoop rest r0 st1)) in
                map Patch.shape (patch' :: ps) = map Patch.shape (patch :: rest)
                /\ map Patch.withinCity (patch' :: ps) = map Patch.withinCity (patch :: rest)
                /\ r0 <= r
                /\ (forall p v, In p (patch' :: ps) -> Patch.withinCity p = true ->
                                In v (Patch.shape p) -> len v <= r)
                /\ (r == r0
                    \/ exists p v, In p (patch' :: ps) /\ Patch.withinCity p = true
                                   /\ In v (Patch.shape p) /\ r == len v)).
      { intros patch' st1 Hshape Hout. specialize (IH r0 st1).
        destruct (cityRadiusLoop rest r0 st1) as [[ps r] st'].
        cbn [fst snd] in *. destruct IH as (Hs & Hc & H0 & Hub & Hat).
        split; [cbn; rewrite Hshape; f_equal; exact Hs |].
        split; [cbn; rewrite Hout, Ecity; f_equal; exact Hc |].
        split; [exact H0 | split].
        - intros p v [<- | Hin] Hw Hv; [congruence | apply (Hub p v Hin Hw Hv)].
        - destruct Hat as [Hat | (p & v & Hin & Hw & Hv & E)]; [left; exact Hat |].
          right. exists p, v. split; [right; exact Hin | auto]. }
      destruct (Patch.ward patch) as [k|] eqn:Eward.
      * specialize (Hskip patch st eq_refl Ecity).
        destruct (cityRadiusLoop rest r0 st) as [[ps r] st'].
        exact Hskip.
      * destruct (Random.bool (1 # 5) st) as [b st1].
        match goal with
        | |- context [Patch.mk ?s ?w ?ww ?wc] =>
            specialize (Hskip (Patch.mk s w ww wc) st1 eq_refl
                              ltac:(cbn; first [reflexivity | exact Ecity]))
        end.
        destruct (cityRadiusLoop rest r0 st1) as [[ps r] st'].
        exact Hskip.
Qed.

Lemma CreateWards_vertex_or_none (ps : list (Patch.t Point.t)) :
  (exists patch v, In patch ps /\ Patch.withinCity patch = true /\ In v (Patch.shape patch))
  \/ (forall patch, In patch ps -> Patch.withinCity patch = true -> Patch.shape patch = []).
Proof.
  induction ps as [|p ps IH].
  - right. intros ? [].
  - destruct IH as [(q & v & Hin & Hw & Hv) | Hnone].
    + left. exists q, v. split; [right; exact Hin | auto].
    + destruct (Patch.withinCity p) eqn:Ew.
      * destruct (Patch.shape p) as [|v s] eqn:Es.
        -- right. intros q [<- | Hin] Hq; [exact Es | apply Hnone; assumption].
        -- left. exists p, v. split; [left; reflexivity | split; [exact Ew |]].
           rewrite Es. left; reflexivity.
      * right. intros q [<- | Hin] Hq; [congruence | apply Hnone; assumption].
Qed.

(** C5: after the last loop of [createWards], [cityRadius] is the
    greatest distance from the origin over the vertices of the patches
    with [withinCity = true]: an upper bound of all of them that one of
    them attains ([0] when there is no such vertex).  The loop changes no
    shape and no [withinCity] flag. *)
Theorem CreateWards_cityRadius_is_max_distance :
  forall (patches : list (Patch.t Point.t)) (st : Random.state),
    (forall q, 0 <= Math_sqrt q) ->
    let R := CreateWards.cityRadius Math_sqrt Math_PI patches st in
    let ps := CreateWards.patchesAfter Math_sqrt Math_PI patches st in
    map Patch.shape ps = map Patch.shape patches
    /\ map Patch.withinCity ps = map Patch.withinCity patches
    /\ (forall patch v, In patch ps -> Patch.withinCity patch = true ->
                        In v (Patch.shape patch) -> len v <= R)
    /\ ((exists patch v, In patch ps /\ Patch.withinCity patch = true
                         /\ In v (Patch.shape patch) /\ R == len v)
        \/ (R == 0 /\ forall patch, In patch ps -> Patch.withinCity patch = true ->
                                    Patch.shape patch = [])).
Proof.
  intros patches st Hsqrt R ps.
  destruct (CreateWards_loop_spec patches 0 st) as (Hs & Hc & H0 & Hub & Hat).
  fold ps in Hs, Hc, Hub, Hat.
  change (snd (fst (cityRadiusLoop patches 0 st))) with R in H0, Hub, Hat.
  split; [exact Hs | split; [exact Hc | split; [exact Hub |]]].
  destruct Hat as [Hat | Hat]; [| left; exact Hat].
  destruct (CreateWards_vertex_or_none ps) as [(p & v & Hin & Hw & Hv) | Hnone].
  - left. exists p, v. split; [exact Hin | split; [exact Hw | split; [exact Hv |]]].
    specialize (Hub p v Hin Hw Hv).
    assert (0 <= len v) by apply Hsqrt.
    lra.
  - right. split; [exact Hat | exact Hnone].
Qed.

End RadiusFacts.

Lemma CreateWards_cityRadius_witness :
  (forall q, 0 <= Inputs.sqrtFloor q)
  /\ (forall patch v,
        In patch (CreateWards.patchesAfter Inputs.sqrtFloor 3 Inputs.twoPatches 42%Z) ->
        Patch.withinCity patch = true -> In v (Patch.shape patch) ->
        Point.length Inputs.sqrtFloor v
        <= CreateWards.cityRadius Inputs.sqrtFloor 3 Inputs.twoPatches 42%Z)
  /\ CreateWards.cityRadius Inputs.sqrtFloor 3 Inputs.twoPatches 42%Z == 13.
Proof.
  assert (H : forall q, 0 <= Inputs.sqrtFloor q).
  { intros q. unfold Inputs.sqrtFloor. rewrite <- (Zle_Qle 0). apply Z.sqrt_nonneg. }
  split; [exact H | split; [| vm_compute; reflexivity]].
  exact (proj1 (proj2 (proj2
    (CreateWards_cityRadius_is_max_distance Inputs.sqrtFloor 3 Inputs.twoPatches 42%Z H)))).
Defined.

(** ** Patch: vertices are copied, not shared *)

Lemma Store_alloc_fresh (p : Point.t) (h : Store.t) :
(fst (Store.alloc p h) ∉ dom h)
  /\ dom (snd (Store.alloc p h)) = {[fst (Store.alloc p h)]} ∪ dom h.
Proof.
  unfold Store.alloc; cbn [fst snd]. split.
  - apply is_fresh.
  - apply dom_insert_L.
Qed.

Lemma Store_Polygon_new_fresh : forall (vs : list Store.ref) (h : Store.t),
  dom h ⊆ dom (snd (Store.Polygon_new vs h))
  /\ Forall (fun r => (r ∉ dom h) /\ (r ∈ dom (snd (Store.Polygon_new vs h))))
            (fst (Store.Polygon_new vs h)).
Proof.
  induction vs as [|v vs IH]; intros h; cbn [Store.Polygon_new].
  - split; [set_solver | constructor].
  - unfold Store.clone.
    pose proof (Store_alloc_fresh (Point.clone (Store.read h v)) h) as Hfresh.
    destruct (Store.alloc (Point.clone (Store.read h v)) h) as [r h1].
    cbn [fst snd] in Hfresh. destruct Hfresh as [Hf Hd].
    specialize (IH h1).
    destruct (Store.Polygon_new vs h1) as [rs h2]. cbn [fst snd] in *.
    destruct IH as [Hsub Hall]. rewrite Hd in Hsub, Hall. clear Hd.
    split; [set_solver |].
    constructor; [set_solver |].
    eapply Forall_impl; [exact Hall |].
    intros a [Ha1 Ha2]. cbn in *. set_solver.
Qed.

Lemma Store_contains_true (poly : list Store.ref) (v : Store.ref) :
  Store.contains poly v = true -> In v poly.
Proof.
  unfold Store.contains. rewrite existsb_exists.
  intros (x & Hin & Heq). apply Nat.eqb_eq in Heq. subst. exact Hin.
Qed.

(** The vertex objects of a new patch are new: none of them existed
    before, whatever objects the region's triangles hold. *)
Lemma Patch_fromRegion_fresh (r : Patch.Region) (h : Store.t) :
  dom h ⊆ dom (snd (Patch.fromRegion r h))
  /\ Forall (fun v => (v ∉ dom h) /\ (v ∈ dom (snd (Patch.fromRegion r h))))
            (Patch.shape (fst (Patch.fromRegion r h))).
Proof.
  unfold Patch.fromRegion, Patch.new.
  pose proof (Store_Polygon_new_fresh (map Patch.c (Patch.vertices r)) h) as H.
  destruct (Store.Polygon_new (map Patch.c (Patch.vertices r)) h) as [s h'].
  exact H.
Qed.

(** C2 (the code at its failing inputs): the patches made from any two
    regions, even regions with a triangle in common, have no vertex object
    in common: no vertex of the first patch is contained, by identity, in
    the shape of the second. *)
Theorem Patch_fromRegion_shares_no_vertex :
  forall (r1 r2 : Patch.Region) (h : Store.t),
    forallb
      (fun v => negb (Store.contains
                        (Patch.shape (fst (Patch.fromRegion r2 (snd (Patch.fromRegion r1 h))))) v))
      (Patch.shape (fst (Patch.fromRegion r1 h)))
    = true.
Proof.
  intros r1 r2 h. apply forallb_forall. intros v Hv.
  apply negb_true_iff. apply not_true_is_false. intros Hc.
  apply Store_contains_true in Hc.
  destruct (Patch_fromRegion_fresh r1 h) as [_ H1].
  destruct (Patch_fromRegion_fresh r2 (snd (Patch.fromRegion r1 h))) as [_ H2].
  rewrite Forall_forall in H1, H2.
  destruct (H1 v (proj2 (list_elem_of_In _ _) Hv)) as [_ Hin1].
  destruct (H2 v (proj2 (list_elem_of_In _ _) Hc)) as [Hout2 _].
  contradiction.
Qed.

Lemma Patch_fromRegions_fresh : forall (rs : list Patch.Region) (h : Store.t),
  dom h ⊆ dom (snd (Patch.fromRegions rs h))
  /\ Forall (fun p => Forall (fun v => (v ∉ dom h)
                                       /\ (v ∈ dom (snd (Patch.fromRegions rs h))))
                             (Patch.shape p))
            (fst (Patch.fromRegions rs h)).
Proof.
  induction rs as [|r rs IH]; intros h; cbn [Patch.fromRegions].
  - split; [set_solver | constructor].
  - pose proof (Patch_fromRegion_fresh r h) as Hr.
    destruct (Patch.fromRegion r h) as [p h1]. cbn [fst snd] in Hr.
    specialize (IH h1).
    destruct (Patch.fromRegions rs h1) as [ps h2]. cbn [fst snd] in *.
    destruct Hr as [Hsub1 Hp]. destruct IH as [Hsub2 Hps].
    split; [set_solver |]. constructor.
    + eapply Forall_impl; [exact Hp |]. intros v [Hv1 Hv2]. cbn. set_solver.
    + eapply Forall_impl; [exact Hps |]. intros q Hq. cbn in *.
      eapply Forall_impl; [exact Hq |]. intros v [Hv1 Hv2]. cbn. set_solver.
Qed.

(** No two of the patches [buildPatches] creates have a vertex object in
    common. *)
Lemma Patch_fromRegions_disjoint : forall (rs : list Patch.Region) (h : Store.t)
    (i j : nat) (pi pj : Patch.t Store.ref) (v : Store.ref),
  (i < j)%nat ->
  nth_error (fst (Patch.fromRegions rs h)) i = Some pi ->
  nth_error (fst (Patch.fromRegions rs h)) j = Some pj ->
  In v (Patch.shape pi) -> ~ In v (Patch.shape pj).
Proof.
  induction rs as [|r rs IH]; intros h i j pi pj v Hij Hi Hj Hvi Hvj.
  - destruct i; discriminate Hi.
  - cbn [Patch.fromRegions] in Hi, Hj.
    pose proof (Patch_fromRegion_fresh r h) as Hr.
    destruct (Patch.fromRegion r h) as [p h1]. cbn [fst snd] in Hr.
    pose proof (Patch_fromRegions_fresh rs h1) as Hrs.
    specialize (IH h1).
    destruct (Patch.fromRegions rs h1) as [ps h2]. cbn [fst snd] in *.
    destruct j as [|j]; [lia |]. cbn [nth_error] in Hj.
    destruct i as [|i].
    + cbn [nth_error] in Hi. injection Hi as <-.
      destruct Hr as [_ Hp]. destruct Hrs as [_ Hps].
      rewrite Forall_forall in Hp. rewrite Forall_forall in Hps.
      apply nth_error_In in Hj.
      specialize (Hps pj (proj2 (list_elem_of_In _ _) Hj)).
      rewrite Forall_forall in Hps.
      destruct (Hp v (proj2 (list_elem_of_In _ _) Hvi)) as [_ Hin].
      destruct (Hps v (proj2 (list_elem_of_In _ _) Hvj)) as [Hout _].
      contradiction.
    + cbn [nth_error] in Hi.
      apply (IH i j pi pj v ltac:(lia) Hi Hj Hvi Hvj).
Qed.

(** On two regions that share both their triangles, the two patches hold
    four different objects with pairwise equal coordinates, and
    [patchByVertex] finds each vertex in one patch only. *)
Example Patch_fromRegions_copies :
  let '(ps, h) := Patch.fromRegions [Inputs.regionA; Inputs.regionB] Inputs.sharedStore in
  map Patch.shape ps = [[6; 7]; [8; 9]]%nat
  /\ map (fun p => map (Store.read h) (Patch.shape p)) ps
     = [[Point.mk 5 5; Point.mk 7 7]; [Point.mk 7 7; Point.mk 5 5]]
  /\ map (fun v => length (Patch.patchByVertex ps v)) [6; 7; 8; 9]%nat = [1; 1; 1; 1]%nat.
Proof. vm_compute. repeat split; reflexivity. Qed.

(** ** Graph.aStar *)

(** Every score the search reads through [|| Infinity] is [Infinity] when
    it is the start node's [0]. *)
Lemma Graph_orInfinity_zero : Graph.orInfinity (Some (Graph.Fin 0)) = Graph.Infinity.
Proof. reflexivity. Qed.

(** *** The search never looks at the weights *)

Lemma Graph_relax_blind (current : Graph.Node) (s : Graph.search) (e : Graph.Node * Q) :
  Graph.blind s -> Graph.blind (Graph.relax current Graph.Infinity s e).
Proof.
  intros Hs. destruct e as [neighbor distance]. unfold Graph.relax.
  assert (Hrec : forall os,
             Graph.blind
               (Graph.mkSearch (Graph.closedSet s) os
                  (<[neighbor := current]> (Graph.cameFrom s))
                  (<[neighbor := Graph.plus Graph.Infinity distance]> (Graph.gScore s))
                  (<[neighbor := Graph.plus Graph.Infinity distance]> (Graph.fScore s)))).
  { intros os k. cbn [Graph.gScore Graph.fScore Graph.plus].
    destruct (decide (neighbor = k)) as [-> | Hne].
    - rewrite !lookup_insert_eq. split; reflexivity.
    - rewrite !lookup_insert_ne by exact Hne. apply Hs. }
  destruct (Graph.includes (Graph.closedSet s) neighbor); [exact Hs |].
  destruct (negb (Graph.includes (Graph.openSet s) neighbor)); [apply Hrec |].
  destruct (Graph.ge _ _); [exact Hs | apply Hrec].
Qed.

Lemma Graph_relax_fold_blind (current : Graph.Node) : forall (l : Graph.Links) (s : Graph.search),
  Graph.blind s -> Graph.blind (fold_left (Graph.relax current Graph.Infinity) l s).
Proof.
  induction l as [|e l IH]; intros s Hs; [exact Hs |].
  cbn [fold_left]. apply IH. apply Graph_relax_blind. exact Hs.
Qed.

(** With an infinite current score, relaxing along a link does not depend
    on the link's weight. *)
Lemma Graph_relax_fold_weights (current : Graph.Node) : forall (l l' : Graph.Links) (s : Graph.search),
  map fst l = map fst l' ->
  fold_left (Graph.relax current Graph.Infinity) l s
  = fold_left (Graph.relax current Graph.Infinity) l' s.
Proof.
  induction l as [|[n d] l IH]; intros [|[n' d'] l'] s Hm; try discriminate; [reflexivity |].
  cbn [map fst] in Hm. injection Hm as -> Hm.
  cbn [fold_left].
  replace (Graph.relax current Graph.Infinity s (n', d))
    with (Graph.relax current Graph.Infinity s (n', d')) by reflexivity.
  apply IH. exact Hm.
Qed.

Lemma Graph_loop_weights (g g' : Graph.t) (goal : Graph.Node) :
  (forall a, map fst (Graph.links g a) = map fst (Graph.links g' a)) ->
  forall fuel s, Graph.blind s -> Graph.loop fuel g goal s = Graph.loop fuel g' goal s.
Proof.
  intros Hsame. induction fuel as [|fuel IH]; intros s Hs.
  - destruct s as [cl [|first rest] cf gs fs]; reflexivity.
  - cbn [Graph.loop]. destruct (Graph.openSet s) as [|first rest] eqn:Eo; [reflexivity |].
    destruct (Graph.lowest (Graph.fScore s) first rest =? goal)%nat; [reflexivity |].
    cbn [Graph.gScore].
    destruct (Hs (Graph.lowest (Graph.fScore s) first rest)) as [-> _].
    rewrite (Graph_relax_fold_weights _ _ _ _ (Hsame _)).
    apply IH. apply Graph_relax_fold_blind.
    intros k. cbn [Graph.gScore Graph.fScore]. apply Hs.
Qed.

(** X12. The path [aStar] returns is the same for any two graphs with
    the same links, whatever their weights: no weight enters the result. *)
Lemma Graph_aStar_ignores_weights (g g' : Graph.t) (start goal : Graph.Node)
      (exclude : list Graph.Node) (fuel : nat) :
  (forall a, map fst (Graph.links g a) = map fst (Graph.links g' a)) ->
  Graph.aStar fuel g start goal exclude = Graph.aStar fuel g' start goal exclude.
Proof.
  intros Hsame. unfold Graph.aStar. apply Graph_loop_weights; [exact Hsame |].
  intros k. cbn [Graph.gScore Graph.fScore].
  destruct (decide (start = k)) as [-> | Hne].
  - rewrite lookup_singleton_eq. split; reflexivity.
  - rewrite lookup_singleton_ne by exact Hne. split; reflexivity.
Qed.

(** C9 (the code at its failing input): from node 0 to node 2 of the
    triangle, [aStar] returns the direct link of price 10 although the
    detour through node 1 costs 2. *)
Theorem Graph_aStar_returns_costlier_path :
  Graph.aStar 10 Inputs.triangle 0%nat 2%nat [] = Some (Some [0; 2]%nat)
  /\ Graph.calculatePrice Inputs.triangle [0; 2]%nat = Some 10
  /\ Graph.calculatePrice Inputs.triangle [0; 1; 2]%nat = Some 2.
Proof. vm_compute. repeat split; reflexivity. Qed.

(** ** Polygon.square is the shoelace sum *)

Lemma last_cons_default {A : Type} : forall (l : list A) (a b : A),
  List.last (b :: l) a = List.last l b.
Proof.
  induction l as [|c l IH]; intros a b; [reflexivity |].
  change (List.last (b :: c :: l) a) with (List.last (c :: l) a).
  rewrite (IH a c), (IH b c). reflexivity.
Qed.

Lemma Shoelace_path_app : forall l1 a l2,
  Shoelace.path a (l1 ++ l2) == Shoelace.path a l1 + Shoelace.path (List.last l1 a) l2.
Proof.
  induction l1 as [|b l1 IH]; intros a l2.
  - cbn [app Shoelace.path List.last]. ring.
  - change (Shoelace.path a ((b :: l1) ++ l2))
      with (Shoelace.cr a b + Shoelace.path b (l1 ++ l2)).
    change (Shoelace.path a (b :: l1)) with (Shoelace.cr a b + Shoelace.path b l1).
    rewrite IH.
    rewrite last_cons_default. ring.
Qed.

Lemma Shoelace_path_firstn_S : forall m a k,
  (k < length m)%nat ->
  Shoelace.path a (firstn (S k) m)
  == Shoelace.path a (firstn k m)
     + Shoelace.cr (nth k (a :: m) Point.origin) (nth k m Point.origin).
Proof.
  induction m as [|b m IH]; intros a k Hk; [cbn in Hk; lia |].
  destruct k as [|k].
  - cbn [firstn Shoelace.path nth]. rewrite firstn_O. cbn [Shoelace.path]. ring.
  - change (firstn (S (S k)) (b :: m)) with (b :: firstn (S k) m).
    change (firstn (S k) (b :: m)) with (b :: firstn k m).
    cbn [Shoelace.path]. rewrite IH by (cbn in Hk; lia).
    cbn [nth]. ring.
Qed.

Lemma Polygon_edge_nth (a : Point.t) (l : list Point.t) (k : nat) :
  (k < length (a :: l))%nat ->
  Polygon.edge (a :: l) k
  = (nth k (a :: l) Point.origin, nth k (l ++ [a]) Point.origin).
Proof.
  intros Hk. unfold Polygon.edge, Polygon.get. f_equal.
  cbn [length] in *.
  destruct (Nat.eq_dec (k + 1)%nat (S (length l))) as [E | NE].
  - rewrite E, Nat.Div0.mod_same.
    rewrite app_nth2 by lia.
    replace (k - length l)%nat with 0%nat by lia. reflexivity.
  - rewrite Nat.mod_small by lia.
    rewrite app_nth1 by lia.
    replace (k + 1)%nat with (S k) by lia. reflexivity.
Qed.

Lemma Polygon_shoelace_fold (p : Polygon.t) : forall k,
  (k <= length p)%nat ->
  fold_left
    (fun s i =>
       let '(v1, v2) := Polygon.edge p i in
       s + (Point.x v1 * Point.y v2 - Point.x v2 * Point.y v1))
    (seq 0 k) 0
  == match p with
     | [] => 0
     | a :: l => Shoelace.path a (firstn k (l ++ [a]))
     end.
Proof.
  destruct p as [|a l].
  - intros k Hk. cbn in Hk. replace k with 0%nat by lia. reflexivity.
  - induction k as [|k IH]; intros Hk.
    + reflexivity.
    + rewrite seq_S, fold_left_app. cbn [fold_left Nat.add].
      rewrite Polygon_edge_nth by lia.
      rewrite IH by lia.
      rewrite Shoelace_path_firstn_S by (rewrite length_app; cbn in *; lia).
      change (a :: l ++ [a]) with ((a :: l) ++ [a]).
      rewrite (app_nth1 (a :: l) [a]) by lia.
      reflexivity.
Qed.

Lemma Polygon_square_shoelace (p : Polygon.t) :
  Polygon.square p == Shoelace.closed p * (1 # 2).
Proof.
  unfold Polygon.square.
  destruct (Nat.ltb_spec (length p) 3) as [Hlt | Hge].
  - destruct p as [|a [|b [|c l]]]; cbn in Hlt; try lia;
      unfold Shoelace.closed; cbn [app Shoelace.path]; unfold Shoelace.cr; ring.
  - rewrite Polygon_shoelace_fold by lia.
    destruct p as [|a l]; [reflexivity |].
    unfold Shoelace.closed.
    rewrite firstn_all2 by (rewrite length_app; cbn; lia).
    reflexivity.
Qed.

(** ** GeomUtils.intersectLines and the scan of Polygon.cut *)

Lemma Qltb_false (a b : Q) : Qltb a b = false -> b <= a.
Proof.
  unfold Qltb. intros H. apply negb_false_iff in H. apply Qle_bool_iff. exact H.
Qed.

Lemma Qltb_true (a b : Q) : Qltb a b = true -> a < b.
Proof.
  unfold Qltb. intros H. apply negb_true_iff in H.
  apply Qnot_le_lt. intros Hle. apply Qle_bool_iff in Hle. congruence.
Qed.

(** The parameters returned put the same point on both lines. *)
Lemma GeomUtils_intersectLines_sound (x1 y1 dx1 dy1 x2 y2 dx2 dy2 : Q) (tp : Point.t) :
  GeomUtils.intersectLines x1 y1 dx1 dy1 x2 y2 dx2 dy2 = Some tp ->
  x1 + dx1 * Point.x tp == x2 + dx2 * Point.y tp
  /\ y1 + dy1 * Point.x tp == y2 + dy2 * Point.y tp.
Proof.
  unfold GeomUtils.intersectLines.
  destruct (Qltb (Qabs (dx1 * dy2 - dy1 * dx2)) (1 # 10000)) eqn:Ed; [discriminate |].
  apply Qltb_false in Ed.
  assert (Hd : ~ dx1 * dy2 - dy1 * dx2 == 0).
  { intros Hz. rewrite Hz in Ed. revert Ed. cbn. unfold Qle; cbn. lia. }
  destruct (Qeq_bool dx1 0) eqn:Ex; cbn [negb]; intros E; inversion E; subst tp; clear E;
    cbn [Point.x Point.y].
  - apply Qeq_bool_eq in Ex.
    assert (Hdy : ~ dy1 == 0).
    { intros Hz. apply Hd. rewrite Ex, Hz. ring. }
    assert (Hdx2 : ~ dx2 == 0).
    { intros Hz. apply Hd. rewrite Ex, Hz. ring. }
    assert (Hd' : ~ 0 * dy2 - dy1 * dx2 == 0).
    { intros Hz. apply Hd. rewrite Ex. exact Hz. }
    split.
    + rewrite Ex. field. auto.
    + field. auto.
  - apply Qeq_bool_neq in Ex.
    split; field; auto.
Qed.

(** What the scan has recorded after the edges [0 .. k-1]. *)
Lemma Polygon_scan_prefix (p : Polygon.t) (p1 p2 : Point.t) : forall k,
  let h := fold_left (Polygon.scan_step p p1 p2) (seq 0 k) (Polygon.mkHits 0 0 0 0 0) in
  match Polygon.count h with
  | O => True
  | S O =>
      (Polygon.edge1 h < k)%nat
      /\ Shoelace.meets p p1 p2 (Polygon.edge1 h) (Polygon.ratio1 h)
  | S (S _) =>
      (Polygon.edge1 h < Polygon.edge2 h)%nat /\ (Polygon.edge2 h < k)%nat
      /\ Shoelace.meets p p1 p2 (Polygon.edge1 h) (Polygon.ratio1 h)
      /\ Shoelace.meets p p1 p2 (Polygon.edge2 h) (Polygon.ratio2 h)
  end.
Proof.
  induction k as [|k IH]; [exact I |].
  rewrite seq_S, fold_left_app. cbn [fold_left Nat.add].
  set (h := fold_left (Polygon.scan_step p p1 p2) (seq 0 k) (Polygon.mkHits 0 0 0 0 0)) in *.
  cbv zeta in IH.
  unfold Polygon.scan_step.
  destruct (Polygon.edge p k) as [v0 v1] eqn:Ee.
  destruct (GeomUtils.intersectLines _ _ _ _ _ _ _ _) as [tp|] eqn:Ei.
  - destruct (Qle_bool 0 (Point.y tp)) eqn:E0; cbn [andb];
      [destruct (Qle_bool (Point.y tp) 1) eqn:E1 |].
    + assert (Hm : Shoelace.meets p p1 p2 k (Point.x tp)).
      { exists tp. rewrite Ee. cbn [fst snd].
        split; [exact Ei | split; [apply Qle_bool_iff; exact E0 |
                                    split; [apply Qle_bool_iff; exact E1 | reflexivity]]]. }
      destruct (Polygon.count h) as [|[|c]]; cbn [Polygon.count Polygon.edge1 Polygon.edge2
                                                     Polygon.ratio1 Polygon.ratio2].
      * split; [lia | exact Hm].
      * destruct IH as [Hlt Hm1]. split; [exact Hlt | split; [lia | split; [exact Hm1 | exact Hm]]].
      * destruct IH as (H12 & H2k & Hm1 & Hm2).
        split; [exact H12 | split; [lia | split; [exact Hm1 | exact Hm2]]].
    + destruct (Polygon.count h) as [|[|c]]; [exact I | |].
      * destruct IH as [Hlt Hm1]. split; [lia | exact Hm1].
      * destruct IH as (H12 & H2k & Hm1 & Hm2). split; [exact H12 | split; [lia | auto]].
    + destruct (Polygon.count h) as [|[|c]]; [exact I | |].
      * destruct IH as [Hlt Hm1]. split; [lia | exact Hm1].
      * destruct IH as (H12 & H2k & Hm1 & Hm2). split; [exact H12 | split; [lia | auto]].
  - destruct (Polygon.count h) as [|[|c]]; [exact I | |].
    + destruct IH as [Hlt Hm1]. split; [lia | exact Hm1].
    + destruct IH as (H12 & H2k & Hm1 & Hm2). split; [exact H12 | split; [lia | auto]].
Qed.

(** With exactly two hits, the two recorded edges are distinct edges of
    the polygon, in order, and both are met by the cutting line. *)
Lemma Polygon_scan_two (p : Polygon.t) (p1 p2 : Point.t) :
  Polygon.count (Polygon.scan p p1 p2) = 2%nat ->
  (Polygon.edge1 (Polygon.scan p p1 p2) < Polygon.edge2 (Polygon.scan p p1 p2))%nat
  /\ (Polygon.edge2 (Polygon.scan p p1 p2) < length p)%nat
  /\ Shoelace.meets p p1 p2 (Polygon.edge1 (Polygon.scan p p1 p2))
                    (Polygon.ratio1 (Polygon.scan p p1 p2))
  /\ Shoelace.meets p p1 p2 (Polygon.edge2 (Polygon.scan p p1 p2))
                    (Polygon.ratio2 (Polygon.scan p p1 p2)).
Proof.
  intros Hc. pose proof (Polygon_scan_prefix p p1 p2 (length p)) as H.
  cbv zeta in H. fold (Polygon.scan p p1 p2) in H. rewrite Hc in H. exact H.
Qed.

(** A point of the cutting line at a recorded parameter lies on the edge
    that was met, between its end points. *)
Lemma Shoelace_meets_onLine (p : Polygon.t) (p1 p2 : Point.t) (e : nat) (r : Q) :
  Shoelace.meets p p1 p2 e r ->
  exists t : Q,
    0 <= t /\ t <= 1
    /\ Shoelace.onLine (fst (Polygon.edge p e)) (snd (Polygon.edge p e))
         (Point.mk (Point.x p1 + (Point.x p2 - Point.x p1) * r)
                   (Point.y p1 + (Point.y p2 - Point.y p1) * r)) t.
Proof.
  intros (tp & Hi & H0 & H1 & ->).
  apply GeomUtils_intersectLines_sound in Hi. destruct Hi as [Hx Hy].
  exists (Point.y tp). split; [exact H0 | split; [exact H1 |]].
  unfold Shoelace.onLine. cbn [Point.x Point.y]. split; [exact Hx | exact Hy].
Qed.

(** ** The two halves of a cut *)

Lemma nth_length_cons {A : Type} : forall (l : list A) (a d : A),
  nth (length l) (a :: l) d = List.last l a.
Proof.
  induction l as [|b l IH]; intros a d; [reflexivity |].
  change (nth (length (b :: l)) (a :: b :: l) d) with (nth (length l) (b :: l) d).
  rewrite IH. symmetry. apply last_cons_default.
Qed.

(** The polygon split at two of its edges [e1 < e2]: the vertices up to
    [e1], those after [e1] up to [e2], and the rest, with the end points
    of both edges. *)
Lemma Polygon_split_at (p : Polygon.t) (e1 e2 : nat) :
  (e1 < e2)%nat -> (e2 < length p)%nat ->
  exists (a0 : Point.t) (A' : list Point.t) (b0 : Point.t) (B' C : list Point.t),
    Polygon.slice p 0 (e1 + 1) = a0 :: A'
    /\ Polygon.slice p (e1 + 1) (e2 + 1) = b0 :: B'
    /\ skipn (e2 + 1) p = C
    /\ p = (a0 :: A') ++ (b0 :: B') ++ C
    /\ Polygon.edge p e1 = (List.last A' a0, b0)
    /\ Polygon.edge p e2 = (List.last B' b0, hd a0 C).
Proof.
  intros H12 H2.
  unfold Polygon.slice. rewrite Nat.sub_0_r. change (skipn 0 p) with p.
  replace (e2 + 1 - (e1 + 1))%nat with (e2 - e1)%nat by lia.
  remember (firstn (e1 + 1) p) as A eqn:EA.
  remember (firstn (e2 - e1) (skipn (e1 + 1) p)) as B eqn:EB.
  remember (skipn (e2 + 1) p) as C eqn:EC.
  assert (HA : length A = (e1 + 1)%nat) by (subst A; rewrite length_firstn; lia).
  assert (HB : length B = (e2 - e1)%nat)
    by (subst B; rewrite length_firstn, length_skipn; lia).
  assert (HC : length C = (length p - (e2 + 1))%nat) by (subst C; apply length_skipn).
  assert (Hp : p = A ++ B ++ C).
  { subst A B C.
    replace (skipn (e2 + 1) p) with (skipn (e2 - e1) (skipn (e1 + 1) p))
      by (rewrite skipn_skipn; f_equal; lia).
    rewrite firstn_skipn, firstn_skipn. reflexivity. }
  clear EA EB EC.
  destruct A as [|a0 A']; [cbn in HA; lia |].
  destruct B as [|b0 B']; [cbn in HB; lia |].
  exists a0, A', b0, B', C.
  split; [reflexivity | split; [reflexivity | split; [reflexivity | split; [exact Hp |]]]].
  cbn [length] in HA, HB.
  assert (Hlen : length p = (S (length A') + (S (length B') + length C))%nat).
  { rewrite Hp at 1. rewrite !length_app. reflexivity. }
  unfold Polygon.edge, Polygon.get. split; f_equal.
  - rewrite Hp. rewrite app_nth1 by (cbn; lia).
    replace e1 with (length A') by lia. apply nth_length_cons.
  - rewrite Nat.mod_small by lia. rewrite Hp.
    rewrite app_nth2 by (cbn; lia).
    replace (e1 + 1 - length (a0 :: A'))%nat with 0%nat by (cbn; lia). reflexivity.
  - rewrite Hp. rewrite app_nth2 by (cbn; lia).
    rewrite app_nth1 by (cbn; lia).
    replace (e2 - length (a0 :: A'))%nat with (length B') by (cbn; lia).
    apply nth_length_cons.
  - destruct C as [|c0 C'].
    + replace (e2 + 1)%nat with (length p) by (cbn in Hlen; lia).
      rewrite Nat.Div0.mod_same. rewrite Hp. reflexivity.
    + rewrite Nat.mod_small by (cbn in Hlen; lia). rewrite Hp.
      rewrite app_nth2 by (cbn; lia). rewrite app_nth2 by (cbn; lia).
      replace (e2 + 1 - length (a0 :: A') - length (b0 :: B'))%nat with 0%nat by (cbn; lia).
      reflexivity.
Qed.

(** A point [q] on the line through [u] and [v] splits the term of the
    edge [u -> v] into the terms of [u -> q] and [q -> v]. *)
Lemma Shoelace_cr_split (u v q : Point.t) (t : Q) :
  Shoelace.onLine u v q t ->
  Shoelace.cr u q + Shoelace.cr q v == Shoelace.cr u v.
Proof.
  intros [Hx Hy]. unfold Shoelace.cr. rewrite Hx, Hy. ring.
Qed.

Lemma Shoelace_cr_antisym (u v : Point.t) : Shoelace.cr u v + Shoelace.cr v u == 0.
Proof. unfold Shoelace.cr. ring. Qed.

Lemma last_app_singleton {A : Type} (l : list A) (a d : A) : List.last (l ++ [a]) d = a.
Proof. apply last_last. Qed.

(** The shoelace sums of the two halves add up to the sum of the whole. *)
Lemma Shoelace_halves_add (a0 : Point.t) (A' : list Point.t) (b0 : Point.t)
      (B' C : list Point.t) (P1 P2 : Point.t) (t1 t2 : Q) :
  Shoelace.onLine (List.last A' a0) b0 P1 t1 ->
  Shoelace.onLine (List.last B' b0) (hd a0 C) P2 t2 ->
  Shoelace.closed (P1 :: (b0 :: B') ++ [P2])
  + Shoelace.closed (P2 :: (C ++ a0 :: A') ++ [P1])
  == Shoelace.closed ((a0 :: A') ++ (b0 :: B') ++ C).
Proof.
  intros H1 H2.
  pose proof (Shoelace_cr_split _ _ _ _ H1) as S1.
  pose proof (Shoelace_cr_split _ _ _ _ H2) as S2.
  pose proof (Shoelace_cr_antisym P1 P2) as S3.
  unfold Shoelace.closed. cbn [app].
  (* the whole *)
  assert (Ew : Shoelace.path a0 ((A' ++ b0 :: B' ++ C) ++ [a0])
               == Shoelace.path a0 A' + Shoelace.cr (List.last A' a0) b0
                  + Shoelace.path b0 B'
                  + Shoelace.path (List.last B' b0) (C ++ [a0])).
  { rewrite <- app_assoc. rewrite Shoelace_path_app.
    cbn [app Shoelace.path]. rewrite <- app_assoc. rewrite Shoelace_path_app. ring. }
  (* the first half *)
  assert (E1 : Shoelace.path P1 (b0 :: (B' ++ [P2]) ++ [P1])
               == Shoelace.cr P1 b0 + Shoelace.path b0 B'
                  + Shoelace.cr (List.last B' b0) P2 + Shoelace.cr P2 P1).
  { cbn [Shoelace.path]. rewrite <- app_assoc. rewrite Shoelace_path_app.
    cbn [app Shoelace.path]. ring. }
  (* the second half *)
  assert (E2 : Shoelace.path P2 (((C ++ a0 :: A') ++ [P1]) ++ [P2])
               == Shoelace.path P2 (C ++ [a0]) + Shoelace.path a0 A'
                  + Shoelace.cr (List.last A' a0) P1 + Shoelace.cr P1 P2).
  { replace (((C ++ a0 :: A') ++ [P1]) ++ [P2]) with ((C ++ [a0]) ++ A' ++ [P1; P2])
      by (rewrite <- !app_assoc; reflexivity).
    rewrite (Shoelace_path_app (C ++ [a0])), last_app_singleton.
    rewrite (Shoelace_path_app A' a0 [P1; P2]).
    cbn [Shoelace.path]. ring. }
  (* the edge leaving the second cut point *)
  assert (E3 : Shoelace.path P2 (C ++ [a0]) + Shoelace.cr (List.last B' b0) (hd a0 C)
               == Shoelace.path (List.last B' b0) (C ++ [a0]) + Shoelace.cr P2 (hd a0 C)).
  { destruct C as [|c0 C']; cbn [app hd Shoelace.path]; ring. }
  rewrite Ew, E1, E2. lra.
Qed.

(** The result of [cut] when the scan counted two hits: the polygon
    splits at the two edges met, each cut point lies on its edge between
    the end points, and the result is the two halves in one order or the
    other. *)
Lemma Polygon_cut_two (p : Polygon.t) (p1 p2 : Point.t) (gap : Q) :
  Polygon.count (Polygon.scan p p1 p2) = 2%nat ->
  exists (a0 : Point.t) (A' : list Point.t) (b0 : Point.t) (B' C : list Point.t)
         (P1 P2 : Point.t) (t1 t2 : Q),
    p = (a0 :: A') ++ (b0 :: B') ++ C
    /\ (0 <= t1 /\ t1 <= 1) /\ (0 <= t2 /\ t2 <= 1)
    /\ Shoelace.onLine (List.last A' a0) b0 P1 t1
    /\ Shoelace.onLine (List.last B' b0) (hd a0 C) P2 t2
    /\ (Polygon.cut p p1 p2 gap
          = [Shoelace.half1 b0 B' P1 P2; Shoelace.half2 a0 A' C P1 P2]
        \/ Polygon.cut p p1 p2 gap
          = [Shoelace.half2 a0 A' C P1 P2; Shoelace.half1 b0 B' P1 P2]).
Proof.
  intros Hc.
  destruct (Polygon_scan_two p p1 p2 Hc) as (H12 & H2 & M1 & M2).
  destruct (Polygon_split_at p _ _ H12 H2)
    as (a0 & A' & b0 & B' & C & EA & EB & EC & Hp & Ee1 & Ee2).
  destruct (Shoelace_meets_onLine _ _ _ _ _ M1) as (t1 & H10 & H11 & L1).
  destruct (Shoelace_meets_onLine _ _ _ _ _ M2) as (t2 & H20 & H21 & L2).
  rewrite Ee1 in L1. rewrite Ee2 in L2. cbn [fst snd] in L1, L2.
  eexists a0, A', b0, B', C, _, _, t1, t2.
  split; [exact Hp |].
  split; [split; assumption |]. split; [split; assumption |].
  split; [exact L1 |]. split; [exact L2 |].
  unfold Polygon.cut. rewrite Hc. cbn [Nat.eqb].
  rewrite EA, EB, EC. unfold Shoelace.half1, Shoelace.half2.
  destruct (Qltb 0 _); [left | right]; reflexivity.
Qed.

(** When the scan does not count two hits, [cut] returns the polygon. *)
Lemma Polygon_cut_other (p : Polygon.t) (p1 p2 : Point.t) (gap : Q) :
  Polygon.count (Polygon.scan p p1 p2) <> 2%nat ->
  Polygon.cut p p1 p2 gap = [p].
Proof.
  intros Hc. unfold Polygon.cut.
  destruct (Nat.eqb_spec (Polygon.count (Polygon.scan p p1 p2)) 2%nat); [contradiction | reflexivity].
Qed.

(** The signed areas of the pieces [cut] returns add up to the signed
    area of the polygon, for every polygon and every cutting line. *)
Lemma Polygon_cut_signed_areas (p : Polygon.t) (p1 p2 : Point.t) (gap : Q) :
  fold_right (fun h s => Polygon.square h + s) 0 (Polygon.cut p p1 p2 gap)
  == Polygon.square p.
Proof.
  destruct (Nat.eq_dec (Polygon.count (Polygon.scan p p1 p2)) 2%nat) as [Hc | Hc].
  - destruct (Polygon_cut_two p p1 p2 gap Hc)
      as (a0 & A' & b0 & B' & C & P1 & P2 & t1 & t2 & Hp & _ & _ & L1 & L2 & Hcut).
    pose proof (Shoelace_halves_add a0 A' b0 B' C P1 P2 t1 t2 L1 L2) as Hadd.
    fold (Shoelace.half1 b0 B' P1 P2) in Hadd.
    fold (Shoelace.half2 a0 A' C P1 P2) in Hadd.
    rewrite <- Hp in Hadd.
    destruct Hcut as [-> | ->]; cbn [fold_right];
      rewrite !Polygon_square_shoelace; lra.
  - rewrite (Polygon_cut_other p p1 p2 gap Hc). cbn [fold_right]. ring.
Qed.

(** ** The halves of a convex polygon keep its orientation *)

Lemma Shoelace_cr_orient (u v q : Point.t) :
  Shoelace.cr u v == Shoelace.orient u v q + Shoelace.cr q v - Shoelace.cr q u.
Proof. unfold Shoelace.cr, Shoelace.orient, GeomUtils.cross. ring. Qed.

Lemma Shoelace_path_fan (s : Q) (q : Point.t) : forall l a,
  s * Shoelace.path a l
  == Shoelace.fan s q a l + s * (Shoelace.cr q (List.last l a) - Shoelace.cr q a).
Proof.
  induction l as [|b l IH]; intros a.
  - cbn [Shoelace.path Shoelace.fan List.last]. ring.
  - rewrite last_cons_default. cbn [Shoelace.path Shoelace.fan].
    rewrite Qmult_plus_distr_r, IH, (Shoelace_cr_orient a b q). ring.
Qed.

Lemma Shoelace_closed_fan (s : Q) (q a : Point.t) (l : list Point.t) :
  s * Shoelace.closed (a :: l) == Shoelace.fan s q a (l ++ [a]).
Proof.
  unfold Shoelace.closed. rewrite (Shoelace_path_fan s q), last_app_singleton. ring.
Qed.

Lemma Shoelace_fan_app (s : Q) (q : Point.t) : forall l1 a l2,
  Shoelace.fan s q a (l1 ++ l2)
  == Shoelace.fan s q a l1 + Shoelace.fan s q (List.last l1 a) l2.
Proof.
  induction l1 as [|b l1 IH]; intros a l2.
  - cbn [app Shoelace.fan List.last]. ring.
  - rewrite last_cons_default. cbn [app Shoelace.fan]. rewrite IH. ring.
Qed.

Lemma Shoelace_chainIn_app (E : Point.t -> Point.t -> Prop) : forall l1 a l2,
  Shoelace.chainIn E a (l1 ++ l2) ->
  Shoelace.chainIn E a l1 /\ Shoelace.chainIn E (List.last l1 a) l2.
Proof.
  induction l1 as [|b l1 IH]; intros a l2 H.
  - split; [exact I | exact H].
  - rewrite last_cons_default. cbn [app Shoelace.chainIn] in *.
    destruct H as [Hab H]. destruct (IH b l2 H) as [H1 H2]. auto.
Qed.

Lemma Shoelace_fan_nonneg (E : Point.t -> Point.t -> Prop) (s : Q) (q : Point.t) :
  (forall u v, E u v -> 0 <= s * Shoelace.orient u v q) ->
  forall l a, Shoelace.chainIn E a l -> 0 <= Shoelace.fan s q a l.
Proof.
  intros HE. induction l as [|b l IH]; intros a H; cbn [Shoelace.fan].
  - lra.
  - destruct H as [Hab H]. specialize (IH b H). specialize (HE a b Hab). lra.
Qed.

(** Going once around a polygon, every step is one of its edges. *)
Lemma Shoelace_closed_chain (a0 : Point.t) (l : list Point.t) :
  Shoelace.chainIn (Shoelace.isEdge (a0 :: l)) a0 (l ++ [a0]).
Proof.
  assert (G : forall m pre a,
             a0 :: l ++ [a0] = pre ++ a :: m ->
             Shoelace.chainIn (Shoelace.isEdge (a0 :: l)) a m).
  { induction m as [|b m IH]; intros pre a Hcl; [exact I |].
    split.
    - exists (length pre).
      assert (Hlen : (length pre + 2 + length m = length l + 2)%nat).
      { apply (f_equal (@length Point.t)) in Hcl.
        cbn [length] in Hcl. rewrite !length_app in Hcl. cbn [length] in Hcl. lia. }
      assert (Hk : (length pre < length (a0 :: l))%nat) by (cbn [length]; lia).
      split; [exact Hk |].
      rewrite Polygon_edge_nth by exact Hk.
      assert (Hu : nth (length pre) (a0 :: l ++ [a0]) Point.origin = a).
      { rewrite Hcl, app_nth2 by lia. rewrite Nat.sub_diag. reflexivity. }
      assert (Hv : nth (S (length pre)) (a0 :: l ++ [a0]) Point.origin = b).
      { rewrite Hcl, app_nth2 by lia.
        replace (S (length pre) - length pre)%nat with 1%nat by lia. reflexivity. }
      cbn [nth] in Hv. rewrite Hv.
      change (a0 :: l ++ [a0]) with ((a0 :: l) ++ [a0]) in Hu.
      rewrite app_nth1 in Hu by exact Hk. rewrite Hu. reflexivity.
    - apply (IH (pre ++ [a]) b). rewrite <- app_assoc. exact Hcl. }
  apply (G (l ++ [a0]) [] a0). reflexivity.
Qed.

Lemma Shoelace_convexSide_spec (s : Q) (p : Polygon.t) :
  Shoelace.convexSide s p = true ->
  forall u v w, Shoelace.isEdge p u v -> In w p -> 0 <= s * Shoelace.orient u v w.
Proof.
  unfold Shoelace.convexSide. intros H u v w (i & Hi & He) Hw.
  rewrite forallb_forall in H.
  specialize (H i ltac:(apply in_seq; lia)).
  rewrite forallb_forall in H. specialize (H w Hw).
  rewrite He in H. cbn [fst snd] in H. apply Qle_bool_iff in H. exact H.
Qed.

Lemma Shoelace_orient_affine (u v a b q : Point.t) (t : Q) :
  Shoelace.onLine a b q t ->
  Shoelace.orient u v q
  == (1 - t) * Shoelace.orient u v a + t * Shoelace.orient u v b.
Proof.
  intros [Hx Hy]. unfold Shoelace.orient, GeomUtils.cross. rewrite Hx, Hy. ring.
Qed.

(** A point of an edge, between its end points, is on the inner side of
    every edge of a convex polygon. *)
Lemma Shoelace_inside (s : Q) (p : Polygon.t) (a b q : Point.t) (t : Q) :
  Shoelace.convexSide s p = true ->
  In a p -> In b p -> 0 <= t -> t <= 1 ->
  Shoelace.onLine a b q t ->
  forall u v, Shoelace.isEdge p u v -> 0 <= s * Shoelace.orient u v q.
Proof.
  intros Hcv Ha Hb H0 H1 HL u v He.
  pose proof (Shoelace_convexSide_spec s p Hcv u v a He Ha) as Xa.
  pose proof (Shoelace_convexSide_spec s p Hcv u v b He Hb) as Xb.
  rewrite (Shoelace_orient_affine u v a b q t HL).
  assert (E : s * ((1 - t) * Shoelace.orient u v a + t * Shoelace.orient u v b)
              == (1 - t) * (s * Shoelace.orient u v a) + t * (s * Shoelace.orient u v b))
    by ring.
  rewrite E.
  assert (0 <= (1 - t) * (s * Shoelace.orient u v a)) by (apply Qmult_le_0_compat; lra).
  assert (0 <= t * (s * Shoelace.orient u v b)) by (apply Qmult_le_0_compat; lra).
  lra.
Qed.

Lemma Shoelace_orient_self_l (u v : Point.t) : Shoelace.orient u v u == 0.
Proof. unfold Shoelace.orient, GeomUtils.cross. ring. Qed.

Lemma Shoelace_orient_self_r (u v : Point.t) : Shoelace.orient u v v == 0.
Proof. unfold Shoelace.orient, GeomUtils.cross. ring. Qed.

(** The part of an edge before, and after, a point of the edge. *)
Lemma Shoelace_orient_before (u v m q : Point.t) (t : Q) :
  Shoelace.onLine u v m t ->
  Shoelace.orient u m q == t * Shoelace.orient u v q.
Proof.
  intros [Hx Hy]. unfold Shoelace.orient, GeomUtils.cross. rewrite Hx, Hy. ring.
Qed.

Lemma Shoelace_orient_after (u v m q : Point.t) (t : Q) :
  Shoelace.onLine u v m t ->
  Shoelace.orient m v q == (1 - t) * Shoelace.orient u v q.
Proof.
  intros [Hx Hy]. unfold Shoelace.orient, GeomUtils.cross. rewrite Hx, Hy. ring.
Qed.

Lemma last_In_cons {A : Type} : forall (l : list A) (a : A), In (List.last l a) (a :: l).
Proof.
  induction l as [|b l IH]; intros a; [left; reflexivity |].
  rewrite last_cons_default. right. apply IH.
Qed.

Lemma hd_app_singleton {A : Type} (C : list A) (a : A) :
  exists r, C ++ [a] = hd a C :: r /\ List.last r (hd a C) = a.
Proof.
  destruct C as [|c C'].
  - exists []. split; reflexivity.
  - exists (C' ++ [a]). split; [reflexivity | apply last_last].
Qed.

(** Both halves of a convex polygon wind the way the polygon does. *)
Lemma Shoelace_halves_sign (s : Q) (a0 : Point.t) (A' : list Point.t) (b0 : Point.t)
      (B' C : list Point.t) (P1 P2 : Point.t) (t1 t2 : Q) :
  Shoelace.convexSide s ((a0 :: A') ++ (b0 :: B') ++ C) = true ->
  0 <= t1 /\ t1 <= 1 -> 0 <= t2 /\ t2 <= 1 ->
  Shoelace.onLine (List.last A' a0) b0 P1 t1 ->
  Shoelace.onLine (List.last B' b0) (hd a0 C) P2 t2 ->
  0 <= s * Shoelace.closed (Shoelace.half1 b0 B' P1 P2)
  /\ 0 <= s * Shoelace.closed (Shoelace.half2 a0 A' C P1 P2).
Proof.
  intros Hcv [H10 H11] [H20 H21] L1 L2.
  set (p := (a0 :: A') ++ (b0 :: B') ++ C) in *.
  set (E := Shoelace.isEdge p).
  destruct (hd_app_singleton C a0) as (r & Hr & Hlast).
  set (nx := hd a0 C) in *.
  set (al := List.last A' a0) in *.
  set (bl := List.last B' b0) in *.
  (* every step around the polygon is an edge *)
  assert (Hchain : Shoelace.chainIn E a0 (A' ++ (b0 :: B') ++ nx :: r)).
  { pose proof (Shoelace_closed_chain a0 (A' ++ (b0 :: B') ++ C)) as H.
    rewrite <- !app_assoc in H. rewrite Hr in H. exact H. }
  apply Shoelace_chainIn_app in Hchain. destruct Hchain as [ChA Hchain].
  fold al in Hchain. cbn [app Shoelace.chainIn] in Hchain.
  destruct Hchain as [Eab Hchain].
  apply Shoelace_chainIn_app in Hchain. destruct Hchain as [ChB Hchain].
  fold bl in Hchain. cbn [Shoelace.chainIn] in Hchain.
  destruct Hchain as [Ebn ChC].
  (* the end points of the two edges are vertices *)
  assert (Inal : In al p).
  { unfold p. apply in_or_app. left. apply last_In_cons. }
  assert (Inb0 : In b0 p).
  { unfold p. apply in_or_app. right. left. reflexivity. }
  (* the first cut point is inside *)
  assert (Hin : forall u v, E u v -> 0 <= s * Shoelace.orient u v P1).
  { apply (Shoelace_inside s p al b0 P1 t1 Hcv Inal Inb0 H10 H11 L1). }
  pose proof (Shoelace_fan_nonneg E s P1 Hin A' a0 ChA) as FA.
  pose proof (Shoelace_fan_nonneg E s P1 Hin B' b0 ChB) as FB.
  pose proof (Shoelace_fan_nonneg E s P1 Hin r nx ChC) as FC.
  pose proof (Hin bl nx Ebn) as Xbn.
  split.
  - unfold Shoelace.half1. rewrite (Shoelace_closed_fan s P1).
    replace (((b0 :: B') ++ [P2]) ++ [P1]) with (b0 :: B' ++ [P2; P1])
      by (cbn [app]; rewrite <- app_assoc; reflexivity).
    cbn [Shoelace.fan]. rewrite Shoelace_fan_app. fold bl. cbn [Shoelace.fan].
    rewrite (Shoelace_orient_self_l P1 b0), (Shoelace_orient_self_r P2 P1).
    rewrite (Shoelace_orient_before bl nx P2 P1 t2 L2).
    assert (0 <= t2 * (s * Shoelace.orient bl nx P1)) by (apply Qmult_le_0_compat; lra).
    lra.
  - unfold Shoelace.half2. rewrite (Shoelace_closed_fan s P1).
    replace (((C ++ a0 :: A') ++ [P1]) ++ [P2]) with (nx :: r ++ A' ++ [P1; P2]).
    2:{ rewrite <- !app_assoc.
        change (C ++ (a0 :: A') ++ [P1] ++ [P2]) with (C ++ [a0] ++ A' ++ [P1; P2]).
        rewrite (app_assoc C [a0]), Hr. reflexivity. }
    cbn [Shoelace.fan]. rewrite Shoelace_fan_app, Hlast, Shoelace_fan_app. fold al.
    cbn [Shoelace.fan].
    rewrite (Shoelace_orient_self_r al P1), (Shoelace_orient_self_l P1 P2).
    rewrite (Shoelace_orient_after bl nx P2 P1 t2 L2).
    assert (0 <= (1 - t2) * (s * Shoelace.orient bl nx P1)) by (apply Qmult_le_0_compat; lra).
    lra.
Qed.

Lemma Qabs_same_sign (s a b : Q) :
  s == 1 \/ s == - (1) -> 0 <= s * a -> 0 <= s * b ->
  Qabs a + Qabs b == Qabs (a + b).
Proof.
  intros [Hs | Hs] Ha Hb; rewrite Hs in Ha, Hb.
  - rewrite !Qabs_pos by lra. reflexivity.
  - rewrite !Qabs_neg by lra. ring.
Qed.

(** ** Polygon.cut: areas of the pieces *)




(** ** Polygon.cut and Cutter.bisect: the gap *)

Lemma Polygon_cut_halves_touch (p : Polygon.t) (p1 p2 : Point.t) (gap : Q) :
  match Polygon.cut p p1 p2 gap with
  | [h1; h2] =>
      hd Point.origin h1 = List.last h2 Point.origin
      /\ List.last h1 Point.origin = hd Point.origin h2
  | _ => True
  end.
Proof.
  destruct (Nat.eq_dec (Polygon.count (Polygon.scan p p1 p2)) 2%nat) as [Hc | Hc].
  - destruct (Polygon_cut_two p p1 p2 gap Hc)
      as (a0 & A' & b0 & B' & C & P1 & P2 & t1 & t2 & _ & _ & _ & _ & _ & Hcut).
    assert (H1 : List.last (Shoelace.half1 b0 B' P1 P2) Point.origin = P2).
    { unfold Shoelace.half1. rewrite last_cons_default.
      change ((b0 :: B') ++ [P2]) with (b0 :: (B' ++ [P2])).
      rewrite last_cons_default. apply last_last. }
    assert (H2 : List.last (Shoelace.half2 a0 A' C P1 P2) Point.origin = P1).
    { unfold Shoelace.half2. rewrite last_cons_default. apply last_last. }
    destruct Hcut as [-> | ->]; rewrite H1, H2; split; reflexivity.
  - rewrite (Polygon_cut_other p p1 p2 gap Hc). exact I.
Qed.

(** C6 (the code at its failing inputs): the bisecting cut of
    [createAlleys] with the alley width as gap gives what it gives with no
    gap, and when it returns two halves each starts at the point where the
    other ends: both contain the two ends of the cut, which is their
    common edge. *)
Theorem Cutter_bisect_leaves_no_gap :
  forall (Math_cos Math_sin : Q -> Q) (poly : Polygon.t) (vertex : nat) (ratio angle : Q),
    Cutter.bisect Math_cos Math_sin poly vertex ratio angle Ward.ALLEY
    = Cutter.bisect Math_cos Math_sin poly vertex ratio angle 0
    /\ match Cutter.bisect Math_cos Math_sin poly vertex ratio angle Ward.ALLEY with
       | [h1; h2] =>
           hd Point.origin h1 = List.last h2 Point.origin
           /\ List.last h1 Point.origin = hd Point.origin h2
       | _ => True
       end.
Proof.
  intros Math_cos Math_sin poly vertex ratio angle.
  split; [reflexivity |].
  unfold Cutter.bisect. apply Polygon_cut_halves_touch.
Qed.

(** The square bisected at the middle of its first edge, gap 0.6: the
    halves are the two rectangles on either side of the line x = 1, with
    the side from (1,0) to (1,2) in common. *)
Example Cutter_bisect_square :
  map (map Point.reduce)
      (Cutter.bisect (fun _ => 1) (fun _ => 0) Inputs.square2 0 (1 # 2) 0 Ward.ALLEY)
  = [ [Point.mk 1 2; Point.mk 0 2; Point.mk 0 0; Point.mk 1 0];
      [Point.mk 1 0; Point.mk 2 0; Point.mk 2 2; Point.mk 1 2] ].
Proof. vm_compute. reflexivity. Qed.

(** ** Ward: the recursion of createOrthoBuilding and createAlleys *)

Lemma Polygon_cut_pieces_nonempty (p : Polygon.t) (p1 p2 : Point.t) (gap : Q) :
  p <> [] -> forall h, In h (Polygon.cut p p1 p2 gap) -> h <> [].
Proof.
  intros Hp h Hin.
  destruct (Nat.eq_dec (Polygon.count (Polygon.scan p p1 p2)) 2%nat) as [Hc | Hc].
  - destruct (Polygon_cut_two p p1 p2 gap Hc)
      as (a0 & A' & b0 & B' & C & P1 & P2 & t1 & t2 & _ & _ & _ & _ & _ & Hcut).
    destruct Hcut as [E | E]; rewrite E in Hin;
      destruct Hin as [<- | [<- | []]]; discriminate.
  - rewrite (Polygon_cut_other p p1 p2 gap Hc) in Hin.
    destruct Hin as [<- | []]. exact Hp.
Qed.

(** Not every piece of a polygon of non-negative area has negative area. *)
Lemma Polygon_cut_piece_nonneg (p : Polygon.t) (p1 p2 : Point.t) (gap : Q) :
  0 <= Polygon.square p ->
  exists h, In h (Polygon.cut p p1 p2 gap) /\ 0 <= Polygon.square h.
Proof.
  intros Hp. pose proof (Polygon_cut_signed_areas p p1 p2 gap) as Hsum.
  destruct (Polygon.cut p p1 p2 gap) as [|h1 [|h2 [|h3 l]]] eqn:E.
  - exfalso.
    destruct (Nat.eq_dec (Polygon.count (Polygon.scan p p1 p2)) 2%nat) as [Hc | Hc].
    + destruct (Polygon_cut_two p p1 p2 gap Hc)
        as (a0 & A' & b0 & B' & C & P1 & P2 & t1 & t2 & _ & _ & _ & _ & _ & [H | H]);
        congruence.
    + rewrite (Polygon_cut_other p p1 p2 gap Hc) in E. discriminate.
  - exists h1. split; [left; reflexivity |]. cbn [fold_right] in Hsum. lra.
  - cbn [fold_right] in Hsum.
    destruct (Qlt_le_dec (Polygon.square h1) 0) as [Hneg | Hpos].
    + exists h2. split; [right; left; reflexivity | lra].
    + exists h1. split; [left; reflexivity | exact Hpos].
  - exfalso.
    destruct (Nat.eq_dec (Polygon.count (Polygon.scan p p1 p2)) 2%nat) as [Hc | Hc].
    + destruct (Polygon_cut_two p p1 p2 gap Hc)
        as (a0 & A' & b0 & B' & C & P1 & P2 & t1 & t2 & _ & _ & _ & _ & _ & [H | H]);
        congruence.
    + rewrite (Polygon_cut_other p p1 p2 gap Hc) in E. discriminate.
Qed.

Lemma Ward_findLongestEdge_some (Math_sqrt : Q -> Q) (poly : Polygon.t) :
  poly <> [] -> exists i, Ward.findLongestEdge Math_sqrt poly = Some i.
Proof.
  intros Hp. unfold Ward.findLongestEdge, Polygon.minIndex.
  destruct poly as [|a l]; [contradiction | eexists; reflexivity].
Qed.

Lemma Ward_longestEdge_some (Math_sqrt : Q -> Q) (p : Polygon.t) :
  (forall q, 0 <= Math_sqrt q) -> p <> [] ->
  exists i, Ward.longestEdge Math_sqrt p = Some i.
Proof.
  intros Hsqrt Hp. unfold Ward.longestEdge.
  assert (Hkeep : forall l acc i0,
             fst acc = Some i0 ->
             exists i,
               fst (fold_left
                      (fun (acc : option nat * Q) (i : nat) =>
                         let '(vertex, length) := acc in
                         let '(p0, p1) := Polygon.edge p i in
                         let len := Point.distance Math_sqrt p0 p1 in
                         if Qltb length len then (Some i, len) else (vertex, length))
                      l acc) = Some i).
  { induction l as [|k l IH]; intros [vertex length] i0 Hacc.
    - exists i0. exact Hacc.
    - cbn [fold_left]. destruct (Polygon.edge p k) as [p0 p1].
      cbn zeta. destruct (Qltb length (Point.distance Math_sqrt p0 p1)).
      + apply (IH _ k). reflexivity.
      + apply (IH _ i0). exact Hacc. }
  destruct p as [|a l]; [contradiction |].
  cbn [length seq fold_left]. destruct (Polygon.edge (a :: l) 0) as [p0 p1].
  cbn zeta.
  assert (Hlt : Qltb (- (1)) (Point.distance Math_sqrt p0 p1) = true).
  { unfold Qltb. apply negb_true_iff. apply not_true_is_false. intros Hle.
    apply Qle_bool_iff in Hle. unfold Point.distance in Hle.
    specialize (Hsqrt ((Point.x p1 - Point.x p0) * (Point.x p1 - Point.x p0)
                       + (Point.y p1 - Point.y p0) * (Point.y p1 - Point.y p0))).
    cbn zeta in Hle. lra. }
  rewrite Hlt. apply (Hkeep _ _ 0%nat). reflexivity.
Qed.

(** With a zero threshold the loop over the halves never completes when
    one of the halves has non-negative area and the recursive call on
    such a half does not return. *)
Lemma Ward_sliceHalves_diverges (Math_pow : Q -> Q -> Q)
      (recurse : Polygon.t -> Random.state -> Ward.outcome (list Polygon.t))
      (minBlockSq fill : Q) :
  minBlockSq == 0 ->
  (forall half st, half <> [] -> 0 <= Polygon.square half ->
                   recurse half st = Ward.OutOfFuel) ->
  forall halves buildings st,
    (forall h, In h halves -> h <> []) ->
    (exists h, In h halves /\ 0 <= Polygon.square h) ->
    Ward.sliceHalves Math_pow recurse minBlockSq fill halves buildings st
    = Ward.OutOfFuel.
Proof.
  intros Hz Hrec. induction halves as [|half halves IH]; intros buildings st Hne Hex.
  - destruct Hex as (h & [] & _).
  - cbn [Ward.sliceHalves].
    destruct (Random.normal st) as [nrm st2].
    destruct (Qltb (Polygon.square half) (minBlockSq * Math_pow 2 (nrm * 2 - 1))) eqn:Et.
    + apply Qltb_true in Et. rewrite Hz, Qmult_0_l in Et.
      destruct (Random.bool fill st2) as [keep st3].
      apply IH.
      * intros h Hin. apply Hne. right. exact Hin.
      * destruct Hex as (h & [<- | Hin] & Hh); [lra | exists h; auto].
    + apply Qltb_false in Et. rewrite Hz, Qmult_0_l in Et.
      rewrite Hrec; [reflexivity | apply Hne; left; reflexivity | exact Et].
Qed.

Lemma Ward_slice_diverges (Math_sqrt : Q -> Q) (Math_pow : Q -> Q -> Q)
      (minBlockSq fill : Q) (c1 c2 : Point.t) :
  minBlockSq == 0 ->
  forall fuel poly st,
    poly <> [] -> 0 <= Polygon.square poly ->
    Ward.slice Math_sqrt Math_pow fuel minBlockSq fill poly c1 c2 st = Ward.OutOfFuel.
Proof.
  intros Hz. induction fuel as [|fuel IH]; intros poly st Hne Hsq; [reflexivity |].
  cbn [Ward.slice].
  destruct (Ward_findLongestEdge_some Math_sqrt poly Hne) as [i0 ->].
  destruct (Random.float st) as [f st1].
  apply Ward_sliceHalves_diverges.
  - exact Hz.
  - intros half st' Hh Hs. apply IH; assumption.
  - apply Polygon_cut_pieces_nonempty. exact Hne.
  - apply Polygon_cut_piece_nonneg. exact Hsq.
Qed.

Lemma Ward_alleyHalves_diverges (Math_pow : Q -> Q -> Q)
      (recurse : Polygon.t -> bool -> Random.state -> Ward.outcome (list Polygon.t))
      (minSq sizeChaos emptyProb : Q) :
  minSq == 0 ->
  (forall half split st, half <> [] -> 0 <= Polygon.square half ->
                         recurse half split st = Ward.OutOfFuel) ->
  forall halves buildings st,
    (forall h, In h halves -> h <> []) ->
    (exists h, In h halves /\ 0 <= Polygon.square h) ->
    Ward.alleyHalves Math_pow recurse minSq sizeChaos emptyProb halves buildings st
    = Ward.OutOfFuel.
Proof.
  intros Hz Hrec. induction halves as [|half halves IH]; intros buildings st Hne Hex.
  - destruct Hex as (h & [] & _).
  - cbn [Ward.alleyHalves].
    destruct (Random.float st) as [f3 st3].
    destruct (Qltb (Polygon.square half)
                   (minSq * Math_pow 2 (4 * sizeChaos * (f3 - (1 # 2))))) eqn:Et.
    + apply Qltb_true in Et. rewrite Hz, Qmult_0_l in Et.
      destruct (Random.bool emptyProb st3) as [empty st4].
      apply IH.
      * intros h Hin. apply Hne. right. exact Hin.
      * destruct Hex as (h & [<- | Hin] & Hh); [lra | exists h; auto].
    + apply Qltb_false in Et. rewrite Hz, Qmult_0_l in Et.
      destruct (Random.float st3) as [f4 st4].
      destruct (Random.float st4) as [f5 st5].
      rewrite Hrec; [reflexivity | apply Hne; left; reflexivity | exact Et].
Qed.

Lemma Ward_createAlleys_diverges (Math_sqrt : Q -> Q) (Math_pow : Q -> Q -> Q)
      (Math_cos Math_sin : Q -> Q) (Math_PI : Q)
      (minSq gridChaos sizeChaos emptyProb : Q) :
  (forall q, 0 <= Math_sqrt q) ->
  minSq == 0 ->
  forall fuel p split st,
    p <> [] -> 0 <= Polygon.square p ->
    Ward.createAlleys Math_sqrt Math_pow Math_cos Math_sin Math_PI fuel p
                      minSq gridChaos sizeChaos emptyProb split st
    = Ward.OutOfFuel.
Proof.
  intros Hsqrt Hz. induction fuel as [|fuel IH]; intros p split st Hne Hsq; [reflexivity |].
  cbn [Ward.createAlleys].
  destruct (Ward_longestEdge_some Math_sqrt p Hsqrt Hne) as [vertex ->].
  destruct (Random.float st) as [f1 st1].
  destruct (Random.float st1) as [f2 st2].
  apply Ward_alleyHalves_diverges.
  - exact Hz.
  - intros half split' st' Hh Hs. apply IH; assumption.
  - unfold Cutter.bisect. apply Polygon_cut_pieces_nonempty. exact Hne.
  - unfold Cutter.bisect. apply Polygon_cut_piece_nonneg. exact Hsq.
Qed.



(** * Further properties of the code

    The functions around those of the first part: what the other
    operations of the same classes guarantee, and how the pieces fit
    together. *)

(** ** Random: the ranges of the derived draws *)

Lemma Random_int_valid (min max : Z) st :
  Random.valid st -> Random.valid (snd (Random.int min max st)).
Proof.
  intros H. unfold Random.int. pose proof (Random_next_valid st H) as V.
  destruct (Random.next st); exact V.
Qed.



Lemma Random_normal_bounds (st : Random.state) :
  Random.valid st ->
  0 <= fst (Random.normal st) /\ fst (Random.normal st) < 1.
Proof.
  intros Hv. unfold Random.normal.
  pose proof (Random_float_range st Hv) as Ra.
  pose proof (Random_float_valid st Hv) as Va.
  destruct (Random.float st) as [a st1]. cbn [fst snd] in Ra, Va.
  pose proof (Random_float_range st1 Va) as Rb.
  pose proof (Random_float_valid st1 Va) as Vb.
  destruct (Random.float st1) as [b st2]. cbn [fst snd] in Rb, Vb.
  pose proof (Random_float_range st2 Vb) as Rc.
  destruct (Random.float st2) as [c st3]. cbn [fst snd] in *.
  split.
  - apply Qle_shift_div_l; [reflexivity | lra].
  - apply Qlt_shift_div_r; [reflexivity | lra].
Qed.





(** [Random.bool(chance)] is always [true] for [chance >= 1] and
    always [false] for [chance <= 0]. *)
Lemma Random_bool_certain (chance : Q) (st : Random.state) :
  Random.valid st ->
  (1 <= chance -> fst (Random.bool chance st) = true)
  /\ (chance <= 0 -> fst (Random.bool chance st) = false).
Proof.
  intros Hv. unfold Random.bool.
  pose proof (Random_float_range st Hv) as [R0 R1].
  destruct (Random.float st) as [x st']. cbn [fst] in *.
  split; intros Hc.
  - destruct (Qle_bool chance x) eqn:E; [| reflexivity].
    apply Qle_bool_iff in E. lra.
  - destruct (Qle_bool chance x) eqn:E; [reflexivity |].
    assert (H : Qle_bool chance x = true) by (apply Qle_bool_iff; lra).
    congruence.
Qed.

(** ** CurtainWall: the loop that places the gates *)

Lemma Random_int_degenerate (m : Z) (st : Random.state) :
  fst (Random.int m m st) = m.
Proof.
  unfold Random.int. destruct (Random.next st) as [v st']. cbn [fst].
  rewrite Z.sub_diag.
  assert (E : inject_Z m + inject_Z v / inject_Z Random.n * inject_Z 0 == inject_Z m).
  { change (inject_Z 0) with 0. ring. }
  rewrite E. apply Qfloor_Z.
Qed.

Lemma CurtainWall_pickIndex_in_range (V : Type) (entrances : list V) (st : Random.state) :
  Random.valid st -> entrances <> [] ->
  (0 <= fst (CurtainWall.pickIndex entrances st) < Z.of_nat (length entrances))%Z
  /\ Random.valid (snd (CurtainWall.pickIndex entrances st)).
Proof.
  intros Hv Hne. unfold CurtainWall.pickIndex.
  split; [| apply Random_int_valid; exact Hv].
  destruct entrances as [| a [| b l]]; [congruence | |].
  - change (Z.of_nat (length [a]) - 1)%Z with 0%Z.
    rewrite Random_int_degenerate. simpl. lia.
  - pose proof (Random_int_below (Z.of_nat (length (a :: b :: l)) - 1) st Hv) as H.
    cbn [length] in *. lia.
Qed.

Lemma CurtainWall_splice_length (V : Type) (l : list V) (start deleteCount : nat) :
  length (CurtainWall.splice l start deleteCount)
  = (Nat.min start (length l) + (length l - (start + deleteCount)))%nat.
Proof.
  unfold CurtainWall.splice.
  rewrite length_app, length_firstn, length_skipn. reflexivity.
Qed.

Lemma CurtainWall_splice_incl (V : Type) (l : list V) (start deleteCount : nat) :
  incl (CurtainWall.splice l start deleteCount) l.
Proof.
  unfold CurtainWall.splice. intros x Hx. apply in_app_or in Hx.
  destruct Hx as [Hx | Hx].
  - rewrite <- (firstn_skipn start l). apply in_or_app. left. exact Hx.
  - rewrite <- (firstn_skipn (start + deleteCount) l). apply in_or_app. right. exact Hx.
Qed.

Lemma removelast_incl (V : Type) : forall (l : list V), incl (removelast l) l.
Proof.
  induction l as [| a l IH]; [intros x Hx; exact Hx |].
  destruct l as [| b l]; [intros x [] |].
  intros x Hx. change (removelast (a :: b :: l)) with (a :: removelast (b :: l)) in Hx.
  destruct Hx as [-> | Hx]; [left; reflexivity | right; apply IH; exact Hx].
Qed.

Lemma removelast_length_le (V : Type) (l : list V) : (length (removelast l) <= length l)%nat.
Proof.
  destruct l as [| a l]; [simpl; lia |].
  assert (H : a :: l <> []) by discriminate.
  destruct (exists_last H) as [l' [z ->]].
  rewrite removelast_last, length_app. simpl. lia.
Qed.

(** Removing the neighbours of the chosen index removes the index too:
    the list of candidates gets shorter, and nothing is added to it. *)
Lemma CurtainWall_removeNearby_shrinks (V : Type) (entrances : list V) (index : nat) :
  (index < length entrances)%nat ->
  (length (CurtainWall.removeNearby entrances index) < length entrances)%nat
  /\ incl (CurtainWall.removeNearby entrances index) entrances.
Proof.
  intros Hi. unfold CurtainWall.removeNearby.
  destruct (Nat.eqb_spec index 0) as [-> | H0].
  - pose proof (CurtainWall_splice_length V entrances 0 (Nat.min 2 (length entrances))) as HL.
    pose proof (CurtainWall_splice_incl V entrances 0 (Nat.min 2 (length entrances))) as HI.
    destruct (CurtainWall.splice entrances 0 (Nat.min 2 (length entrances))) as [| e0 es] eqn:E.
    + split; [simpl; lia | intros x []].
    + split.
      * pose proof (removelast_length_le V (e0 :: es)). lia.
      * intros x Hx. apply HI. apply removelast_incl. exact Hx.
  - destruct (Nat.eqb_spec index (length entrances - 1)) as [-> | H1].
    + pose proof (CurtainWall_splice_length V entrances (length entrances - 1 - 1)
                    (Nat.min 2 (length entrances))) as HL.
      pose proof (CurtainWall_splice_incl V entrances (length entrances - 1 - 1)
                    (Nat.min 2 (length entrances))) as HI.
      destruct (CurtainWall.splice entrances (length entrances - 1 - 1)
                  (Nat.min 2 (length entrances))) as [| e0 es] eqn:E.
      * split; [simpl; lia | intros x []].
      * split; [simpl in *; lia |].
        intros x Hx. apply HI. right. exact Hx.
    + pose proof (CurtainWall_splice_length V entrances (index - 1)
                    (Nat.min 3 (length entrances))) as HL.
      split; [lia | apply CurtainWall_splice_incl].
Qed.

Lemma CurtainWall_placeGates_spec (V : Type) : forall (fuel : nat) (entrances gates0 : list V)
    (st : Random.state),
  Random.valid st -> (length entrances <= fuel)%nat ->
  exists (gates : list V) (st' : Random.state),
    CurtainWall.placeGates fuel entrances gates0 st = Some ((gates0 ++ gates)%list, st')
    /\ (entrances <> [] -> gates <> [])
    /\ incl gates entrances
    /\ (length gates <= length entrances)%nat
    /\ Random.valid st'.
Proof.
  induction fuel as [| fuel IH]; intros entrances gates0 st Hv Hf.
  - destruct entrances as [| e es]; [| simpl in Hf; lia].
    exists [], st. cbn [CurtainWall.placeGates]. rewrite app_nil_r.
    repeat split; [congruence | intros x [] | simpl; lia | exact Hv].
  - destruct entrances as [| e es].
    + exists [], st. cbn [CurtainWall.placeGates]. rewrite app_nil_r.
      repeat split; [congruence | intros x [] | simpl; lia | exact Hv].
    + cbn [CurtainWall.placeGates].
      assert (Hne : e :: es <> []) by discriminate.
      pose proof (CurtainWall_pickIndex_in_range V (e :: es) st Hv Hne) as [Hidx Hv'].
      destruct (CurtainWall.pickIndex (e :: es) st) as [index st1]. cbn [fst snd] in Hidx, Hv'.
      destruct (Z.ltb_spec index 0) as [Hneg | _]; [lia |].
      assert (Hi : (Z.to_nat index < length (e :: es))%nat) by lia.
      destruct (nth_error (e :: es) (Z.to_nat index)) as [gate |] eqn:Eg.
      2:{ apply nth_error_None in Eg. lia. }
      pose proof (CurtainWall_removeNearby_shrinks V (e :: es) (Z.to_nat index) Hi) as [Hlen Hincl].
      destruct (IH (CurtainWall.removeNearby (e :: es) (Z.to_nat index))
                   (gates0 ++ [gate])%list st1 Hv' ltac:(lia))
        as (gates & st' & Eq & _ & Hin & Hcount & Hv'').
      exists (gate :: gates), st'. rewrite Eq, <- app_assoc. cbn [app].
      repeat split.
      * discriminate.
      * intros x [<- | Hx]; [eapply nth_error_In; exact Eg | apply Hincl, Hin, Hx].
      * cbn [length] in *. lia.
      * exact Hv''.
Qed.

(** X4. Gate placement terminates: the loop of [buildGates] runs at most
    once per candidate, every gate it places is one of the candidates, and
    it places at least one, so the final check [gates.length === 0] never
    fires once the candidate list is non-empty. *)
Theorem CurtainWall_placeGates_terminates (V : Type) (entrances : list V)
        (st : Random.state) :
  Random.valid st -> entrances <> [] ->
  exists (gates : list V) (st' : Random.state),
    CurtainWall.placeGates (length entrances) entrances [] st = Some (gates, st')
    /\ gates <> []
    /\ (forall g, In g gates -> In g entrances)
    /\ (length gates <= length entrances)%nat
    /\ Random.valid st'.
Proof.
  intros Hv Hne.
  destruct (CurtainWall_placeGates_spec V (length entrances) entrances [] st Hv (Nat.le_refl _))
    as (gates & st' & Eq & Hsome & Hin & Hcount & Hv').
  exists gates, st'. repeat split; auto.
Qed.

Lemma CurtainWall_placeGates_terminates_witness :
  Random.valid 42%Z /\ [10; 20; 30; 40; 50]%Z <> []
  /\ exists (gates : list Z) (st' : Random.state),
       CurtainWall.placeGates 5 [10; 20; 30; 40; 50]%Z [] 42%Z = Some (gates, st')
       /\ gates <> [].
Proof.
  assert (Hv : Random.valid 42%Z) by (unfold Random.valid; lia).
  assert (Hne : [10; 20; 30; 40; 50]%Z <> []) by discriminate.
  split; [exact Hv | split; [exact Hne |]].
  destruct (CurtainWall_placeGates_terminates Z [10; 20; 30; 40; 50]%Z 42%Z Hv Hne)
    as (gates & st' & Eq & Hg & _).
  exists gates, st'. split; [exact Eq | exact Hg].
Defined.

(** ** CurtainWall: towers and candidate entrances *)

Lemma fold_left_collect {A B : Type} (c : A -> bool) (g : A -> B) :
  forall (l : list A) (acc : list B),
    fold_left (fun acc i => if c i then (acc ++ [g i])%list else acc) l acc
    = (acc ++ map g (List.filter c l))%list.
Proof.
  induction l as [| a l IH]; intros acc; cbn [fold_left List.filter map].
  - rewrite app_nil_r. reflexivity.
  - rewrite IH. destruct (c a); [| reflexivity].
    cbn [map]. rewrite <- app_assoc. reflexivity.
Qed.

Lemma Store_contains_iff (poly : list Store.ref) (v : Store.ref) :
  Store.contains poly v = true <-> In v poly.
Proof.
  unfold Store.contains. rewrite existsb_exists. split.
  - intros (x & Hx & E). apply Nat.eqb_eq in E. subst. exact Hx.
  - intros H. exists v. split; [exact H | apply Nat.eqb_refl].
Qed.

(** X5. [buildTowers] puts a tower only on a vertex of the wall that is
    not a gate; and on a wall that is real, with every segment standing
    (as the constructor leaves it), every vertex that is not a gate gets a
    tower. *)
Theorem CurtainWall_buildTowers_partition (real : bool) (shape : list Store.ref)
        (segments : list bool) (gates : list Store.ref) :
  (forall t, In t (CurtainWall.buildTowers real shape segments gates) ->
             In t shape /\ ~ In t gates)
  /\ (forall t, In t shape ->
                In t gates
                \/ In t (CurtainWall.buildTowers true shape
                           (repeat true (length shape)) gates)).
Proof.
  unfold CurtainWall.buildTowers. split.
  - intros t Ht. destruct real; [| destruct Ht].
    rewrite (fold_left_collect
               (fun i => negb (Store.contains gates (nth i shape 0%nat))
                         && (nth ((i + length shape - 1) mod length shape) segments false
                             || nth i segments false))
               (fun i => nth i shape 0%nat)) in Ht.
    cbn [app] in Ht. apply in_map_iff in Ht. destruct Ht as (i & <- & Hi).
    apply filter_In in Hi. destruct Hi as [Hi Hc].
    apply in_seq in Hi. apply andb_prop in Hc. destruct Hc as [Hg _].
    split.
    + apply nth_In. lia.
    + intros Hin. apply Store_contains_iff in Hin. rewrite Hin in Hg. discriminate.
  - intros t Ht.
    destruct (Store.contains gates t) eqn:Eg.
    + left. apply Store_contains_iff. exact Eg.
    + right.
      rewrite (fold_left_collect
                 (fun i => negb (Store.contains gates (nth i shape 0%nat))
                           && (nth ((i + length shape - 1) mod length shape)
                                   (repeat true (length shape)) false
                               || nth i (repeat true (length shape)) false))
                 (fun i => nth i shape 0%nat)).
      cbn [app]. apply (In_nth _ _ 0%nat) in Ht. destruct Ht as (i & Hi & <-).
      apply in_map_iff. exists i. split; [reflexivity |].
      apply filter_In. split; [apply in_seq; unfold Store.ref in *; lia |].
      cbv beta. unfold Store.ref in *. rewrite Eg. cbn [negb andb].
      apply orb_true_iff. right.
      rewrite nth_repeat_lt by exact Hi. reflexivity.
Qed.

Lemma filter_two_positions {A : Type} (f : A -> bool) : forall (l : list A),
  (1 < length (List.filter f l))%nat ->
  exists (i j : nat) (a b : A),
    (i < j)%nat /\ nth_error l i = Some a /\ nth_error l j = Some b
    /\ f a = true /\ f b = true.
Proof.
  assert (One : forall l : list A, (0 < length (List.filter f l))%nat ->
                exists j b, nth_error l j = Some b /\ f b = true).
  { induction l as [| a l IH]; cbn [List.filter]; intros H; [simpl in H; lia |].
    destruct (f a) eqn:E.
    - exists 0%nat, a. split; [reflexivity | exact E].
    - destruct (IH H) as (j & b & Hj & Hb). exists (S j), b. split; assumption. }
  induction l as [| a l IH]; cbn [List.filter]; intros H; [simpl in H; lia |].
  destruct (f a) eqn:E.
  - cbn [length] in H. destruct (One l ltac:(lia)) as (j & b & Hj & Hb).
    exists 0%nat, (S j), a, b. repeat split; [lia | exact Hj | exact E | exact Hb].
  - destruct (IH H) as (i & j & x & y & Hij & Hi & Hj & Hx & Hy).
    exists (S i), (S j), x, y. repeat split; [lia | exact Hi | exact Hj | exact Hx | exact Hy].
Qed.

Lemma nth_error_firstn_Some {A : Type} : forall (n : nat) (l : list A) (i : nat) (a : A),
  nth_error (firstn n l) i = Some a -> nth_error l i = Some a.
Proof.
  induction n as [| n IH]; intros l i a H.
  - destruct i; discriminate H.
  - destruct l as [| b l]; [destruct i; discriminate H |].
    destruct i as [| i]; [exact H | cbn in *; apply IH; exact H].
Qed.

Lemma Patch_patchByVertex_filter (patches : list (Patch.t Store.ref)) (v : Store.ref) :
  Patch.patchByVertex patches v
  = List.filter (fun p => Store.contains (Patch.shape p) v) patches.
Proof.
  unfold Patch.patchByVertex.
  induction patches as [| p ps IH]; [reflexivity |].
  cbn [List.filter]. rewrite filter_cons, IH.
  destruct (Store.contains (Patch.shape p) v) eqn:E.
  - rewrite decide_True; [reflexivity | exact I].
  - rewrite decide_False; [reflexivity | intros []].
Qed.

(** X6. A vertex belongs to at most one of the patches [buildPatches]
    creates: each patch copies its vertices, so [patchByVertex] never
    returns two patches. *)
Theorem Patch_patchByVertex_at_most_one (rs : list Patch.Region) (h : Store.t)
        (v : Store.ref) :
  (length (Patch.patchByVertex (fst (Patch.fromRegions rs h)) v) <= 1)%nat.
Proof.
  destruct (le_lt_dec (length (Patch.patchByVertex (fst (Patch.fromRegions rs h)) v)) 1)
    as [H | H]; [exact H | exfalso].
  rewrite Patch_patchByVertex_filter in H.
  destruct (filter_two_positions _ _ H) as (i & j & a & b & Hij & Hi & Hj & Ha & Hb).
  apply Store_contains_iff in Ha, Hb.
  exact (Patch_fromRegions_disjoint rs h i j a b v Hij Hi Hj Ha Hb).
Qed.

(** X7. Around two or more of the patches [buildPatches] creates (the
    inner patches are the first [n] of them), [buildGates] finds no
    candidate entrance, whatever the wall's shape and the reserved
    vertices: no vertex is counted in more than one patch. *)
Theorem CurtainWall_entrances_empty_for_copied_patches
        (rs : list Patch.Region) (h : Store.t) (n : nat)
        (shape reserved : list Store.ref) :
  (1 < length (firstn n (fst (Patch.fromRegions rs h))))%nat ->
  CurtainWall.entrances (firstn n (fst (Patch.fromRegions rs h))) shape reserved = [].
Proof.
  intros Hlen. unfold CurtainWall.entrances.
  destruct (Nat.ltb_spec 1 (length (firstn n (fst (Patch.fromRegions rs h))))) as [_ | Hc];
    [| lia].
  induction shape as [| v shape IH]; [reflexivity |].
  cbn [List.filter]. rewrite IH.
  destruct (Store.contains reserved v); [reflexivity |].
  cbv zeta.
  destruct (Nat.ltb_spec 1
              (length (List.filter (fun p => Store.contains (Patch.shape p) v)
                                   (firstn n (fst (Patch.fromRegions rs h))))))
    as [H | _]; [exfalso | reflexivity].
  destruct (filter_two_positions _ _ H) as (i & j & a & b & Hij & Hi & Hj & Ha & Hb).
  apply Store_contains_iff in Ha, Hb.
  apply nth_error_firstn_Some in Hi, Hj.
  exact (Patch_fromRegions_disjoint rs h i j a b v Hij Hi Hj Ha Hb).
Qed.

Lemma CurtainWall_entrances_empty_witness :
  (1 < length (firstn 2 (fst (Patch.fromRegions [Inputs.regionA; Inputs.regionB]
                                                Inputs.sharedStore))))%nat
  /\ CurtainWall.entrances
       (firstn 2 (fst (Patch.fromRegions [Inputs.regionA; Inputs.regionB]
                                         Inputs.sharedStore)))
       [6; 7; 8; 9]%nat [] = [].
Proof.
  assert (H : (1 < length (firstn 2 (fst (Patch.fromRegions [Inputs.regionA; Inputs.regionB]
                                                        Inputs.sharedStore))))%nat).
  { vm_compute. apply Nat.le_refl. }
  split; [exact H |].
  exact (CurtainWall_entrances_empty_for_copied_patches
           [Inputs.regionA; Inputs.regionB] Inputs.sharedStore 2 [6; 7; 8; 9]%nat [] H).
Defined.

(** ** Graph: linking and unlinking nodes *)

Lemma Graph_get_set (l : Graph.Links) (k k' : Graph.Node) (v : Q) :
  Graph.get (Graph.set l k v) k' = if (k' =? k)%nat then Some v else Graph.get l k'.
Proof.
  unfold Graph.get.
  induction l as [| [k0 v0] l IH]; cbn [Graph.set find fst snd].
  - rewrite (Nat.eqb_sym k k'). destruct (k' =? k)%nat; reflexivity.
  - destruct (Nat.eqb_spec k k0) as [-> | Hk]; cbn [find fst snd].
    + rewrite (Nat.eqb_sym k0 k'). destruct (k' =? k0)%nat; reflexivity.
    + destruct (Nat.eqb_spec k0 k') as [E | H0].
      * destruct (Nat.eqb_spec k' k) as [E' | _]; [congruence | reflexivity].
      * exact IH.
Qed.

Lemma Graph_get_delete (l : Graph.Links) (k k' : Graph.Node) :
  Graph.get (Graph.delete l k) k' = if (k' =? k)%nat then None else Graph.get l k'.
Proof.
  unfold Graph.get, Graph.delete.
  induction l as [| [k0 v0] l IH]; cbn [List.filter find fst snd].
  - destruct (k' =? k)%nat; reflexivity.
  - destruct (Nat.eqb_spec k0 k) as [-> | Hk]; cbn [negb find fst snd].
    + rewrite IH. rewrite (Nat.eqb_sym k k').
      destruct (k' =? k)%nat; reflexivity.
    + destruct (Nat.eqb_spec k0 k') as [E | H0].
      * destruct (Nat.eqb_spec k' k) as [E' | _]; [congruence | reflexivity].
      * exact IH.
Qed.

Lemma Graph_links_insert (g : Graph.t) (a c : Graph.Node) (l : Graph.Links) :
  Graph.links (<[a := l]> g) c = if (c =? a)%nat then l else Graph.links g c.
Proof.
  unfold Graph.links, Graph.t, Graph.Node in *.
  destruct (Nat.eqb_spec c a) as [E | Hne].
  - subst c. rewrite lookup_insert_eq. reflexivity.
  - rewrite lookup_insert_ne by congruence. reflexivity.
Qed.

Ltac graph_cases :=
  repeat (rewrite ?Graph_links_insert, ?Graph_get_set, ?Graph_get_delete;
          match goal with
          | |- context [Nat.eqb ?x ?y] =>
              destruct (Nat.eqb_spec x y); [try subst |]; cbn [andb orb]
          end);
  rewrite ?Graph_links_insert, ?Graph_get_set, ?Graph_get_delete;
  try congruence; try reflexivity.

(** X8. [a.link(b, price)] makes [price] the weight of the link in both
    directions, replacing an earlier weight, and changes no other link. *)
Theorem Graph_link_sets_both_directions (g : Graph.t) (a b c d : Graph.Node) (price : Q) :
  Graph.get (Graph.links (Graph.link a b price true g) c) d
  = if ((c =? a)%nat && (d =? b)%nat) || ((c =? b)%nat && (d =? a)%nat)
    then Some price
    else Graph.get (Graph.links g c) d.
Proof.
  unfold Graph.link. graph_cases.
Qed.

Lemma Graph_unlink_spec (g : Graph.t) (a b c d : Graph.Node) :
  Graph.get (Graph.links (Graph.unlink a b true g) c) d
  = if ((c =? a)%nat && (d =? b)%nat) || ((c =? b)%nat && (d =? a)%nat)
    then None
    else Graph.get (Graph.links g c) d.
Proof.
  unfold Graph.unlink. graph_cases.
Qed.

(** X9. [a.unlink(b)] removes the link in both directions and no other;
    applied after [a.link(b, price)] it leaves the graph's links as
    unlinking alone would: the price leaves no trace. *)
Theorem Graph_unlink_undoes_link (g : Graph.t) (a b c d : Graph.Node) (price : Q) :
  Graph.get (Graph.links (Graph.unlink a b true g) c) d
  = (if ((c =? a)%nat && (d =? b)%nat) || ((c =? b)%nat && (d =? a)%nat)
     then None
     else Graph.get (Graph.links g c) d)
  /\ Graph.get (Graph.links (Graph.unlink a b true (Graph.link a b price true g)) c) d
     = Graph.get (Graph.links (Graph.unlink a b true g) c) d.
Proof.
  split; [apply Graph_unlink_spec |].
  rewrite !Graph_unlink_spec.
  destruct (((c =? a)%nat && (d =? b)%nat) || ((c =? b)%nat && (d =? a)%nat)) eqn:E;
    [reflexivity |].
  revert E. unfold Graph.link. graph_cases; intros E; try discriminate E; reflexivity.
Qed.

(** ** Graph.aStar: the search terminates and its path follows links *)

Lemma Graph_includes_iff (l : list Graph.Node) (a : Graph.Node) :
  Graph.includes l a = true <-> In a l.
Proof.
  unfold Graph.includes. rewrite existsb_exists. split.
  - intros (x & Hx & E). apply Nat.eqb_eq in E. subst. exact Hx.
  - intros H. exists a. split; [exact H | apply Nat.eqb_refl].
Qed.

Lemma Graph_includes_false (l : list Graph.Node) (a : Graph.Node) :
  Graph.includes l a = false <-> ~ In a l.
Proof.
  rewrite <- Graph_includes_iff. destruct (Graph.includes l a); split; congruence.
Qed.

(** With a current score of [Infinity], a step of the inner loop either
    leaves everything as it is or discovers a new node. *)
Lemma Graph_relax_blind_step (current : Graph.Node) (s : Graph.search)
      (nb : Graph.Node) (d : Q) :
  Graph.relax current Graph.Infinity s (nb, d)
  = if Graph.includes (Graph.closedSet s) nb || Graph.includes (Graph.openSet s) nb
    then s
    else Graph.mkSearch (Graph.closedSet s) (Graph.openSet s ++ [nb])
                        (<[nb := current]> (Graph.cameFrom s))
                        (<[nb := Graph.Infinity]> (Graph.gScore s))
                        (<[nb := Graph.Infinity]> (Graph.fScore s)).
Proof.
  unfold Graph.relax.
  destruct (Graph.includes (Graph.closedSet s) nb); [reflexivity |].
  destruct (Graph.includes (Graph.openSet s) nb); reflexivity.
Qed.

Lemma Graph_get_In (l : Graph.Links) (k : Graph.Node) (v : Q) :
  In (k, v) l -> is_Some (Graph.get l k).
Proof.
  intros H. unfold Graph.get.
  destruct (find (fun e => (fst e =? k)%nat) l) as [e |] eqn:E; [eexists; reflexivity |].
  exfalso. apply (find_none _ _ E) in H. cbn [fst] in H.
  rewrite Nat.eqb_refl in H. discriminate.
Qed.

Lemma Graph_within_start (g : Graph.t) (start : Graph.Node) : start ∈ Graph.within g start.
Proof. unfold Graph.within. set_solver. Qed.

Lemma Graph_within_target (g : Graph.t) (start a : Graph.Node) (e : Graph.Node * Q) :
  In e (Graph.links g a) -> fst e ∈ Graph.within g start.
Proof.
  unfold Graph.links, Graph.within.
  destruct (g !! a) as [l |] eqn:E; [| intros []].
  intros He. apply elem_of_union_r. apply elem_of_union_list.
  exists (list_to_set (map fst l)). split.
  - apply list_elem_of_In. apply in_map_iff. exists (a, l). split; [reflexivity |].
    apply list_elem_of_In. apply elem_of_map_to_list. exact E.
  - apply elem_of_list_to_set. apply list_elem_of_In. apply in_map. exact He.
Qed.

Lemma gset_size_remove (U C : gset nat) (x : nat) :
  x ∈ U -> x ∉ C -> (size (U ∖ (C ∪ ({[x]} ∪ ∅))) < size (U ∖ C))%nat.
Proof.
  intros Hu Hc. apply subset_size. split.
  - intros y Hy. apply elem_of_difference in Hy. destruct Hy as [H1 H2].
    apply elem_of_difference. split; [exact H1 |].
    intros H3. apply H2. apply elem_of_union_l. exact H3.
  - intros Hsup. specialize (Hsup x). rewrite !elem_of_difference in Hsup.
    destruct Hsup as [_ Hn]; [split; assumption |].
    apply Hn. apply elem_of_union_r, elem_of_union_l, elem_of_singleton. reflexivity.
Qed.

Section AStarFacts.

Variable g : Graph.t.
Variable start : Graph.Node.
Variable exclude : list Graph.Node.

Local Abbreviation invariant := (Graph.invariant g start exclude).

Lemma Graph_relax_invariant (current : Graph.Node) (s : Graph.search)
      (e : Graph.Node * Q) :
  invariant s ->
  In current (Graph.closedSet s) ->
  current = start \/ is_Some (Graph.cameFrom s !! current) ->
  In e (Graph.links g current) ->
  invariant (Graph.relax current Graph.Infinity s e)
  /\ Graph.closedSet (Graph.relax current Graph.Infinity s e) = Graph.closedSet s
  /\ (forall n, is_Some (Graph.cameFrom s !! n) ->
                is_Some (Graph.cameFrom (Graph.relax current Graph.Infinity s e) !! n)).
Proof.
  intros I Hcur Hroot He. destruct e as [nb d].
  rewrite Graph_relax_blind_step.
  destruct (Graph.includes (Graph.closedSet s) nb) eqn:Ec; cbn [orb];
    [split; [exact I | split; [reflexivity | auto]] |].
  destruct (Graph.includes (Graph.openSet s) nb) eqn:Eo;
    [split; [exact I | split; [reflexivity | auto]] |].
  apply Graph_includes_false in Ec, Eo.
  destruct I as [Ilink Iroot Iopen Istart Iavoid Irank Iclosed Iseen Idisj Inodup Iwithin Iblind Iexcl].
  assert (Hnew : Graph.cameFrom s !! nb = None).
  { destruct (Graph.cameFrom s !! nb) as [c |] eqn:E; [| reflexivity].
    destruct (Iseen nb ltac:(rewrite E; eexists; reflexivity)); contradiction. }
  assert (Hns : nb <> start) by (intros ->; contradiction).
  assert (Hnc : nb <> current) by (intros ->; contradiction).
  split; [| split; [reflexivity |]].
  2:{ cbn [Graph.cameFrom]. intros n [c Hc].
      destruct (decide (nb = n)) as [-> | Hne]; [congruence |].
      rewrite lookup_insert_ne by exact Hne. rewrite Hc. eexists; reflexivity. }
  constructor; cbn [Graph.cameFrom Graph.openSet Graph.closedSet].
  - intros n c Hc. apply lookup_insert_Some in Hc.
    destruct Hc as [[<- <-] | [Hne Hc]].
    + apply (Graph_get_In _ _ d). exact He.
    + eapply Ilink; exact Hc.
  - intros n c Hc. apply lookup_insert_Some in Hc.
    assert (Hmono : forall x, x = start \/ is_Some (Graph.cameFrom s !! x) ->
                              x = start \/ is_Some (<[nb := current]> (Graph.cameFrom s) !! x)).
    { intros x [-> | [y Hy]]; [left; reflexivity | right].
      destruct (decide (nb = x)) as [-> | Hne]; [congruence |].
      rewrite lookup_insert_ne by exact Hne. rewrite Hy. eexists; reflexivity. }
    destruct Hc as [[<- <-] | [Hne Hc]]; apply Hmono; [exact Hroot | eapply Iroot; exact Hc].
  - intros n Hn. apply in_app_or in Hn. destruct Hn as [Hn | [<- | []]].
    + destruct (Iopen n Hn) as [y Hy].
      destruct (decide (nb = n)) as [-> | Hne]; [congruence |].
      rewrite lookup_insert_ne by exact Hne. rewrite Hy. eexists; reflexivity.
    + rewrite lookup_insert_eq. eexists; reflexivity.
  - rewrite lookup_insert_ne by exact Hns. exact Istart.
  - intros n [c Hc]. apply lookup_insert_Some in Hc.
    destruct Hc as [[<- <-] | [Hne Hc]].
    + intros Hin. apply Ec. apply Iexcl. exact Hin.
    + apply Iavoid. rewrite Hc. eexists; reflexivity.
  - destruct Irank as (r & Hr0 & Hr).
    exists (fun x => if decide (x = nb) then S (r current) else r x).
    split; [rewrite decide_False by congruence; exact Hr0 |].
    intros n c Hc. rewrite map_size_insert_None by exact Hnew.
    apply lookup_insert_Some in Hc.
    destruct Hc as [[<- <-] | [Hne Hc]].
    + rewrite decide_False by congruence. rewrite decide_True by reflexivity.
      split; [lia |].
      destruct Hroot as [-> | [y Hy]]; [lia |].
      destruct (Hr _ _ Hy) as [_ Hle]. lia.
    + assert (Hcn : c <> nb).
      { intros ->. destruct (Iroot _ _ Hc) as [Hs | [y Hy]]; congruence. }
      rewrite !decide_False by congruence.
      destruct (Hr _ _ Hc) as [Hlt Hle]. split; lia.
  - exact Iclosed.
  - intros n [c Hc]. apply lookup_insert_Some in Hc.
    destruct Hc as [[<- <-] | [Hne Hc]].
    + left. apply in_or_app. right. left. reflexivity.
    + destruct (Iseen n ltac:(rewrite Hc; eexists; reflexivity)) as [H | H];
        [left; apply in_or_app; left; exact H | right; exact H].
  - intros n Hn. apply in_app_or in Hn. destruct Hn as [Hn | [<- | []]];
      [apply Idisj; exact Hn | exact Ec].
  - apply NoDup_app. split; [exact Inodup |].
    split; [| apply NoDup_singleton].
    intros x Hx Hx'. apply list_elem_of_In in Hx. apply list_elem_of_In in Hx'; destruct Hx' as [Hx' | []].
    subst x. contradiction.
  - intros n Hn. apply in_app_or in Hn. destruct Hn as [Hn | [<- | []]];
      [apply Iwithin; exact Hn |].
    apply (Graph_within_target g start current (nb, d)). exact He.
  - pose proof (Graph_relax_blind current s (nb, d) Iblind) as B.
    rewrite Graph_relax_blind_step in B.
    assert (E1 : Graph.includes (Graph.closedSet s) nb = false)
      by (apply Graph_includes_false; exact Ec).
    assert (E2 : Graph.includes (Graph.openSet s) nb = false)
      by (apply Graph_includes_false; exact Eo).
    rewrite E1, E2 in B. exact B.
  - exact Iexcl.
Qed.

Lemma Graph_relax_fold_invariant (current : Graph.Node) :
  forall (l : Graph.Links) (s : Graph.search),
    incl l (Graph.links g current) ->
    invariant s ->
    In current (Graph.closedSet s) ->
    current = start \/ is_Some (Graph.cameFrom s !! current) ->
    invariant (fold_left (Graph.relax current Graph.Infinity) l s)
    /\ Graph.closedSet (fold_left (Graph.relax current Graph.Infinity) l s)
       = Graph.closedSet s.
Proof.
  induction l as [| e l IH]; intros s Hl I Hcur Hroot; cbn [fold_left].
  - split; [exact I | reflexivity].
  - destruct (Graph_relax_invariant current s e I Hcur Hroot (Hl e (or_introl eq_refl)))
      as (I' & Hc & Hmono).
    destruct (IH (Graph.relax current Graph.Infinity s e)) as [I'' Hc''].
    + intros x Hx. apply Hl. right. exact Hx.
    + exact I'.
    + rewrite Hc. exact Hcur.
    + destruct Hroot as [-> | H]; [left; reflexivity | right; apply Hmono; exact H].
    + split; [exact I'' | rewrite Hc''; exact Hc].
Qed.

Lemma Graph_lowest_In (fS : gmap Graph.Node Graph.score) (first : Graph.Node)
      (rest : list Graph.Node) :
  In (Graph.lowest fS first rest) (first :: rest).
Proof.
  unfold Graph.lowest.
  generalize (Graph.orInfinity (fS !! first)) as sc0.
  assert (G : forall (l : list Graph.Node) (c : Graph.Node) (sc : Graph.score),
            let r := fst (fold_left
                            (fun acc node =>
                               let '(current, lowestScore) := acc in
                               let sc := Graph.orInfinity (fS !! node) in
                               if Graph.lt sc lowestScore then (node, sc)
                               else (current, lowestScore))
                            l (c, sc)) in
            r = c \/ In r l).
  { induction l as [| a l IH]; intros c sc; cbn [fold_left fst].
    - left. reflexivity.
    - destruct (Graph.lt (Graph.orInfinity (fS !! a)) sc).
      + destruct (IH a (Graph.orInfinity (fS !! a))) as [H | H];
          [right; left; symmetry; exact H | right; right; exact H].
      + destruct (IH c sc) as [H | H]; [left; exact H | right; right; exact H]. }
  intros sc0. destruct (G rest first sc0) as [H | H];
    [left; symmetry; exact H | right; exact H].
Qed.

Lemma Graph_remove1_In (l : list Graph.Node) (a n : Graph.Node) :
  In n (Graph.remove1 l a) -> In n l.
Proof.
  induction l as [| b l IH]; cbn [Graph.remove1]; [intros [] |].
  destruct (a =? b)%nat; [intros H; right; exact H |].
  intros [<- | H]; [left; reflexivity | right; apply IH; exact H].
Qed.

Lemma Graph_remove1_keeps (l : list Graph.Node) (a n : Graph.Node) :
  In n l -> n <> a -> In n (Graph.remove1 l a).
Proof.
  induction l as [| b l IH]; cbn [Graph.remove1]; [intros [] |].
  intros [<- | H] Hne.
  - destruct (Nat.eqb_spec a b); [congruence | left; reflexivity].
  - destruct (Nat.eqb_spec a b); [exact H | right; apply IH; assumption].
Qed.

Lemma Graph_remove1_NoDup (l : list Graph.Node) (a : Graph.Node) :
  NoDup l -> NoDup (Graph.remove1 l a) /\ ~ In a (Graph.remove1 l a).
Proof.
  induction l as [| b l IH]; cbn [Graph.remove1]; intros H.
  - split; [constructor | intros []].
  - apply NoDup_cons in H. destruct H as [Hb Hl].
    destruct (Nat.eqb_spec a b) as [-> | Hne].
    + split; [exact Hl |]. intros Hin. apply Hb. apply list_elem_of_In. exact Hin.
    + destruct (IH Hl) as [Hn Ha]. split.
      * apply NoDup_cons. split; [| exact Hn].
        intros Hin. apply Hb. apply list_elem_of_In.
        apply (Graph_remove1_In l a b). apply list_elem_of_In. exact Hin.
      * intros [E | Hin]; [congruence | contradiction].
Qed.

(** Following the recorded predecessors ends within as many steps as
    there are entries, at [start], along links. *)
Lemma Graph_buildPath_total (cf : gmap Graph.Node Graph.Node) (r : Graph.Node -> nat) :
  (forall n c, cf !! n = Some c -> (r c < r n)%nat) ->
  forall (fuel : nat) (current : Graph.Node) (path : list Graph.Node),
    (r current <= fuel)%nat \/ cf !! current = None ->
    exists p, Graph.buildPath fuel cf current path = Some p.
Proof.
  intros Hr. induction fuel as [| fuel IH]; intros current path Hf.
  - cbn [Graph.buildPath]. destruct (cf !! current) as [prev |] eqn:E;
      [| eexists; reflexivity].
    destruct Hf as [Hf | Hf]; [| discriminate].
    pose proof (Hr _ _ E). lia.
  - cbn [Graph.buildPath]. destruct (cf !! current) as [prev |] eqn:E;
      [| eexists; reflexivity].
    apply IH. left. pose proof (Hr _ _ E).
    destruct Hf as [Hf | Hf]; [lia | discriminate].
Qed.

Lemma Graph_buildPath_sound (cf : gmap Graph.Node Graph.Node) :
  (forall n c, cf !! n = Some c -> is_Some (Graph.get (Graph.links g c) n)) ->
  (forall n c, cf !! n = Some c -> c = start \/ is_Some (cf !! c)) ->
  (forall n, is_Some (cf !! n) -> ~ In n exclude) ->
  forall (fuel : nat) (current : Graph.Node) (rest p : list Graph.Node),
    current = start \/ is_Some (cf !! current) ->
    Graph.linked g current rest ->
    (forall n, In n (current :: rest) -> n = start \/ ~ In n exclude) ->
    Graph.buildPath fuel cf current (current :: rest) = Some p ->
    exists tl : list Graph.Node,
      p = start :: tl
      /\ List.last p start = List.last (current :: rest) start
      /\ Graph.linked g start tl
      /\ (forall n, In n p -> n = start \/ ~ In n exclude).
Proof.
  intros Hlink Hroot Havoid.
  induction fuel as [| fuel IH]; intros current rest p Hc Hl Hn Hb;
    cbn [Graph.buildPath] in Hb.
  - destruct (cf !! current) as [prev |] eqn:E; [discriminate |].
    injection Hb as <-.
    destruct Hc as [-> | [y Hy]]; [| congruence].
    exists rest. repeat split; [exact Hl | exact Hn].
  - destruct (cf !! current) as [prev |] eqn:E.
    + destruct (IH prev (current :: rest) p) as (tl & Hp & Hlast & Hlk & Hav).
      * eapply Hroot; exact E.
      * split; [eapply Hlink; exact E | exact Hl].
      * intros n [<- | Hin]; [| apply Hn; exact Hin].
        destruct (Hroot _ _ E) as [Hs | Hs]; [left; exact Hs | right; apply Havoid; exact Hs].
      * exact Hb.
      * exists tl. repeat split; [exact Hp | | exact Hlk | exact Hav].
        rewrite Hlast. reflexivity.
    + injection Hb as <-.
      destruct Hc as [-> | [y Hy]]; [| congruence].
      exists rest. repeat split; [exact Hl | exact Hn].
Qed.

Lemma Graph_priceLoop_linked : forall (rest : list Graph.Node) (a : Graph.Node) (q : Q),
  Graph.linked g a rest -> exists price, Graph.priceLoop g q a rest = Some price.
Proof.
  induction rest as [| b rest IH]; intros a q H; cbn [Graph.priceLoop].
  - eexists; reflexivity.
  - destruct H as [[w Hw] Hl]. rewrite Hw. apply IH. exact Hl.
Qed.

Lemma Graph_loop_spec (goal : Graph.Node) : forall (fuel : nat) (s : Graph.search),
  invariant s ->
  (forall path, Graph.loop fuel g goal s = Some (Some path) ->
                Graph.validPath g start goal exclude path)
  /\ ((size (Graph.within g start ∖ list_to_set (Graph.closedSet s)) < fuel)%nat ->
      Graph.loop fuel g goal s <> None).
Proof.
  induction fuel as [| fuel IH]; intros s I.
  - cbn [Graph.loop]. split; [| lia].
    intros path H. destruct (Graph.openSet s); discriminate H.
  - cbn [Graph.loop].
    destruct (Graph.openSet s) as [| first rest] eqn:Eopen.
    + split; [intros path H; discriminate H | discriminate].
    + pose proof (Graph_lowest_In (Graph.fScore s) first rest) as Hin.
      rewrite <- Eopen in Hin.
      set (current := Graph.lowest (Graph.fScore s) first rest) in *.
      pose proof I as [Ilink Iroot Iopen Istart Iavoid Irank Iclosed Iseen Idisj Inodup
                             Iwithin Iblind Iexcl].
      destruct (Nat.eqb_spec current goal) as [Eg | Hng].
      * destruct Irank as (r & Hr0 & Hr).
        destruct (Iopen current Hin) as [c Hc].
        destruct (Graph_buildPath_total (Graph.cameFrom s) r
                    (fun n c H => proj1 (Hr n c H))
                    (size (Graph.cameFrom s)) current [current]
                    (or_introl (proj2 (Hr _ _ Hc)))) as [p Hp].
        rewrite Hp. split; [| discriminate].
        intros path H. injection H as <-.
        destruct (Graph_buildPath_sound (Graph.cameFrom s) Ilink Iroot Iavoid
                    (size (Graph.cameFrom s)) current [] p) as (tl & Ep & Hlast & Hlk & Hav).
        -- right. eexists; exact Hc.
        -- exact Logic.I.
        -- intros n [<- | []]. right. apply Iavoid. eexists; exact Hc.
        -- exact Hp.
        -- unfold Graph.validPath. subst p. repeat split.
           ++ rewrite Hlast. cbn [List.last]. exact Eg.
           ++ cbn [Graph.calculatePrice]. apply Graph_priceLoop_linked. exact Hlk.
           ++ exact Hav.
      * rewrite <- Eopen.
        set (s1 := Graph.mkSearch (Graph.closedSet s ++ [current])
                                  (Graph.remove1 (Graph.openSet s) current)
                                  (Graph.cameFrom s) (Graph.gScore s) (Graph.fScore s)).
        assert (Hcur1 : In current (Graph.closedSet s1))
          by (apply in_or_app; right; left; reflexivity).
        destruct (Graph_remove1_NoDup (Graph.openSet s) current Inodup) as [Hnd Hgone].
        assert (I1 : invariant s1).
        { constructor; cbn [s1 Graph.cameFrom Graph.openSet Graph.closedSet].
          - exact Ilink.
          - exact Iroot.
          - intros n Hn. apply Iopen. eapply Graph_remove1_In; exact Hn.
          - exact Istart.
          - exact Iavoid.
          - exact Irank.
          - apply in_or_app. left. exact Iclosed.
          - intros n Hn. destruct (decide (n = current)) as [-> | Hne].
            + right. apply in_or_app. right. left. reflexivity.
            + destruct (Iseen n Hn) as [H | H].
              * left. apply Graph_remove1_keeps; assumption.
              * right. apply in_or_app. left. exact H.
          - intros n Hn Hc. apply in_app_or in Hc. destruct Hc as [Hc | [<- | []]].
            + apply (Idisj n); [eapply Graph_remove1_In; exact Hn | exact Hc].
            + contradiction.
          - exact Hnd.
          - intros n Hn. apply Iwithin. eapply Graph_remove1_In; exact Hn.
          - intros k. exact (Iblind k).
          - intros x Hx. apply in_or_app. left. apply Iexcl. exact Hx. }
        destruct (Iblind current) as [Hg _].
        change (Graph.gScore s1) with (Graph.gScore s). rewrite Hg.
        destruct (Graph_relax_fold_invariant current (Graph.links g current) s1
                    (fun x H => H) I1 Hcur1 (or_intror (Iopen current Hin)))
          as [I2 Hc2].
        destruct (IH _ I2) as [Hsound Hterm].
        split; [exact Hsound |].
        intros Hsize. apply Hterm. rewrite Hc2. cbn [s1 Graph.closedSet].
        rewrite list_to_set_app_L.
        assert (Hw : current ∈ Graph.within g start) by (apply Iwithin; exact Hin).
        assert (Hcl : current ∉ (list_to_set (Graph.closedSet s) : gset Graph.Node)).
        { rewrite elem_of_list_to_set. intros H. apply list_elem_of_In in H.
          exact (Idisj current Hin H). }
        pose proof (gset_size_remove (Graph.within g start)
                      (list_to_set (Graph.closedSet s)) current Hw Hcl) as Hsub.
        cbn [list_to_set foldr] in *.
        unfold Graph.Node in *. lia.
Qed.

Lemma Graph_aStar_first_step (goal : Graph.Node) (fuel : nat) :
  Graph.aStar (S fuel) g start goal exclude
  = if (start =? goal)%nat then Some (Some [start])
    else Graph.loop fuel g goal
           (fold_left (Graph.relax start Graph.Infinity) (Graph.links g start)
              (Graph.mkSearch (exclude ++ [start]) [] ∅
                              {[start := Graph.Fin 0]} {[start := Graph.Fin 0]})).
Proof.
  unfold Graph.aStar. cbn [Graph.loop Graph.openSet].
  change (Graph.lowest _ start []) with start.
  destruct (start =? goal)%nat; [reflexivity |].
  cbn [Graph.remove1 Graph.cameFrom Graph.gScore Graph.fScore Graph.closedSet].
  rewrite Nat.eqb_refl. unfold Graph.Node in *.
  rewrite lookup_singleton_eq. reflexivity.
Qed.

Lemma Graph_aStar_second_state :
  invariant (Graph.mkSearch (exclude ++ [start]) [] ∅
                            {[start := Graph.Fin 0]} {[start := Graph.Fin 0]}).
Proof.
  constructor; cbn [Graph.cameFrom Graph.openSet Graph.closedSet].
  - intros n c H. rewrite lookup_empty in H. discriminate.
  - intros n c H. rewrite lookup_empty in H. discriminate.
  - intros n [].
  - apply lookup_empty.
  - intros n [c H]. rewrite lookup_empty in H. discriminate.
  - exists (fun _ => 0%nat). split; [reflexivity |].
    intros n c H. rewrite lookup_empty in H. discriminate.
  - apply in_or_app. right. left. reflexivity.
  - intros n [c H]. rewrite lookup_empty in H. discriminate.
  - intros n [].
  - constructor.
  - intros n [].
  - intros k. cbn [Graph.gScore Graph.fScore]. unfold Graph.Node in *.
    destruct (decide (start = k)) as [-> | Hne].
    + rewrite lookup_singleton_eq. split; reflexivity.
    + rewrite lookup_singleton_ne by exact Hne. split; reflexivity.
  - intros x Hx. apply in_or_app. left. exact Hx.
Qed.

Lemma Graph_aStar_second_loop (goal : Graph.Node) (fuel : nat) :
  (forall path,
      Graph.loop fuel g goal
        (fold_left (Graph.relax start Graph.Infinity) (Graph.links g start)
           (Graph.mkSearch (exclude ++ [start]) [] ∅
                           {[start := Graph.Fin 0]} {[start := Graph.Fin 0]}))
      = Some (Some path) ->
      Graph.validPath g start goal exclude path)
  /\ ((size (Graph.within g start) < fuel)%nat ->
      Graph.loop fuel g goal
        (fold_left (Graph.relax start Graph.Infinity) (Graph.links g start)
           (Graph.mkSearch (exclude ++ [start]) [] ∅
                           {[start := Graph.Fin 0]} {[start := Graph.Fin 0]}))
      <> None).
Proof.
  destruct (Graph_relax_fold_invariant start (Graph.links g start)
              (Graph.mkSearch (exclude ++ [start]) [] ∅
                              {[start := Graph.Fin 0]} {[start := Graph.Fin 0]})
              (fun x H => H) Graph_aStar_second_state
              ltac:(apply in_or_app; right; left; reflexivity)
              (or_introl eq_refl)) as [I2 Hc2].
  destruct (Graph_loop_spec goal fuel _ I2) as [Hsound Hterm].
  split; [exact Hsound |].
  intros Hsize. apply Hterm.
  eapply Nat.le_lt_trans; [| exact Hsize].
  apply subseteq_size. apply subseteq_difference_l. reflexivity.
Qed.

(** X10. Whatever [aStar] returns other than [null] is a path from
    [start] to [goal] whose every step follows a link (its price is a
    number, not [NaN]) and whose nodes, [start] apart, are not excluded. *)
Theorem Graph_aStar_returns_linked_path (goal : Graph.Node) (fuel : nat)
        (path : list Graph.Node) :
  Graph.aStar fuel g start goal exclude = Some (Some path) ->
  Graph.validPath g start goal exclude path.
Proof.
  destruct fuel as [| fuel]; [intros H; discriminate H |].
  rewrite Graph_aStar_first_step.
  destruct (Nat.eqb_spec start goal) as [<- | Hne].
  - intros H. injection H as <-. unfold Graph.validPath. repeat split.
    + exists 0. reflexivity.
    + intros n [<- | []]. left. reflexivity.
  - apply (proj1 (Graph_aStar_second_loop goal fuel)).
Qed.

(** X11. The search terminates: once the fuel exceeds the number of
    nodes within reach by two, [aStar] returns a path or [null]; the loop
    closes one node per round and never opens a closed one. *)
Theorem Graph_aStar_terminates (goal : Graph.Node) (fuel : nat) :
  (size (Graph.within g start) + 2 <= fuel)%nat ->
  exists result : option (list Graph.Node),
    Graph.aStar fuel g start goal exclude = Some result.
Proof.
  intros Hf. destruct fuel as [| fuel]; [lia |].
  rewrite Graph_aStar_first_step.
  destruct (start =? goal)%nat; [eexists; reflexivity |].
  pose proof (proj2 (Graph_aStar_second_loop goal fuel) ltac:(lia)) as H.
  destruct (Graph.loop fuel g goal _) as [result |]; [eexists; reflexivity | congruence].
Qed.

End AStarFacts.

Lemma Graph_aStar_returns_linked_path_witness :
  Graph.aStar 10 Inputs.triangle 0%nat 2%nat [] = Some (Some [0; 2]%nat)
  /\ Graph.validPath Inputs.triangle 0%nat 2%nat [] [0; 2]%nat.
Proof.
  assert (H : Graph.aStar 10 Inputs.triangle 0%nat 2%nat [] = Some (Some [0; 2]%nat))
    by (vm_compute; reflexivity).
  split; [exact H |].
  exact (Graph_aStar_returns_linked_path Inputs.triangle 0%nat [] 2%nat 10 [0; 2]%nat H).
Defined.

Lemma Graph_aStar_terminates_witness :
  (size (Graph.within Inputs.triangle 0%nat) + 2 <= 5)%nat
  /\ exists result : option (list Graph.Node),
       Graph.aStar 5 Inputs.triangle 0%nat 2%nat [1%nat] = Some result.
Proof.
  assert (H : (size (Graph.within Inputs.triangle 0%nat) + 2 <= 5)%nat).
  { vm_compute. repeat constructor. }
  split; [exact H |].
  exact (Graph_aStar_terminates Inputs.triangle 0%nat [1%nat] 2%nat 5 H).
Defined.

(** *** The weights do not matter: an instance *)

Lemma Graph_set_same_keys : forall (l l' : Graph.Links) (k : Graph.Node) (v v' : Q),
  map fst l = map fst l' ->
  map fst (Graph.set l k v) = map fst (Graph.set l' k v').
Proof.
  induction l as [| [k0 v0] l IH]; intros l' k v v' H; destruct l' as [| [k1 v1] l'];
    try discriminate H.
  - reflexivity.
  - cbn [map fst] in H. injection H as <- H.
    cbn [Graph.set]. destruct (k =? k0)%nat; cbn [map fst].
    + rewrite H. reflexivity.
    + rewrite (IH l' k v v' H). reflexivity.
Qed.

Lemma Graph_link_same_keys (g g' : Graph.t) (x y : Graph.Node) (w w' : Q) (s : bool) :
  (forall a, map fst (Graph.links g a) = map fst (Graph.links g' a)) ->
  forall a, map fst (Graph.links (Graph.link x y w s g) a)
            = map fst (Graph.links (Graph.link x y w' s g') a).
Proof.
  intros H a. unfold Graph.link.
  destruct s; rewrite !Graph_links_insert.
  - destruct (a =? y)%nat.
    + apply Graph_set_same_keys. destruct (y =? x)%nat; [| apply H].
      apply Graph_set_same_keys. apply H.
    + destruct (a =? x)%nat; [| apply H].
      apply Graph_set_same_keys. apply H.
  - destruct (a =? x)%nat; [| apply H].
    apply Graph_set_same_keys. apply H.
Qed.

Lemma Graph_aStar_ignores_weights_witness :
  (forall a, map fst (Graph.links Inputs.triangle a)
             = map fst (Graph.links Inputs.flatTriangle a))
  /\ Graph.aStar 10 Inputs.triangle 0%nat 2%nat []
     = Graph.aStar 10 Inputs.flatTriangle 0%nat 2%nat [].
Proof.
  assert (H : forall a, map fst (Graph.links Inputs.triangle a)
                        = map fst (Graph.links Inputs.flatTriangle a)).
  { unfold Inputs.triangle, Inputs.flatTriangle.
    repeat apply Graph_link_same_keys. intros a. reflexivity. }
  split; [exact H |].
  exact (Graph_aStar_ignores_weights Inputs.triangle Inputs.flatTriangle 0%nat 2%nat [] 10 H).
Defined.

(** ** Polygon: area under translation, rectangles *)

Lemma Shoelace_path_offset (d : Point.t) : forall (l : list Point.t) (a : Point.t),
  Shoelace.path (Point.add a d) (map (fun v => Point.add v d) l)
  == Shoelace.path a l + Shoelace.cr a d - Shoelace.cr (List.last l a) d.
Proof.
  induction l as [| b l IH]; intros a.
  - cbn [map Shoelace.path List.last]. ring.
  - cbn [map Shoelace.path]. rewrite IH, last_cons_default.
    unfold Shoelace.cr, Point.add. cbn [Point.x Point.y]. ring.
Qed.

(** X13. Moving a polygon does not change its signed area:
    [offset] preserves [square]. *)
Theorem Polygon_offset_preserves_square (p : Polygon.t) (d : Point.t) :
  Polygon.square (Polygon.offset p d) == Polygon.square p.
Proof.
  rewrite !Polygon_square_shoelace.
  destruct p as [| a l]; [reflexivity |].
  unfold Polygon.offset. cbn [map Shoelace.closed].
  assert (E : (map (fun v => Point.add v d) l ++ [Point.add a d])%list
              = map (fun v => Point.add v d) (l ++ [a])).
  { rewrite map_app. reflexivity. }
  rewrite E, Shoelace_path_offset, last_app_singleton. ring.
Qed.

Lemma Qltb_intro (a b : Q) : a < b -> Qltb a b = true.
Proof.
  intros H. unfold Qltb. destruct (Qle_bool b a) eqn:E; [| reflexivity].
  apply Qle_bool_iff in E. lra.
Qed.

(** X14. [Polygon.rect(w, h)] has signed area [w * h], its vertices
    average to the origin, and for positive [w] and [h] it is convex in
    the sense of [isConvex] (counter-clockwise). *)
Theorem Polygon_rect_area_and_shape (w h : Q) :
  Polygon.square (Polygon.rect w h) == w * h
  /\ (exists c, Polygon.center (Polygon.rect w h) = Some c /\ Point.same c Point.origin)
  /\ (0 < w -> 0 < h -> Polygon.isConvex (Polygon.rect w h) = true).
Proof.
  split; [| split].
  - rewrite Polygon_square_shoelace.
    unfold Polygon.rect, Shoelace.closed. cbn [app Shoelace.path].
    unfold Shoelace.cr. cbn [Point.x Point.y]. field.
  - eexists. split; [reflexivity |].
    unfold Point.same, Point.scale, Point.add, Point.origin, Polygon.rect.
    cbn [fold_left Point.x Point.y length Z.of_nat Pos.of_succ_nat Pos.succ inject_Z].
    split; field.
  - intros Hw Hh.
    unfold Polygon.isConvex, Polygon.isConvexVertex, Polygon.rect, Polygon.get, GeomUtils.cross.
    cbn [length seq forallb nth Nat.modulo Nat.divmod Nat.add Nat.sub fst snd
         Point.x Point.y].
    assert (Hwh : 0 < w * h) by nra.
    rewrite !andb_true_iff.
    repeat split; apply Qltb_intro;
      match goal with
      | |- 0 < ?e => assert (E : e == w * h) by field; rewrite E; exact Hwh
      end.
Qed.

Lemma Polygon_rect_area_and_shape_witness :
  0 < 4 /\ 0 < 3
  /\ Polygon.square (Polygon.rect 4 3) == 4 * 3
  /\ Polygon.isConvex (Polygon.rect 4 3) = true.
Proof.
  assert (H4 : 0 < 4) by reflexivity.
  assert (H3 : 0 < 3) by reflexivity.
  split; [exact H4 | split; [exact H3 |]].
  split; [exact (proj1 (Polygon_rect_area_and_shape 4 3))
         | exact (proj2 (proj2 (Polygon_rect_area_and_shape 4 3)) H4 H3)].
Defined.

(** ** Polygon: the mean of the vertices *)

Lemma Point_sum_fold : forall (l : list Point.t) (c0 : Point.t),
  Point.x (fold_left Point.add l c0) == Point.x c0 + fold_right Qplus 0 (map Point.x l)
  /\ Point.y (fold_left Point.add l c0) == Point.y c0 + fold_right Qplus 0 (map Point.y l).
Proof.
  induction l as [| a l IH]; intros c0; cbn [fold_left map fold_right].
  - split; ring.
  - destruct (IH (Point.add c0 a)) as [Hx Hy]. rewrite Hx, Hy.
    unfold Point.add. cbn [Point.x Point.y]. split; ring.
Qed.

Lemma Qsum_app (l1 l2 : list Q) :
  fold_right Qplus 0 (l1 ++ l2) == fold_right Qplus 0 l1 + fold_right Qplus 0 l2.
Proof.
  induction l1 as [| a l1 IH]; cbn [app fold_right]; [ring | rewrite IH; ring].
Qed.

Lemma Qsum_shift (d : Q) (l : list Q) :
  fold_right Qplus 0 (map (fun v => v + d) l)
  == fold_right Qplus 0 l + inject_Z (Z.of_nat (length l)) * d.
Proof.
  induction l as [| a l IH].
  - cbn [map fold_right length Z.of_nat]. change (inject_Z 0) with 0. ring.
  - cbn [map fold_right]. rewrite IH.
    change (length (a :: l)) with (S (length l)).
    rewrite Nat2Z.inj_succ. unfold Z.succ. rewrite inject_Z_plus.
    change (inject_Z 1) with 1. ring.
Qed.

Lemma inject_Z_length_pos {A : Type} (a : A) (l : list A) :
  0 < inject_Z (Z.of_nat (length (a :: l))).
Proof.
  change 0 with (inject_Z 0). rewrite <- Zlt_Qlt. cbn [length]. lia.
Qed.

Lemma Qmean_shift (X' X n d : Q) :
  0 < n -> X' == X + n * d -> X' * (1 / n) == X * (1 / n) + d.
Proof. intros Hn E. rewrite E. field. lra. Qed.

(** X15. [center] follows the polygon: the mean of the vertices of
    [offset p d] is the mean of the vertices of [p], moved by [d]. *)
Theorem Polygon_center_of_offset (p : Polygon.t) (d : Point.t) :
  match Polygon.center (Polygon.offset p d), Polygon.center p with
  | Some c', Some c => Point.same c' (Point.add c d)
  | None, None => p = []
  | _, _ => False
  end.
Proof.
  destruct p as [| a l]; [reflexivity |].
  pose proof (inject_Z_length_pos a l) as Hn.
  destruct (Point_sum_fold (map (fun v => Point.add v d) (a :: l)) Point.origin) as [Hx Hy].
  destruct (Point_sum_fold (a :: l) Point.origin) as [Hx0 Hy0].
  assert (Ex : map Point.x (map (fun v => Point.add v d) (a :: l))
               = map (fun v => v + Point.x d) (map Point.x (a :: l))).
  { rewrite !map_map. reflexivity. }
  assert (Ey : map Point.y (map (fun v => Point.add v d) (a :: l))
               = map (fun v => v + Point.y d) (map Point.y (a :: l))).
  { rewrite !map_map. reflexivity. }
  rewrite Ex, Qsum_shift, length_map in Hx.
  rewrite Ey, Qsum_shift, length_map in Hy.
  change (Polygon.center (Polygon.offset (a :: l) d))
    with (Some (Point.scale
                  (fold_left Point.add (map (fun v => Point.add v d) (a :: l)) Point.origin)
                  (1 / inject_Z (Z.of_nat (length (map (fun v => Point.add v d) (a :: l))))))).
  change (Polygon.center (a :: l))
    with (Some (Point.scale (fold_left Point.add (a :: l) Point.origin)
                            (1 / inject_Z (Z.of_nat (length (a :: l)))))).
  rewrite length_map.
  unfold Point.same, Point.scale. cbn [Point.add Point.x Point.y].
  cbn [Point.origin Point.x Point.y] in Hx, Hy, Hx0, Hy0.
  split; apply Qmean_shift; try exact Hn.
  - rewrite Hx. rewrite Hx0. ring.
  - rewrite Hy. rewrite Hy0. ring.
Qed.

Lemma map_nth_seq {A : Type} (d : A) : forall l : list A,
  map (fun i => nth i l d) (seq 0 (length l)) = l.
Proof.
  induction l as [| a l IH]; [reflexivity |].
  cbn [length seq map nth]. rewrite <- seq_shift, map_map. cbn [nth].
  rewrite IH. reflexivity.
Qed.

Lemma Polygon_next_vertices (a : Point.t) (l : list Point.t) :
  map (fun i => Polygon.get (a :: l) ((i + 1) mod length (a :: l))) (seq 0 (length (a :: l)))
  = (l ++ [a])%list.
Proof.
  transitivity (map (fun i => nth i (l ++ [a]) Point.origin) (seq 0 (length (l ++ [a]))));
    [| apply map_nth_seq].
  rewrite length_app. cbn [length]. rewrite Nat.add_1_r.
  apply map_ext_in. intros i Hi. apply in_seq in Hi.
  pose proof (Polygon_edge_nth a l i ltac:(cbn [length]; lia)) as E.
  apply (f_equal snd) in E. exact E.
Qed.

Lemma Polygon_prev_vertices (l : list Point.t) (z : Point.t) :
  map (fun i => Polygon.get (l ++ [z])
                  ((i + length (l ++ [z]) - 1) mod length (l ++ [z])))
      (seq 0 (length (l ++ [z])))
  = z :: l.
Proof.
  rewrite length_app. cbn [length]. rewrite Nat.add_1_r.
  cbn [seq map]. f_equal.
  - unfold Polygon.get. rewrite Nat.add_0_l.
    replace (S (length l) - 1)%nat with (length l) by lia.
    rewrite Nat.mod_small by lia.
    rewrite app_nth2 by lia. rewrite Nat.sub_diag. reflexivity.
  - transitivity (map (fun i => nth i l Point.origin) (seq 0 (length l)));
      [| apply map_nth_seq].
    rewrite <- seq_shift, map_map.
    apply map_ext_in. intros i Hi. apply in_seq in Hi.
    unfold Polygon.get.
    replace (S i + S (length l) - 1)%nat with (i + 1 * S (length l))%nat by lia.
    rewrite Nat.Div0.mod_add, Nat.mod_small by lia.
    apply app_nth1. lia.
Qed.

Lemma Qsum_smooth (a b c : nat -> Q) (f k : Q) : forall idx : list nat,
  fold_right Qplus 0 (map (fun i => (a i + b i * f + c i) / k) idx)
  == (fold_right Qplus 0 (map a idx) + fold_right Qplus 0 (map b idx) * f
      + fold_right Qplus 0 (map c idx)) / k.
Proof.
  induction idx as [| i idx IH]; cbn [map fold_right].
  - unfold Qdiv. ring.
  - rewrite IH. unfold Qdiv. ring.
Qed.

Lemma Qsum_rotate_l (a : Q) (l : list Q) :
  fold_right Qplus 0 (l ++ [a]) == fold_right Qplus 0 (a :: l).
Proof. rewrite Qsum_app. cbn [fold_right]. ring. Qed.

Lemma Polygon_smooth_sum (h : Point.t -> Q) (p : Polygon.t) (f : Q) :
  ~ 2 + f == 0 ->
  fold_right Qplus 0
    (map (fun i =>
            (h (Polygon.get p ((i + length p - 1) mod length p))
             + h (Polygon.get p i) * f
             + h (Polygon.get p ((i + 1) mod length p))) / (2 + f))
         (seq 0 (length p)))
  == fold_right Qplus 0 (map h p).
Proof.
  intros Hk. destruct p as [| a l]; [reflexivity |].
  rewrite (Qsum_smooth
             (fun i => h (Polygon.get (a :: l) ((i + length (a :: l) - 1) mod length (a :: l))))
             (fun i => h (Polygon.get (a :: l) i))
             (fun i => h (Polygon.get (a :: l) ((i + 1) mod length (a :: l))))).
  assert (E1 : map (fun i => h (Polygon.get (a :: l) i)) (seq 0 (length (a :: l)))
               = map h (a :: l)).
  { rewrite <- (map_map (fun i => Polygon.get (a :: l) i) h).
    unfold Polygon.get. rewrite map_nth_seq. reflexivity. }
  assert (E2 : map (fun i => h (Polygon.get (a :: l) ((i + 1) mod length (a :: l))))
                   (seq 0 (length (a :: l)))
               = map h (l ++ [a])).
  { rewrite <- (map_map (fun i => Polygon.get (a :: l) ((i + 1) mod length (a :: l))) h).
    rewrite Polygon_next_vertices. reflexivity. }
  assert (E0 : exists l' z,
             a :: l = (l' ++ [z])%list
             /\ map (fun i => h (Polygon.get (a :: l)
                                    ((i + length (a :: l) - 1) mod length (a :: l))))
                    (seq 0 (length (a :: l)))
                = map h (z :: l')).
  { destruct (exists_last (l := a :: l) ltac:(discriminate)) as (l' & z & E).
    exists l', z. split; [exact E |].
    rewrite <- (map_map (fun i => Polygon.get (a :: l)
                                    ((i + length (a :: l) - 1) mod length (a :: l))) h).
    rewrite E, Polygon_prev_vertices. reflexivity. }
  destruct E0 as (l' & z & Ep & E0).
  rewrite E0, E1, E2.
  assert (S2 : fold_right Qplus 0 (map h (l ++ [a])) == fold_right Qplus 0 (map h (a :: l))).
  { rewrite map_app. cbn [map]. apply Qsum_rotate_l. }
  assert (S0 : fold_right Qplus 0 (map h (z :: l')) == fold_right Qplus 0 (map h (a :: l))).
  { rewrite Ep, map_app. cbn [map]. symmetry. apply Qsum_rotate_l. }
  rewrite S2, S0. field. exact Hk.
Qed.

(** X16. Smoothing does not move a polygon's centre: for a factor other
    than [-2], [smoothVertexEq] keeps the number of vertices and their
    mean. *)
Theorem Polygon_smoothVertexEq_keeps_center (p : Polygon.t) (factor : Q) :
  ~ 2 + factor == 0 ->
  length (Polygon.smoothVertexEq p factor) = length p
  /\ match Polygon.center (Polygon.smoothVertexEq p factor), Polygon.center p with
     | Some c', Some c => Point.same c' c
     | None, None => p = []
     | _, _ => False
     end.
Proof.
  intros Hk. unfold Polygon.smoothVertexEq.
  destruct (Nat.ltb_spec (length p) 3) as [Hlt | Hge].
  - split; [reflexivity |].
    destruct (Polygon.center p) as [c |] eqn:E.
    + split; reflexivity.
    + destruct p; [reflexivity | discriminate E].
  - split; [rewrite length_map, length_seq; reflexivity |].
    destruct p as [| a l]; [cbn [length] in Hge; lia |].
    set (F := fun i : nat =>
                Point.mk
                  ((Point.x (Polygon.get (a :: l) ((i + length (a :: l) - 1) mod length (a :: l)))
                    + Point.x (Polygon.get (a :: l) i) * factor
                    + Point.x (Polygon.get (a :: l) ((i + 1) mod length (a :: l))))
                   / (2 + factor))
                  ((Point.y (Polygon.get (a :: l) ((i + length (a :: l) - 1) mod length (a :: l)))
                    + Point.y (Polygon.get (a :: l) i) * factor
                    + Point.y (Polygon.get (a :: l) ((i + 1) mod length (a :: l))))
                   / (2 + factor))).
    assert (Hlen : length (map F (seq 0 (length (a :: l)))) = length (a :: l))
      by (rewrite length_map, length_seq; reflexivity).
    destruct (map F (seq 0 (length (a :: l)))) as [| b m] eqn:Em;
      [cbn [length] in Hlen; discriminate Hlen |].
    unfold Polygon.center. rewrite Hlen. rewrite <- Em.
    destruct (Point_sum_fold (map F (seq 0 (length (a :: l)))) Point.origin) as [Hx Hy].
    destruct (Point_sum_fold (a :: l) Point.origin) as [Hx0 Hy0].
    rewrite map_map in Hx, Hy.
    unfold F in Hx, Hy. cbn [Point.x Point.y] in Hx, Hy.
    rewrite (Polygon_smooth_sum Point.x (a :: l) factor Hk) in Hx.
    rewrite (Polygon_smooth_sum Point.y (a :: l) factor Hk) in Hy.
    unfold Point.same, Point.scale. cbn [Point.x Point.y].
    split; (apply Qmult_comp; [| reflexivity]).
    + rewrite Hx0. exact Hx.
    + rewrite Hy0. exact Hy.
Qed.

Lemma Polygon_smoothVertexEq_keeps_center_witness :
  ~ 2 + 3 == 0
  /\ length (Polygon.smoothVertexEq Inputs.square2 3) = length Inputs.square2
  /\ match Polygon.center (Polygon.smoothVertexEq Inputs.square2 3),
           Polygon.center Inputs.square2 with
     | Some c', Some c => Point.same c' c
     | None, None => Inputs.square2 = []
     | _, _ => False
     end.
Proof.
  assert (Hk : ~ 2 + 3 == 0) by (intros H; discriminate H).
  split; [exact Hk |].
  exact (Polygon_smoothVertexEq_keeps_center Inputs.square2 3 Hk).
Defined.

(** ** Polygon.shrink *)

(** X17. [shrink] changes nothing when no distance is positive; in
    particular [shrinkEq(d)] with [d <= 0] returns the polygon as it is. *)
Theorem Polygon_shrink_without_positive_distance (Math_sqrt : Q -> Q)
        (p : Polygon.t) (distances : list Q) (d : Q) :
  (Forall (fun x => x <= 0) distances -> Polygon.shrink Math_sqrt p distances = p)
  /\ (d <= 0 -> Polygon.shrinkEq Math_sqrt p d = p).
Proof.
  assert (G : forall ds, Forall (fun x => x <= 0) ds -> Polygon.shrink Math_sqrt p ds = p).
  { intros ds Hds. unfold Polygon.shrink.
    match goal with
    | |- fold_left ?f _ _ = _ =>
        assert (H : forall idx result, fold_left f idx result = result)
    end; [| apply H].
    induction idx as [| i idx IH]; intros result; cbn [fold_left]; [reflexivity |].
    destruct (nth_error ds i) as [x |] eqn:E; [| apply IH].
    assert (Hx : x <= 0).
    { rewrite List.Forall_forall in Hds. apply Hds. eapply nth_error_In. exact E. }
    destruct (Qltb 0 x) eqn:Ex; [| apply IH].
    apply Qltb_true in Ex. lra. }
  split; [apply G |].
  intros Hd. unfold Polygon.shrinkEq. apply G.
  apply List.Forall_forall. intros x Hx. apply repeat_spec in Hx. subst x. exact Hd.
Qed.

Lemma Polygon_shrink_without_positive_distance_witness :
  Forall (fun x => x <= 0) [0; 0; 0; 0]
  /\ Polygon.shrink Inputs.sqrtFloor Inputs.square2 [0; 0; 0; 0] = Inputs.square2.
Proof.
  assert (H : Forall (fun x => x <= 0) [0; 0; 0; 0])
    by (repeat constructor; unfold Qle; simpl; lia).
  split; [exact H |].
  exact (proj1 (Polygon_shrink_without_positive_distance Inputs.sqrtFloor Inputs.square2
                  [0; 0; 0; 0] 0) H).
Defined.

(** ** Polygon.next and Polygon.prev *)

Lemma Store_Polygon_new_NoDup : forall (vs : list Store.ref) (h : Store.t),
  List.NoDup (fst (Store.Polygon_new vs h)).
Proof.
  induction vs as [| v vs IH]; intros h; cbn [Store.Polygon_new].
  - constructor.
  - destruct (Store.clone v h) as [r h1] eqn:E1.
    pose proof (Store_Polygon_new_fresh vs h1) as [_ Hfresh].
    pose proof (IH h1) as Hnd.
    destruct (Store.Polygon_new vs h1) as [rs h2]. cbn [fst snd] in *.
    constructor; [| exact Hnd].
    intros Hin. rewrite List.Forall_forall in Hfresh.
    destruct (Hfresh r Hin) as [Hnot _]. apply Hnot.
    unfold Store.clone in E1.
    pose proof (Store_alloc_fresh (Point.clone (Store.read h v)) h) as [_ Hdom].
    rewrite E1 in Hdom. cbn [fst snd] in Hdom. rewrite Hdom.
    apply elem_of_union_l. apply elem_of_singleton. reflexivity.
Qed.

Lemma Store_indexOf_nth : forall (poly : list Store.ref) (i : nat) (v : Store.ref),
  List.NoDup poly -> nth_error poly i = Some v -> Store.indexOf poly v = Some i.
Proof.
  induction poly as [| a poly IH]; intros i v Hnd Hi; [destruct i; discriminate Hi |].
  apply NoDup_cons_iff in Hnd. destruct Hnd as [Ha Hnd].
  cbn [Store.indexOf]. destruct i as [| i]; cbn [nth_error] in Hi.
  - injection Hi as <-. rewrite Nat.eqb_refl. reflexivity.
  - destruct (Nat.eqb_spec a v) as [E | _].
    + exfalso. apply Ha. subst a. eapply nth_error_In. exact Hi.
    + rewrite (IH i v Hnd Hi). reflexivity.
Qed.

Lemma Store_indexOf_Some : forall (poly : list Store.ref) (v : Store.ref),
  In v poly -> exists i, Store.indexOf poly v = Some i /\ nth_error poly i = Some v.
Proof.
  induction poly as [| a poly IH]; intros v Hin; [destruct Hin |].
  cbn [Store.indexOf]. destruct (Nat.eqb_spec a v) as [E | Hne].
  - exists 0%nat. subst a. split; reflexivity.
  - destruct Hin as [E | Hin]; [congruence |].
    destruct (IH v Hin) as (i & Hi & Hn). exists (S i). rewrite Hi. split; [reflexivity | exact Hn].
Qed.

Lemma Store_indexOf_None : forall (poly : list Store.ref) (v : Store.ref),
  ~ In v poly -> Store.indexOf poly v = None.
Proof.
  induction poly as [| a poly IH]; intros v Hin; [reflexivity |].
  cbn [Store.indexOf]. destruct (Nat.eqb_spec a v) as [E | Hne].
  - exfalso. apply Hin. left. exact E.
  - rewrite IH; [reflexivity |]. intros H. apply Hin. right. exact H.
Qed.

Lemma Store_next_prev_NoDup (poly : list Store.ref) (v : Store.ref) :
  List.NoDup poly -> In v poly ->
  (exists n, Store.next poly v = Some n /\ Store.prev poly n = Some v)
  /\ (exists m, Store.prev poly v = Some m /\ Store.next poly m = Some v).
Proof.
  intros Hnd Hin.
  destruct (Store_indexOf_Some poly v Hin) as (i & Hi & Hn).
  assert (Hlt : (i < length poly)%nat) by (apply nth_error_Some; congruence).
  unfold Store.next, Store.prev. rewrite Hi. split.
  - assert (Hj : ((i + 1) mod length poly < length poly)%nat)
      by (apply Nat.mod_upper_bound; lia).
    destruct (nth_error poly ((i + 1) mod length poly)) as [n |] eqn:En;
      [| apply nth_error_None in En; lia].
    exists n. split; [reflexivity |].
    rewrite (Store_indexOf_nth poly _ n Hnd En).
    replace (((i + 1) mod length poly + length poly - 1) mod length poly)%nat with i;
      [exact Hn |].
    destruct (Nat.eq_dec (i + 1)%nat (length poly)) as [E | E].
    + rewrite E, Nat.Div0.mod_same. rewrite Nat.mod_small by lia. lia.
    + rewrite (Nat.mod_small (i + 1)%nat) by lia.
      replace (i + 1 + length poly - 1)%nat with (i + 1 * length poly)%nat by lia.
      rewrite Nat.Div0.mod_add, Nat.mod_small by lia. reflexivity.
  - assert (Hj : ((i + length poly - 1) mod length poly < length poly)%nat)
      by (apply Nat.mod_upper_bound; lia).
    destruct (nth_error poly ((i + length poly - 1) mod length poly)) as [m |] eqn:Em;
      [| apply nth_error_None in Em; lia].
    exists m. split; [reflexivity |].
    rewrite (Store_indexOf_nth poly _ m Hnd Em).
    replace (((i + length poly - 1) mod length poly + 1) mod length poly)%nat with i;
      [exact Hn |].
    destruct i as [| i].
    + rewrite Nat.add_0_l. rewrite (Nat.mod_small (length poly - 1)%nat) by lia.
      replace (length poly - 1 + 1)%nat with (length poly) by lia.
      rewrite Nat.Div0.mod_same. reflexivity.
    + replace (S i + length poly - 1)%nat with (i + 1 * length poly)%nat by lia.
      rewrite Nat.Div0.mod_add, (Nat.mod_small i) by lia.
      rewrite Nat.mod_small by lia. lia.
Qed.

(** X18. On a polygon made by the constructor (which copies every
    vertex, so that all its vertices are distinct objects), [next] and
    [prev] find every vertex of the polygon and undo each other; for an
    object that is not a vertex of the polygon they throw. *)
Theorem Store_next_prev_inverse (vs : list Store.ref) (h : Store.t) (v : Store.ref) :
  let poly := fst (Store.Polygon_new vs h) in
  (In v poly ->
   (exists n, Store.next poly v = Some n /\ Store.prev poly n = Some v)
   /\ (exists m, Store.prev poly v = Some m /\ Store.next poly m = Some v))
  /\ (~ In v poly -> Store.next poly v = None /\ Store.prev poly v = None).
Proof.
  intros poly. split.
  - apply Store_next_prev_NoDup. apply Store_Polygon_new_NoDup.
  - intros Hn. unfold Store.next, Store.prev.
    rewrite (Store_indexOf_None poly v Hn). split; reflexivity.
Qed.

Lemma Store_next_prev_inverse_witness :
  In 7%nat (fst (Store.Polygon_new [4; 5]%nat Inputs.sharedStore))
  /\ exists n,
       Store.next (fst (Store.Polygon_new [4; 5]%nat Inputs.sharedStore)) 7%nat = Some n
       /\ Store.prev (fst (Store.Polygon_new [4; 5]%nat Inputs.sharedStore)) n = Some 7%nat.
Proof.
  assert (H : In 7%nat (fst (Store.Polygon_new [4; 5]%nat Inputs.sharedStore)))
    by (vm_compute; right; left; reflexivity).
  split; [exact H |].
  exact (proj1 (proj1 (Store_next_prev_inverse [4; 5]%nat Inputs.sharedStore 7%nat) H)).
Defined.

(** ** Polygon's constructor: a deep copy *)

Lemma Store_alloc_read (p : Point.t) (h : Store.t) :
  Store.read (snd (Store.alloc p h)) (fst (Store.alloc p h)) = p
  /\ (forall r, r ∈ dom h -> snd (Store.alloc p h) !! r = h !! r).
Proof.
  unfold Store.alloc, Store.read, Store.t, Store.ref in *. cbn [fst snd]. split.
  - rewrite lookup_insert_eq. reflexivity.
  - intros r Hr. apply lookup_insert_ne. intros E. subst r.
    exact (is_fresh (dom h) Hr).
Qed.

Lemma Store_Polygon_new_copy : forall (vs : list Store.ref) (h : Store.t),
  Forall (fun v => v ∈ dom h) vs ->
  map (Store.read (snd (Store.Polygon_new vs h))) (fst (Store.Polygon_new vs h))
  = map (Store.read h) vs
  /\ (forall r, r ∈ dom h -> snd (Store.Polygon_new vs h) !! r = h !! r).
Proof.
  induction vs as [| v vs IH]; intros h Hvs; cbn [Store.Polygon_new].
  - split; [reflexivity | intros; reflexivity].
  - apply List.Forall_cons_iff in Hvs. destruct Hvs as [Hv Hvs].
    unfold Store.clone.
    pose proof (Store_alloc_read (Point.clone (Store.read h v)) h) as [Hread Hframe].
    pose proof (Store_alloc_fresh (Point.clone (Store.read h v)) h) as [Hfresh Hdom].
    destruct (Store.alloc (Point.clone (Store.read h v)) h) as [r h1]. cbn [fst snd] in *.
    assert (Hvs1 : Forall (fun v => v ∈ dom h1) vs).
    { eapply List.Forall_impl; [| exact Hvs]. intros a Ha. cbv beta in *.
      rewrite Hdom. apply elem_of_union_r. exact Ha. }
    destruct (IH h1 Hvs1) as [Hcopy Hframe1].
    pose proof (Store_Polygon_new_fresh vs h1) as [Hsub _].
    destruct (Store.Polygon_new vs h1) as [rs h2]. cbn [fst snd] in *.
    assert (Hr1 : r ∈ dom h1).
    { rewrite Hdom. apply elem_of_union_l. apply elem_of_singleton. reflexivity. }
    split.
    + cbn [map]. f_equal.
      * unfold Store.read. rewrite (Hframe1 r Hr1).
        change (Store.read h1 r = Store.read h v).
        rewrite Hread. destruct (Store.read h v). reflexivity.
      * rewrite Hcopy. apply map_ext_in. intros a Ha.
        rewrite List.Forall_forall in Hvs.
        unfold Store.read. rewrite (Hframe a (Hvs a Ha)). reflexivity.
    + intros r0 Hr0. rewrite Hframe1.
      * apply Hframe. exact Hr0.
      * rewrite Hdom. apply elem_of_union_r. exact Hr0.
Qed.

(** X19. [new Polygon(vertices)] is a deep copy: the new polygon has the
    coordinates of the old vertices in the same order, held by objects
    that are new and distinct from one another; the old objects keep
    their coordinates, also when a vertex of the copy is written to
    afterwards. *)
Theorem Store_Polygon_new_deep_copy (vs : list Store.ref) (h : Store.t) :
  Forall (fun v => v ∈ dom h) vs ->
  let poly := fst (Store.Polygon_new vs h) in
  let h' := snd (Store.Polygon_new vs h) in
  map (Store.read h') poly = map (Store.read h) vs
  /\ List.NoDup poly
  /\ Forall (fun r => r ∉ dom h) poly
  /\ (forall r, r ∈ dom h -> h' !! r = h !! r)
  /\ (forall (r : Store.ref) (q : Point.t) (v : Store.ref),
        In r poly -> In v vs -> Store.read (<[r := q]> h') v = Store.read h v).
Proof.
  intros Hvs poly h'.
  destruct (Store_Polygon_new_copy vs h Hvs) as [Hcopy Hframe].
  pose proof (Store_Polygon_new_fresh vs h) as [_ Hfresh].
  fold poly in Hcopy, Hfresh. fold h' in Hcopy, Hframe, Hfresh.
  split; [exact Hcopy |].
  split; [apply Store_Polygon_new_NoDup |].
  assert (Hout : Forall (fun r => r ∉ dom h) poly).
  { eapply List.Forall_impl; [| exact Hfresh]. intros a [Ha _]. exact Ha. }
  split; [exact Hout |].
  split; [exact Hframe |].
  intros r q v Hr Hv.
  rewrite List.Forall_forall in Hvs, Hout.
  pose proof (Hvs v Hv) as Hvd. pose proof (Hout r Hr) as Hrd.
  unfold Store.read. unfold Store.t, Store.ref in *.
  rewrite lookup_insert_ne by (intros E; subst r; contradiction).
  rewrite (Hframe v Hvd). reflexivity.
Qed.

Lemma Store_Polygon_new_deep_copy_witness :
  Forall (fun v => v ∈ dom Inputs.sharedStore) [4; 5]%nat
  /\ map (Store.read (snd (Store.Polygon_new [4; 5]%nat Inputs.sharedStore)))
         (fst (Store.Polygon_new [4; 5]%nat Inputs.sharedStore))
     = map (Store.read Inputs.sharedStore) [4; 5]%nat.
Proof.
  assert (H : Forall (fun v => v ∈ dom Inputs.sharedStore) [4; 5]%nat).
  { repeat constructor; apply elem_of_dom; eexists; vm_compute; reflexivity. }
  split; [exact H |].
  exact (proj1 (Store_Polygon_new_deep_copy [4; 5]%nat Inputs.sharedStore H)).
Defined.

(** ** Polygon.min and Ward.findLongestEdge *)

Lemma Polygon_min_fold (valueFn : nat -> Q) : forall (k a m0 : nat),
  (m0 < a)%nat ->
  (forall i, (i < a)%nat -> valueFn m0 <= valueFn i) ->
  (forall i, (i < m0)%nat -> valueFn m0 < valueFn i) ->
  let m := fst (fold_left
                  (fun acc i =>
                     let '(minVertex, minValue) := acc in
                     let value := valueFn i in
                     if Qltb value minValue then (i, value) else (minVertex, minValue))
                  (seq a k) (m0, valueFn m0)) in
  (m < a + k)%nat
  /\ (forall i, (i < a + k)%nat -> valueFn m <= valueFn i)
  /\ (forall i, (i < m)%nat -> valueFn m < valueFn i).
Proof.
  induction k as [| k IH]; intros a m0 Hm0 Hle Hlt; cbn [seq fold_left].
  - cbn [fst]. rewrite Nat.add_0_r. repeat split; assumption.
  - destruct (Qltb (valueFn a) (valueFn m0)) eqn:E.
    + apply Qltb_true in E.
      destruct (IH (S a) a ltac:(lia)) as (H1 & H2 & H3).
      * intros i Hi. destruct (Nat.eq_dec i a) as [-> | Hne]; [lra |].
        specialize (Hle i ltac:(lia)). lra.
      * intros i Hi. specialize (Hle i Hi). lra.
      * replace (a + S k)%nat with (S a + k)%nat by lia. repeat split; assumption.
    + apply Qltb_false in E.
      destruct (IH (S a) m0 ltac:(lia)) as (H1 & H2 & H3).
      * intros i Hi. destruct (Nat.eq_dec i a) as [-> | Hne]; [exact E |].
        apply Hle. lia.
      * exact Hlt.
      * replace (a + S k)%nat with (S a + k)%nat by lia. repeat split; assumption.
Qed.

(** X20. [min(valueFn)] returns the first vertex at which the value is
    least; it throws exactly on the empty polygon. *)
Theorem Polygon_min_is_first_least (p : Polygon.t) (valueFn : nat -> Q) :
  match Polygon.minIndex p valueFn with
  | Some m =>
      (m < length p)%nat
      /\ (forall i, (i < length p)%nat -> valueFn m <= valueFn i)
      /\ (forall i, (i < m)%nat -> valueFn m < valueFn i)
  | None => p = []
  end.
Proof.
  destruct p as [| a l]; [reflexivity |].
  unfold Polygon.minIndex.
  destruct (Polygon_min_fold valueFn (length (a :: l) - 1) 1 0 ltac:(lia)) as (H1 & H2 & H3).
  - intros i Hi. assert (i = 0%nat) by lia. subst i. lra.
  - intros i Hi. lia.
  - replace (1 + (length (a :: l) - 1))%nat with (length (a :: l)) in H1, H2
      by (cbn [length]; lia).
    repeat split; assumption.
Qed.

(** X21. [findLongestEdge] returns the start of an edge that no edge of
    the polygon is longer than, the first such edge in boundary order. *)
Theorem Ward_findLongestEdge_is_longest (Math_sqrt : Q -> Q) (poly : Polygon.t) :
  match Ward.findLongestEdge Math_sqrt poly with
  | Some m =>
      (m < length poly)%nat
      /\ (forall i, (i < length poly)%nat ->
                    Point.length Math_sqrt (Polygon.vector poly i)
                    <= Point.length Math_sqrt (Polygon.vector poly m))
      /\ (forall i, (i < m)%nat ->
                    Point.length Math_sqrt (Polygon.vector poly i)
                    < Point.length Math_sqrt (Polygon.vector poly m))
  | None => poly = []
  end.
Proof.
  destruct poly as [| a l]; [reflexivity |].
  unfold Ward.findLongestEdge, Polygon.minIndex.
  assert (H01 : (0 < 1)%nat) by lia.
  destruct (Polygon_min_fold
              (fun i => - Point.length Math_sqrt (Polygon.vector (a :: l) i))
              (length (a :: l) - 1) 1 0 H01) as (H1 & H2 & H3).
  - intros i Hi. assert (i = 0%nat) by lia. subst i. lra.
  - intros i Hi. lia.
  - replace (1 + (length (a :: l) - 1))%nat with (length (a :: l)) in H1, H2
      by (cbn [length]; lia).
    split; [exact H1 |]. split.
    + intros i Hi. specialize (H2 i Hi). cbv beta in H2.
      apply Qopp_le_compat in H2. rewrite !Qopp_opp in H2. exact H2.
    + intros i Hi. specialize (H3 i Hi). cbv beta in H3.
      apply Qopp_lt_compat in H3. rewrite !Qopp_opp in H3. exact H3.
Qed.

(** ** Polygon.cut: what the pieces are made of *)

Lemma Polygon_cut_two_pieces (p : Polygon.t) (p1 p2 : Point.t) (gap : Q)
      (h1 h2 : Polygon.t) :
  Polygon.cut p p1 p2 gap = [h1; h2] ->
  Polygon.count (Polygon.scan p p1 p2) = 2%nat.
Proof.
  intros H.
  destruct (Nat.eq_dec (Polygon.count (Polygon.scan p p1 p2)) 2%nat) as [Hc | Hc];
    [exact Hc |].
  rewrite (Polygon_cut_other p p1 p2 gap Hc) in H. discriminate H.
Qed.

Lemma Permutation_halves {T : Type} (A B C : list T) (P1 P2 : T) :
  Permutation ((P1 :: B ++ [P2]) ++ (P2 :: (C ++ A) ++ [P1]))
              (P1 :: P2 :: P1 :: P2 :: A ++ B ++ C).
Proof.
  cbn [app]. apply perm_skip.
  rewrite <- !app_assoc. cbn [app].
  etransitivity; [symmetry; apply Permutation_middle |]. apply perm_skip.
  etransitivity; [symmetry; apply Permutation_middle |].
  etransitivity; [| apply perm_swap]. apply perm_skip.
  rewrite !app_assoc.
  etransitivity; [symmetry; apply Permutation_cons_append |]. apply perm_skip.
  rewrite <- !app_assoc. rewrite (app_assoc B C A). apply Permutation_app_comm.
Qed.



Lemma Shoelace_convexSide_closed (s : Q) (p : Polygon.t) :
  Shoelace.convexSide s p = true -> 0 <= s * Shoelace.closed p.
Proof.
  intros Hcv. destruct p as [| a l].
  - cbn [Shoelace.closed]. lra.
  - rewrite (Shoelace_closed_fan s a a l).
    apply (Shoelace_fan_nonneg (Shoelace.isEdge (a :: l)) s a).
    + intros u v He. apply (Shoelace_convexSide_spec s (a :: l) Hcv u v a He).
      left. reflexivity.
    + apply Shoelace_closed_chain.
Qed.

(** X23. Cutting a convex polygon keeps the orientation: every piece
    [cut] returns has a signed area of the polygon's sign ([s = 1]:
    counter-clockwise, [s = -1]: clockwise), and none is larger than the
    polygon. *)
Theorem Polygon_cut_keeps_orientation (s : Q) (p : Polygon.t) (p1 p2 : Point.t) (gap : Q) :
  Shoelace.convexSide s p = true ->
  Forall (fun h => 0 <= s * Polygon.square h
                   /\ s * Polygon.square h <= s * Polygon.square p)
         (Polygon.cut p p1 p2 gap).
Proof.
  intros Hcv.
  assert (Hsq : forall h, s * Polygon.square h == (s * Shoelace.closed h) * (1 # 2)).
  { intros h. rewrite Polygon_square_shoelace. ring. }
  pose proof (Shoelace_convexSide_closed s p Hcv) as Hp0.
  destruct (Nat.eq_dec (Polygon.count (Polygon.scan p p1 p2)) 2%nat) as [Hc | Hc].
  2:{ rewrite (Polygon_cut_other p p1 p2 gap Hc).
      apply List.Forall_cons; [| apply List.Forall_nil].
      rewrite Hsq. split; lra. }
  destruct (Polygon_cut_two p p1 p2 gap Hc)
    as (a0 & A' & b0 & B' & C & P1 & P2 & t1 & t2 & Hp & T1 & T2 & L1 & L2 & Hcut).
  pose proof (Shoelace_halves_add a0 A' b0 B' C P1 P2 t1 t2 L1 L2) as Hadd.
  fold (Shoelace.half1 b0 B' P1 P2) in Hadd.
  fold (Shoelace.half2 a0 A' C P1 P2) in Hadd.
  rewrite <- Hp in Hadd.
  rewrite Hp in Hcv.
  destruct (Shoelace_halves_sign s a0 A' b0 B' C P1 P2 t1 t2 Hcv T1 T2 L1 L2) as [S1 S2].
  assert (H1 : 0 <= s * Polygon.square (Shoelace.half1 b0 B' P1 P2)
               /\ s * Polygon.square (Shoelace.half1 b0 B' P1 P2) <= s * Polygon.square p).
  { rewrite !Hsq. split; nra. }
  assert (H2 : 0 <= s * Polygon.square (Shoelace.half2 a0 A' C P1 P2)
               /\ s * Polygon.square (Shoelace.half2 a0 A' C P1 P2) <= s * Polygon.square p).
  { rewrite !Hsq. split; nra. }
  destruct Hcut as [-> | ->]; repeat (apply List.Forall_cons; [assumption |]);
    apply List.Forall_nil.
Qed.

Lemma Polygon_cut_keeps_orientation_witness :
  Shoelace.convexSide 1 Inputs.square2 = true
  /\ Forall (fun h => 0 <= 1 * Polygon.square h
                      /\ 1 * Polygon.square h <= 1 * Polygon.square Inputs.square2)
            (Polygon.cut Inputs.square2 (Point.mk 1 0) (Point.mk 1 2) 0).
Proof.
  assert (H : Shoelace.convexSide 1 Inputs.square2 = true) by (vm_compute; reflexivity).
  split; [exact H |].
  exact (Polygon_cut_keeps_orientation 1 Inputs.square2 (Point.mk 1 0) (Point.mk 1 2) 0 H).
Defined.

(** ** Polygon.cut: the pieces and the area *)

(** X24. [cut] returns the polygon alone or two pieces; a polygon with
    vertices has no empty piece; and the signed areas of what is returned
    add up to the signed area of the polygon, convex or not. *)
Theorem Polygon_cut_partitions_area (p : Polygon.t) (p1 p2 : Point.t) (gap : Q) :
  (Polygon.cut p p1 p2 gap = [p]
   \/ exists h1 h2, Polygon.cut p p1 p2 gap = [h1; h2])
  /\ (p <> [] -> Forall (fun h => h <> []) (Polygon.cut p p1 p2 gap))
  /\ fold_right (fun h s => Polygon.square h + s) 0 (Polygon.cut p p1 p2 gap)
     == Polygon.square p.
Proof.
  split; [| split].
  - destruct (Nat.eq_dec (Polygon.count (Polygon.scan p p1 p2)) 2%nat) as [Hc | Hc].
    + right.
      destruct (Polygon_cut_two p p1 p2 gap Hc)
        as (a0 & A' & b0 & B' & C & P1 & P2 & t1 & t2 & _ & _ & _ & _ & _ & [E | E]);
        rewrite E; eexists _, _; reflexivity.
    + left. apply Polygon_cut_other. exact Hc.
  - intros Hne. apply List.Forall_forall.
    apply Polygon_cut_pieces_nonempty. exact Hne.
  - apply Polygon_cut_signed_areas.
Qed.

(** ** Cutter.radial *)

Lemma Qsum_linear3 (a b c : nat -> Q) : forall idx : list nat,
  fold_right Qplus 0 (map (fun i => (a i - b i + c i) * (1 # 2)) idx)
  == (fold_right Qplus 0 (map a idx) - fold_right Qplus 0 (map b idx)
      + fold_right Qplus 0 (map c idx)) * (1 # 2).
Proof.
  induction idx as [| i idx IH]; cbn [map fold_right]; [ring | rewrite IH; ring].
Qed.

(** The shoelace terms of the edges add up to the closed sum. *)
Lemma Polygon_edge_terms (p : Polygon.t) :
  fold_right Qplus 0
    (map (fun i => Shoelace.cr (fst (Polygon.edge p i)) (snd (Polygon.edge p i)))
         (seq 0 (length p)))
  == Shoelace.closed p.
Proof.
  pose proof (Polygon_shoelace_fold p (length p) (Nat.le_refl _)) as H.
  assert (E : forall (l : list nat) (acc : Q),
            fold_left
              (fun s i =>
                 let '(v1, v2) := Polygon.edge p i in
                 s + (Point.x v1 * Point.y v2 - Point.x v2 * Point.y v1))
              l acc
            == acc + fold_right Qplus 0
                       (map (fun i => Shoelace.cr (fst (Polygon.edge p i))
                                                  (snd (Polygon.edge p i))) l)).
  { induction l as [| i l IH]; intros acc; cbn [fold_left map fold_right]; [ring |].
    rewrite IH. destruct (Polygon.edge p i) as [v1 v2]. cbn [fst snd].
    unfold Shoelace.cr. ring. }
  rewrite E in H. rewrite Qplus_0_l in H. rewrite H.
  destruct p as [| a l]; [reflexivity |].
  unfold Shoelace.closed.
  replace (length (a :: l)) with (length (l ++ [a]))
    by (rewrite length_app; cbn [length]; lia).
  rewrite firstn_all. reflexivity.
Qed.

Lemma Polygon_triangle_square (c u v : Point.t) :
  Polygon.square [c; u; v]
  == (Shoelace.cr c u - Shoelace.cr c v + Shoelace.cr u v) * (1 # 2).
Proof.
  rewrite Polygon_square_shoelace. unfold Shoelace.closed. cbn [app Shoelace.path].
  unfold Shoelace.cr. ring.
Qed.

(** X25. Without a gap, [radial] returns one triangle per edge, and the
    signed areas of the triangles add up to the signed area of the
    polygon, wherever the centre lies. *)
Theorem Cutter_radial_sectors_cover (Math_sqrt : Q -> Q) (poly : Polygon.t)
        (center : Point.t) (gap : Q) :
  gap <= 0 ->
  length (Cutter.radial Math_sqrt poly center gap) = length poly
  /\ Forall (fun sector => length sector = 3%nat) (Cutter.radial Math_sqrt poly center gap)
  /\ fold_right (fun sector s => Polygon.square sector + s) 0
                (Cutter.radial Math_sqrt poly center gap)
     == Polygon.square poly.
Proof.
  intros Hgap. unfold Cutter.radial.
  assert (Eg : Qltb 0 gap = false).
  { destruct (Qltb 0 gap) eqn:E; [| reflexivity]. apply Qltb_true in E. lra. }
  rewrite Eg.
  split; [rewrite length_map, length_seq; reflexivity |].
  split.
  { apply List.Forall_forall. intros sector Hs. apply in_map_iff in Hs.
    destruct Hs as (i & <- & _). destruct (Polygon.edge poly i). reflexivity. }
  assert (E1 : forall l : list nat,
             fold_right (fun sector s => Polygon.square sector + s) 0
                        (map (fun i => let '(v0, v1) := Polygon.edge poly i in [center; v0; v1]) l)
             == fold_right Qplus 0
                  (map (fun i =>
                          (Shoelace.cr center (Polygon.get poly i)
                           - Shoelace.cr center (Polygon.get poly ((i + 1) mod length poly))
                           + Shoelace.cr (fst (Polygon.edge poly i)) (snd (Polygon.edge poly i)))
                          * (1 # 2)) l)).
  { induction l as [| i l IH]; cbn [map fold_right]; [reflexivity |].
    rewrite IH. unfold Polygon.edge at 1. rewrite Polygon_triangle_square.
    unfold Polygon.edge. cbn [fst snd]. reflexivity. }
  rewrite E1.
  rewrite (Qsum_linear3
             (fun i => Shoelace.cr center (Polygon.get poly i))
             (fun i => Shoelace.cr center (Polygon.get poly ((i + 1) mod length poly)))
             (fun i => Shoelace.cr (fst (Polygon.edge poly i)) (snd (Polygon.edge poly i)))).
  rewrite Polygon_edge_terms, Polygon_square_shoelace.
  assert (E2 : fold_right Qplus 0
                 (map (fun i => Shoelace.cr center (Polygon.get poly ((i + 1) mod length poly)))
                      (seq 0 (length poly)))
               == fold_right Qplus 0
                    (map (fun i => Shoelace.cr center (Polygon.get poly i))
                         (seq 0 (length poly)))).
  { destruct poly as [| a l]; [reflexivity |].
    rewrite <- (map_map (fun i => Polygon.get (a :: l) ((i + 1) mod length (a :: l)))
                        (Shoelace.cr center)).
    rewrite <- (map_map (fun i => Polygon.get (a :: l) i) (Shoelace.cr center)).
    rewrite Polygon_next_vertices. unfold Polygon.get. rewrite map_nth_seq.
    rewrite map_app. cbn [map]. apply Qsum_rotate_l. }
  rewrite E2. ring.
Qed.

Lemma Cutter_radial_sectors_cover_witness :
  0 <= 0
  /\ fold_right (fun sector s => Polygon.square sector + s) 0
                (Cutter.radial Inputs.sqrtFloor Inputs.square2 (Point.mk 5 7) 0)
     == Polygon.square Inputs.square2.
Proof.
  assert (H : 0 <= 0) by (unfold Qle; simpl; lia).
  split; [exact H |].
  exact (proj2 (proj2 (Cutter_radial_sectors_cover Inputs.sqrtFloor Inputs.square2
                         (Point.mk 5 7) 0 H))).
Defined.

(** ** Voronoi: the constructor of Triangle *)

Lemma Voronoi_circumcenter_equidistant (Math_sqrt : Q -> Q) (p1 p2 p3 : Point.t) :
  ~ Shoelace.orient p1 p2 p3 == 0 ->
  Point.y p1 == Point.y p2 \/ (1 # 1000000) <= Qabs (Point.y p1 - Point.y p2) ->
  Voronoi.distance2 (Voronoi.c (Voronoi.newTriangle Math_sqrt p1 p2 p3)) p1
  == Voronoi.distance2 (Voronoi.c (Voronoi.newTriangle Math_sqrt p1 p2 p3)) p2
  /\ Voronoi.distance2 (Voronoi.c (Voronoi.newTriangle Math_sqrt p1 p2 p3)) p2
     == Voronoi.distance2 (Voronoi.c (Voronoi.newTriangle Math_sqrt p1 p2 p3)) p3.
Proof.
  intros Hnc Hy.
  unfold Voronoi.newTriangle. cbn [Voronoi.c].
  unfold Shoelace.orient, GeomUtils.cross in Hnc.
  destruct p1 as [ax ay], p2 as [bx by_], p3 as [cx cy]. cbn [Point.x Point.y] in *.
  unfold Voronoi.distance2, Point.dot, Point.subtract. cbn [Point.x Point.y].
  destruct (Qltb (Qabs (ay - by_)) (1 # 1000000)) eqn:E.
  - apply Qltb_true in E.
    assert (Ey : ay == by_) by (destruct Hy as [Hy | Hy]; [exact Hy | lra]).
    assert (Hd : ~ by_ - cy == 0).
    { intros H0. apply Hnc.
      assert (Ecy : cy == by_) by lra. rewrite Ey, Ecy. ring. }
    split.
    + rewrite Ey. field. exact Hd.
    + field. exact Hd.
  - apply Qltb_false in E.
    assert (Hd1 : ~ ay - by_ == 0).
    { intros H0. assert (Ea : Qabs (ay - by_) == 0) by (rewrite H0; reflexivity). lra. }
    assert (Hd2 : ~ (cx - bx) * (ay - by_) - (by_ - cy) * (bx - ax) == 0).
    { intros H0. apply Hnc. rewrite <- H0. ring. }
    assert (Hd3 : ~ cx - bx - (by_ - cy) * ((bx - ax) / (ay - by_)) == 0).
    { intros H0. apply Hd2.
      assert (Em : (cx - bx) * (ay - by_) - (by_ - cy) * (bx - ax)
                   == (cx - bx - (by_ - cy) * ((bx - ax) / (ay - by_))) * (ay - by_))
        by (field; exact Hd1).
      rewrite Em, H0. ring. }
    split; field; split; assumption.
Qed.

(** X26. The constructor of Triangle keeps the first corner and stores
    the other two in the order for which the orientation sum is not
    negative.  Its circumcenter is equidistant from the three corners
    when these are not on one line and [p1] and [p2] are either at the
    same height or at least [0.000001] apart in height (below that the
    constructor treats the edge as horizontal). *)
Theorem Voronoi_newTriangle_orientation_and_circumcenter
        (Math_sqrt : Q -> Q) (p1 p2 p3 : Point.t) :
  let tr := Voronoi.newTriangle Math_sqrt p1 p2 p3 in
  0 <= Voronoi.turn (Voronoi.p1 tr) (Voronoi.p2 tr) (Voronoi.p3 tr)
  /\ Voronoi.p1 tr = p1
  /\ ((Voronoi.p2 tr = p2 /\ Voronoi.p3 tr = p3)
      \/ (Voronoi.p2 tr = p3 /\ Voronoi.p3 tr = p2))
  /\ (~ Shoelace.orient p1 p2 p3 == 0 ->
      Point.y p1 == Point.y p2 \/ (1 # 1000000) <= Qabs (Point.y p1 - Point.y p2) ->
      Voronoi.distance2 (Voronoi.c tr) p1 == Voronoi.distance2 (Voronoi.c tr) p2
      /\ Voronoi.distance2 (Voronoi.c tr) p2 == Voronoi.distance2 (Voronoi.c tr) p3).
Proof.
  intros tr.
  assert (Ho : 0 <= Voronoi.turn (Voronoi.p1 tr) (Voronoi.p2 tr) (Voronoi.p3 tr)
               /\ Voronoi.p1 tr = p1
               /\ ((Voronoi.p2 tr = p2 /\ Voronoi.p3 tr = p3)
                   \/ (Voronoi.p2 tr = p3 /\ Voronoi.p3 tr = p2))).
  { unfold tr, Voronoi.newTriangle. cbn [Voronoi.p1 Voronoi.p2 Voronoi.p3].
    destruct (Qltb 0 (Voronoi.turn p1 p2 p3)) eqn:E.
    - apply Qltb_true in E. split; [lra |].
      split; [reflexivity | left; split; reflexivity].
    - apply Qltb_false in E. split.
      + assert (Es : Voronoi.turn p1 p3 p2 == - Voronoi.turn p1 p2 p3)
          by (unfold Voronoi.turn; ring).
        rewrite Es. lra.
      + split; [reflexivity | right; split; reflexivity]. }
  destruct Ho as (H1 & H2 & H3).
  split; [exact H1 |]. split; [exact H2 |]. split; [exact H3 |].
  intros Hnc Hy. apply Voronoi_circumcenter_equidistant; assumption.
Qed.

Lemma Voronoi_newTriangle_witness :
  ~ Shoelace.orient (Point.mk 0 0) (Point.mk 4 2) (Point.mk 0 3) == 0
  /\ (Point.y (Point.mk 0 0) == Point.y (Point.mk 4 2)
      \/ (1 # 1000000) <= Qabs (Point.y (Point.mk 0 0) - Point.y (Point.mk 4 2)))
  /\ Voronoi.distance2
       (Voronoi.c (Voronoi.newTriangle Inputs.sqrtFloor (Point.mk 0 0) (Point.mk 4 2) (Point.mk 0 3)))
       (Point.mk 0 0)
     == Voronoi.distance2
          (Voronoi.c (Voronoi.newTriangle Inputs.sqrtFloor (Point.mk 0 0) (Point.mk 4 2) (Point.mk 0 3)))
          (Point.mk 4 2).
Proof.
  assert (Hn : ~ Shoelace.orient (Point.mk 0 0) (Point.mk 4 2) (Point.mk 0 3) == 0)
    by (intros H; vm_compute in H; discriminate H).
  assert (Hy : Point.y (Point.mk 0 0) == Point.y (Point.mk 4 2)
               \/ (1 # 1000000) <= Qabs (Point.y (Point.mk 0 0) - Point.y (Point.mk 4 2)))
    by (right; vm_compute; discriminate).
  split; [exact Hn | split; [exact Hy |]].
  exact (proj1 (proj2 (proj2 (proj2
           (Voronoi_newTriangle_orientation_and_circumcenter Inputs.sqrtFloor
              (Point.mk 0 0) (Point.mk 4 2) (Point.mk 0 3)))) Hn Hy)).
Defined.

(** ** Model.createWards: the light shuffle of the ward types *)

Lemma list_swap_adjacent {A : Type} : forall (i : nat) (l : list A) (a b : A),
  nth_error l i = Some a -> nth_error l (i + 1) = Some b ->
  exists l1 l2,
    l = (l1 ++ a :: b :: l2)%list
    /\ <[(i + 1)%nat := a]> (<[i := b]> l) = (l1 ++ b :: a :: l2)%list
    /\ length l2 = (length l - i - 2)%nat.
Proof.
  induction i as [| i IH]; intros l a b Ha Hb.
  - destruct l as [| x [| y l2]]; try discriminate.
    cbn in Ha, Hb. injection Ha as ->. injection Hb as ->.
    exists [], l2. repeat split. cbn [length]. lia.
  - destruct l as [| x l]; [discriminate |].
    cbn [nth_error Nat.add] in Ha, Hb.
    destruct (IH l a b Ha Hb) as (l1 & l2 & El & Es & Hl).
    exists (x :: l1), l2. split; [rewrite El; reflexivity |].
    split; [| cbn [length]; lia].
    cbn [Nat.add]. cbn. f_equal. exact Es.
Qed.

Lemma last_app_cons {A : Type} : forall (l1 l2 : list A) (x d : A),
  List.last (l1 ++ x :: l2) d = List.last (x :: l2) d.
Proof.
  induction l1 as [| a l1 IH]; intros l2 x d; [reflexivity |].
  change ((a :: l1) ++ x :: l2)%list with (a :: (l1 ++ x :: l2))%list.
  rewrite last_cons_default, IH.
  destruct l1; cbn [app]; rewrite !last_cons_default; reflexivity.
Qed.

Lemma CreateWards_shuffle_spec (d : WardKind) : forall (rounds : nat) (wards : list WardKind)
    (st : Random.state),
  Random.valid st -> (3 <= length wards)%nat ->
  exists (wards' : list WardKind) (st' : Random.state),
    CreateWards.shuffle rounds wards st = Some (wards', st')
    /\ Permutation wards' wards
    /\ List.last wards' d = List.last wards d
    /\ Random.valid st'.
Proof.
  induction rounds as [| rounds IH]; intros wards st Hv Hlen; cbn [CreateWards.shuffle].
  - exists wards, st. repeat split; [apply Permutation_refl | exact Hv].
  - pose proof (Random_int_below (Z.of_nat (length wards) - 2) st Hv ltac:(lia)) as Hidx.
    pose proof (Random_int_valid 0 (Z.of_nat (length wards) - 2) st Hv) as Hv'.
    destruct (Random.int 0 (Z.of_nat (length wards) - 2) st) as [index st1].
    cbn [fst snd] in Hidx, Hv'.
    destruct (Z.ltb_spec index 0) as [Hneg | _]; [lia |].
    destruct (nth_error wards (Z.to_nat index)) as [tmp |] eqn:E1.
    2:{ apply nth_error_None in E1. lia. }
    destruct (nth_error wards (Z.to_nat index + 1)) as [nxt |] eqn:E2.
    2:{ apply nth_error_None in E2. lia. }
    destruct (list_swap_adjacent _ _ _ _ E1 E2) as (l1 & l2 & El & Es & Hl2).
    rewrite Es.
    assert (Hne : l2 <> []).
    { intros ->. cbn [length] in Hl2. lia. }
    destruct (IH (l1 ++ nxt :: tmp :: l2)%list st1 Hv') as (wards' & st' & Eq & Hp & Hlast & Hv'').
    { rewrite El in Hlen. rewrite !length_app in *. cbn [length] in *. lia. }
    exists wards', st'. split; [exact Eq |]. split; [| split; [| exact Hv'']].
    + rewrite Hp, El. apply Permutation_app_head. apply perm_swap.
    + rewrite Hlast, El.
      destruct l2 as [| z l2]; [congruence |].
      rewrite !last_app_cons, !last_cons_default. reflexivity.
Qed.

(** X27. The palette [createWards] hands out is a rearrangement of
    [Model.WARDS]: the three exchanges stay inside the array, lose and
    add nothing, and never reach the last entry, which stays the final
    MerchantWard. *)
Theorem CreateWards_palette_rearranges (st : Random.state) :
  Random.valid st ->
  exists (wards : list WardKind) (st' : Random.state),
    CreateWards.palette st = Some (wards, st')
    /\ Permutation wards CreateWards.WARDS
    /\ length wards = 36%nat
    /\ nth_error wards 35 = Some MerchantWard
    /\ Random.valid st'.
Proof.
  intros Hv. unfold CreateWards.palette.
  destruct (CreateWards_shuffle_spec Slum (length CreateWards.WARDS / 10) CreateWards.WARDS st Hv)
    as (wards & st' & Eq & Hp & Hlast & Hv').
  { cbn. lia. }
  exists wards, st'. split; [exact Eq |]. split; [exact Hp |].
  assert (Hlen : length wards = 36%nat) by (rewrite (Permutation_length Hp); reflexivity).
  split; [exact Hlen |]. split; [| exact Hv'].
  change (List.last CreateWards.WARDS Slum) with MerchantWard in Hlast.
  rewrite <- Hlast.
  destruct (exists_last (l := wards)) as (l' & z & ->).
  { intros ->. discriminate Hlen. }
  rewrite last_app_singleton.
  rewrite length_app in Hlen. cbn [length] in Hlen.
  rewrite nth_error_app2 by lia.
  replace (35 - length l')%nat with 0%nat by lia. reflexivity.
Qed.

Lemma CreateWards_palette_rearranges_witness :
  Random.valid 42%Z
  /\ exists (wards : list WardKind) (st' : Random.state),
       CreateWards.palette 42%Z = Some (wards, st')
       /\ Permutation wards CreateWards.WARDS.
Proof.
  assert (Hv : Random.valid 42%Z) by (unfold Random.valid; lia).
  split; [exact Hv |].
  destruct (CreateWards_palette_rearranges 42%Z Hv) as (wards & st' & Eq & Hp & _).
  exists wards, st'. split; [exact Eq | exact Hp].
Defined.

(** ** GeomUtils *)

(** X28. [intersectLines] returns [null] for parallel lines, and
    otherwise parameters that put one and the same point on both lines. *)
Theorem GeomUtils_intersectLines_meets (x1 y1 dx1 dy1 x2 y2 dx2 dy2 : Q) :
  match GeomUtils.intersectLines x1 y1 dx1 dy1 x2 y2 dx2 dy2 with
  | Some tp =>
      (1 # 10000) <= Qabs (GeomUtils.cross dx1 dy1 dx2 dy2)
      /\ x1 + dx1 * Point.x tp == x2 + dx2 * Point.y tp
      /\ y1 + dy1 * Point.x tp == y2 + dy2 * Point.y tp
  | None => Qabs (GeomUtils.cross dx1 dy1 dx2 dy2) < 1 # 10000
  end.
Proof.
  destruct (GeomUtils.intersectLines x1 y1 dx1 dy1 x2 y2 dx2 dy2) as [tp |] eqn:E.
  - split; [| exact (GeomUtils_intersectLines_sound _ _ _ _ _ _ _ _ _ E)].
    unfold GeomUtils.intersectLines in E. unfold GeomUtils.cross.
    destruct (Qltb (Qabs (dx1 * dy2 - dy1 * dx2)) (1 # 10000)) eqn:Ed; [discriminate E |].
    apply Qltb_false in Ed. exact Ed.
  - unfold GeomUtils.intersectLines in E. unfold GeomUtils.cross.
    destruct (Qltb (Qabs (dx1 * dy2 - dy1 * dx2)) (1 # 10000)) eqn:Ed; [| discriminate E].
    apply Qltb_true in Ed. exact Ed.
Qed.

(** [interpolate(p1, p2, ratio)] is [p1] at ratio 0, [p2] at ratio
    1 and the midpoint at the default ratio; at every ratio it lies on the
    line through [p1] and [p2]. *)
Lemma GeomUtils_interpolate_on_line (p1 p2 : Point.t) (ratio : Q) :
  Point.same (GeomUtils.interpolate p1 p2 0) p1
  /\ Point.same (GeomUtils.interpolate p1 p2 1) p2
  /\ Point.same (GeomUtils.interpolate p1 p2 (1 # 2))
                (Point.scale (Point.add p1 p2) (1 # 2))
  /\ Shoelace.orient p1 p2 (GeomUtils.interpolate p1 p2 ratio) == 0.
Proof.
  unfold Point.same, GeomUtils.interpolate, Shoelace.orient, GeomUtils.cross,
    Point.scale, Point.add.
  cbn [Point.x Point.y]. repeat split; ring.
Qed.

(** ** Point.equals *)

Lemma Qltb_wd (a a' b b' : Q) : a == a' -> b == b' -> Qltb a b = Qltb a' b'.
Proof.
  intros Ea Eb.
  destruct (Qltb a b) eqn:E1; destruct (Qltb a' b') eqn:E2; try reflexivity.
  - apply Qltb_true in E1. apply Qltb_false in E2. lra.
  - apply Qltb_false in E1. apply Qltb_true in E2. lra.
Qed.

(** X29. [equals] compares within a tolerance: it is symmetric, and
    reflexive for a positive tolerance, but it is not transitive, and
    nothing equals [null]. *)
Theorem Point_equals_is_a_tolerance (p q : Point.t) (epsilon : Q) :
  Point.equals p (Some q) epsilon = Point.equals q (Some p) epsilon
  /\ (0 < epsilon -> Point.equals p (Some p) epsilon = true)
  /\ Point.equals p None epsilon = false
  /\ (Point.equals (Point.mk 0 0) (Some (Point.mk (6 # 100000) 0)) Point.EPSILON = true
      /\ Point.equals (Point.mk (6 # 100000) 0) (Some (Point.mk (12 # 100000) 0)) Point.EPSILON
         = true
      /\ Point.equals (Point.mk 0 0) (Some (Point.mk (12 # 100000) 0)) Point.EPSILON = false).
Proof.
  split; [| split; [| split; [reflexivity | vm_compute; repeat split; reflexivity]]].
  - unfold Point.equals.
    assert (Ex : Qabs (Point.x p - Point.x q) == Qabs (Point.x q - Point.x p)).
    { rewrite <- (Qabs_opp (Point.x p - Point.x q)). apply Qabs_wd. ring. }
    assert (Ey : Qabs (Point.y p - Point.y q) == Qabs (Point.y q - Point.y p)).
    { rewrite <- (Qabs_opp (Point.y p - Point.y q)). apply Qabs_wd. ring. }
    rewrite (Qltb_wd _ _ _ _ Ex (Qeq_refl epsilon)).
    rewrite (Qltb_wd _ _ _ _ Ey (Qeq_refl epsilon)). reflexivity.
  - intros He. unfold Point.equals.
    assert (Zx : Qabs (Point.x p - Point.x p) == 0).
    { assert (E0 : Point.x p - Point.x p == 0) by ring. rewrite E0. reflexivity. }
    assert (Zy : Qabs (Point.y p - Point.y p) == 0).
    { assert (E0 : Point.y p - Point.y p == 0) by ring. rewrite E0. reflexivity. }
    rewrite !Qltb_intro; [reflexivity | lra | lra].
Qed.

(** ** Ward.createOrthoBuilding: the fallback *)

Lemma Ward_attempts_nonempty (Math_sqrt : Q -> Q) (Math_pow : Q -> Q -> Q)
      (fuel : nat) (minBlockSq fill : Q) (poly : Polygon.t) (c1 c2 : Point.t) :
  forall (remaining : nat) (st st' : Random.state) (blocks : list Polygon.t),
    Ward.attempts Math_sqrt Math_pow remaining fuel minBlockSq fill poly c1 c2 st
    = Ward.Ret blocks st' ->
    blocks <> [].
Proof.
  induction remaining as [| remaining IH]; intros st st' blocks H;
    cbn [Ward.attempts] in H.
  - injection H as <- _. discriminate.
  - destruct (Ward.slice Math_sqrt Math_pow fuel minBlockSq fill poly c1 c2 st)
      as [bs st1 | e |]; try discriminate H.
    destruct bs as [| b bs].
    + eapply IH. exact H.
    + injection H as <- _. discriminate.
Qed.


